(** * WhatsappCalling: the call-session coordinator (src/callManager.js)

    A shallow embedding of the call manager of the WhatsApp calling demo
    server, together with the socket and HTTP entry points of server.js
    that forward to it, and the properties of the specification checked
    against that code.

    Modelling conventions.
    - The two module-level [Map]s of callManager.js are the fields [calls]
      and [permissions] of [World].  [calls] is iterated by the code, so it
      is an association list in insertion order with the semantics of a
      JavaScript [Map] ([map_get], [map_set], [map_delete]); [permissions]
      is only read, written and deleted by key, so it is a [gmap].
    - Call-state objects are mutable and shared by reference: the registry
      maps a key to a reference into the object store [objs], and a handler
      suspended at an [await] keeps the reference it looked up.
    - Everything the module does to the outside world (socket.io emits,
      console output, provider API requests, closing of peer connections)
      is appended, in program order, to [effects]; [setTimeout] calls are
      recorded in [timers].
    - [Date.now()] is the argument [now] of the synchronous block that
      reads it; times are milliseconds since the epoch, in [Z].
    - The replies of the collaborators that are not part of callManager.js
      (the Graph API client, the media bridge) are arguments of the
      handler that awaits them: either a returned value or a thrown error.
    - An [async] handler is a function of the world in which it starts and
      of the replies it awaits: it runs to completion with nothing else in
      between.  [handleBrowserSdpOffer] is given in addition as the two
      blocks on either side of its [await], so that other handlers can be
      run between them.
*)

From stdpp Require Import gmap strings list fin_maps pretty.
From Stdlib Require Import ZArith Lia.

#[local] Set Warnings "-clear-no-such-hyp,-register-all".

Local Open Scope Z_scope.

(** ** Values *)

Inductive Direction := outbound | inbound.

Inductive Status :=
| awaiting_browser_sdp | ringing | accepted | connected
| incoming | accepting | pre_accepted
| rejected | terminated | expired | failed | reset.

#[global] Instance Direction_eq_dec : EqDecision Direction.
Proof. solve_decision. Defined.

#[global] Instance Status_eq_dec : EqDecision Status.
Proof. solve_decision. Defined.

(** The string stored in [state.status]. *)
Definition status_str (s : Status) : string :=
  match s with
  | awaiting_browser_sdp => "awaiting_browser_sdp"
  | ringing => "ringing"
  | accepted => "accepted"
  | connected => "connected"
  | incoming => "incoming"
  | accepting => "accepting"
  | pre_accepted => "pre_accepted"
  | rejected => "rejected"
  | terminated => "terminated"
  | expired => "expired"
  | failed => "failed"
  | reset => "reset"
  end.

(** The statuses after which the state machine of the specification has no
    further edge. *)
Definition terminal (s : Status) : bool :=
  match s with
  | rejected | terminated | expired | failed | reset => true
  | _ => false
  end.

(** A handle on a peer connection of the media bridge. *)
Abbreviation peer := nat (only parsing).

(** A reference to a call-state object: its index in the object store. *)
Abbreviation ref := nat (only parsing).

Record CallState := mkCallState {
  callId : string;
  direction : Direction;
  recipientPhone : string;
  status : Status;
  socketId : option string;
  whatsappSdpOffer : option string;
  whatsappPeer : option peer;
  browserPeer : option peer;
  createdAt : Z
}.

Definition with_status (st : Status) (s : CallState) : CallState :=
  mkCallState (callId s) (direction s) (recipientPhone s) st (socketId s)
    (whatsappSdpOffer s) (whatsappPeer s) (browserPeer s) (createdAt s).

Definition with_callId (id : string) (s : CallState) : CallState :=
  mkCallState id (direction s) (recipientPhone s) (status s) (socketId s)
    (whatsappSdpOffer s) (whatsappPeer s) (browserPeer s) (createdAt s).

Definition with_whatsappPeer (p : option peer) (s : CallState) : CallState :=
  mkCallState (callId s) (direction s) (recipientPhone s) (status s)
    (socketId s) (whatsappSdpOffer s) p (browserPeer s) (createdAt s).

Record Perm := mkPerm { grantedAt : Z; expiresAt : Z }.

(** The values that appear in event payloads.  [JDate ms] stands for
    [new Date(ms).toISOString()]. *)
Inductive jsval :=
| JStr (s : string)
| JNum (n : Z)
| JBool (b : bool)
| JDate (ms : Z)
| JNull.

Definition opt_str (o : option string) : jsval :=
  match o with Some s => JStr s | None => JNull end.

(** A connected socket.io client, as far as the call manager looks at it. *)
Record Socket := mkSocket { sock_id : string }.

(** [io.emit], [socket.emit] and [io.to(id).emit]. *)
Inductive Target :=
| Broadcast
| ToSocket (sid : string)
| ToRoom (sid : string).

Inductive Level := LOG | WARN | ERROR.

(** Calls of the functions of whatsappApi. *)
Inductive ApiCall :=
| initiateOutboundCall (phone sdpOffer : string)
| answerCall (id action sdpAnswer : string)
| terminateCall (id : string)
| rejectCall (id : string).

Inductive Effect :=
| Emit (t : Target) (event : string) (payload : list (string * jsval))
| Console (l : Level) (args : list string)
| Api (c : ApiCall)
| PeerClose (p : peer).

(** An error raised by a collaborator: [err.message] and, for a failed
    HTTP request, [err.response.data] (its rendering) and
    [err.response.data.error.message]. *)
Record ExtError := mkExtError {
  message : string;
  response_data : option string;
  response_error_message : option string
}.

(** What a [throw] carries: an [Error] built by the call manager itself, or
    an error that came out of a collaborator. *)
Inductive exn :=
| Error (msg : string)
| External (e : ExtError).

(** [err.message] *)
Definition exn_message (e : exn) : string :=
  match e with Error m => m | External x => message x end.

Inductive Completion (A : Type) :=
| Returned (a : A)
| Thrown (e : exn).
Arguments Returned {A} a.
Arguments Thrown {A} e.

(** How an awaited call of a collaborator ends: with a value, or with an
    error of the collaborator. *)
Inductive Reply (A : Type) :=
| Ok (a : A)
| Fail (e : ExtError).
Arguments Ok {A} a.
Arguments Fail {A} e.

(** The body of a successful reply to the initiate request:
    [result.calls?.[0]?.id], [result.call_id] and [result.id]. *)
Record InitiateResult := mkInitiateResult {
  res_calls0_id : option string;
  res_call_id : option string;
  res_id : option string
}.

(** [a || b] on an optional string: the empty string is falsy. *)
Definition js_or (a : option string) (b : string) : string :=
  match a with
  | Some s => if decide (s = "") then b else s
  | None => b
  end.

Definition truthy (a : option string) : option string :=
  match a with
  | Some s => if decide (s = "") then None else Some s
  | None => None
  end.

(** ** JavaScript [Map] as an insertion-ordered association list *)

Section JsMap.
Context {V : Type}.

Fixpoint map_get (k : string) (m : list (string * V)) : option V :=
  match m with
  | [] => None
  | (k', v) :: m' => if decide (k' = k) then Some v else map_get k m'
  end.

(** [set] keeps the position of a key that is already present and appends
    a new key at the end. *)
Fixpoint map_set (k : string) (v : V) (m : list (string * V))
  : list (string * V) :=
  match m with
  | [] => [(k, v)]
  | (k', v') :: m' =>
      if decide (k' = k) then (k, v) :: m' else (k', v') :: map_set k v m'
  end.

Fixpoint map_delete (k : string) (m : list (string * V))
  : list (string * V) :=
  match m with
  | [] => []
  | (k', v') :: m' =>
      if decide (k' = k) then map_delete k m' else (k', v') :: map_delete k m'
  end.
End JsMap.

(** ** The state of the module and of its environment *)

Record World := mkWorld {
  objs : list CallState;
  calls : list (string * ref);
  permissions : gmap string Perm;
  timers : list (Z * string);
  effects : list Effect
}.

Definition init : World := mkWorld [] [] ∅ [] [].

Definition set_objs (f : list CallState → list CallState) (w : World) :=
  mkWorld (f (objs w)) (calls w) (permissions w) (timers w) (effects w).
Definition set_calls (f : list (string * ref) → list (string * ref))
  (w : World) :=
  mkWorld (objs w) (f (calls w)) (permissions w) (timers w) (effects w).
Definition set_permissions (f : gmap string Perm → gmap string Perm)
  (w : World) :=
  mkWorld (objs w) (calls w) (f (permissions w)) (timers w) (effects w).
Definition set_timers (f : list (Z * string) → list (Z * string))
  (w : World) :=
  mkWorld (objs w) (calls w) (permissions w) (f (timers w)) (effects w).
Definition eff (e : Effect) (w : World) :=
  mkWorld (objs w) (calls w) (permissions w) (timers w) (effects w ++ [e]).

Definition console (l : Level) (msg : string) : World → World :=
  eff (Console l [msg]).
Definition console2 (l : Level) (msg extra : string) : World → World :=
  eff (Console l [msg; extra]).
Definition emit (t : Target) (ev : string) (p : list (string * jsval))
  : World → World :=
  eff (Emit t ev p).
Definition api (c : ApiCall) : World → World := eff (Api c).

(** [state.f = v] on the object behind [r]. *)
Definition update (r : ref) (f : CallState → CallState) : World → World :=
  set_objs (alter f r).

(** A fresh object: [{ ... }] evaluated to a new reference. *)
Definition alloc (s : CallState) (w : World) : ref * World :=
  (length (objs w), set_objs (λ l, l ++ [s]) w).

(** [calls.get(callId)], together with the object behind the reference. *)
Definition calls_get (id : string) (w : World) : option (ref * CallState) :=
  match map_get id (calls w) with
  | Some r => match objs w !! r with Some s => Some (r, s) | None => None end
  | None => None
  end.

(** [getCallState] *)
Definition getCallState (id : string) (w : World) : option CallState :=
  snd <$> calls_get id w.

(** The sessions of the registry, by key, in iteration order. *)
Definition sessions (w : World) : list (string * CallState) :=
  omap (λ e, match objs w !! e.2 with
             | Some s => Some (e.1, s) | None => None end) (calls w).


(** ** Permission ledger *)

(** The object returned by [getPermissionStatus]:
    [{granted: false}], [{granted: false, expired: true}] or
    [{granted: true, grantedAt, expiresAt, remainingHours}]. *)
Inductive PermStatus :=
| PermNone
| PermExpired
| PermGranted (grantedAt expiresAt remainingHours : Z).

Definition granted (p : PermStatus) : bool :=
  match p with PermGranted _ _ _ => true | _ => false end.

Definition expired_flag (p : PermStatus) : bool :=
  match p with PermExpired => true | _ => false end.

(** [Math.round(x / d)] for an integer [x] and a positive integer [d]:
    round half up. *)
Definition round_div (x d : Z) : Z := (2 * x + d) `div` (2 * d).

Definition PERMISSION_TTL : Z := 72 * 60 * 60 * 1000.

Definition getPermissionStatus (phone : string) (now : Z) (w : World)
  : World * PermStatus :=
  match permissions w !! phone with
  | None => (w, PermNone)
  | Some perm =>
      if expiresAt perm <? now then
        (set_permissions (delete phone) w, PermExpired)
      else
        (w, PermGranted (grantedAt perm) (expiresAt perm)
              (round_div (expiresAt perm - now) 3600000))
  end.

Definition handlePermissionGranted (phone : string) (now : Z) (w : World)
  : World :=
  let grantedAt := now in
  let expiresAt := grantedAt + PERMISSION_TTL in
  let w := set_permissions (<[phone := mkPerm grantedAt expiresAt]>) w in
  let w := console LOG ("[CallManager] Permission granted for " +:+ phone
                        +:+ ", expires in 72 hours") w in
  emit Broadcast "permission-granted"
    [("phone", JStr phone); ("grantedAt", JDate grantedAt);
     ("expiresAt", JDate expiresAt)] w.

(** ** Cleanup and the retention timer *)

Definition RETENTION : Z := 5 * 60 * 1000.

(** [peer.close()] inside [try { } catch { /* ignore */ }]. *)
Definition close_peer (p : option peer) (w : World) : World :=
  match p with Some h => eff (PeerClose h) w | None => w end.

Definition cleanup (id : string) (now : Z) (w : World) : World :=
  match calls_get id w with
  | None => w
  | Some (_, state) =>
      let w := close_peer (whatsappPeer state) w in
      let w := close_peer (browserPeer state) w in
      set_timers (λ t, t ++ [(now + RETENTION, id)]) w
  end.

(** The callback of the timer set by [cleanup]: [calls.delete(callId)]. *)
Definition purge (id : string) (w : World) : World :=
  set_calls (map_delete id) w.

(** The event loop reaching time [now]: every timer that is due fires, in
    the order in which the timers were set. *)
Definition run_timers (now : Z) (w : World) : World :=
  let due := filter (λ t, t.1 ≤ now) (timers w) in
  let w := set_timers (filter (λ t, ¬ t.1 ≤ now)) w in
  foldl (λ w t, purge t.2 w) w due.

(** ** Outbound calls *)

Definition STALE_TIMEOUT : Z := 30 * 1000.

(** The condition of the guard loop of [startOutboundCall]. *)
Definition active_outbound (s : CallState) : bool :=
  bool_decide (direction s = outbound)
  && bool_decide (status s ∈
       [awaiting_browser_sdp; ringing; accepted; connected]).

Definition stale (now : Z) (s : CallState) : bool :=
  bool_decide (status s = awaiting_browser_sdp)
  && (STALE_TIMEOUT <? now - createdAt s).

Definition conflict_msg (id : string) (st : Status) : string :=
  "An outbound call is already in progress (" +:+ id +:+ ", status: "
  +:+ status_str st +:+ ")".

(** The loop [for (const [id, s] of calls)] of [startOutboundCall], over the
    entries still to visit.  The loop does not add or remove entries. *)
Fixpoint expire_or_block (now : Z) (entries : list (string * ref))
  (w : World) : World * Completion unit :=
  match entries with
  | [] => (w, Returned ())
  | (id, r) :: rest =>
      match objs w !! r with
      | None => expire_or_block now rest w
      | Some s =>
          if active_outbound s then
            let age := now - createdAt s in
            if stale now s then
              let w := console LOG
                ("[CallManager] Auto-expiring stale call " +:+ id
                 +:+ " (stuck in " +:+ status_str (status s) +:+ " for "
                 +:+ pretty (round_div age 1000) +:+ "s)") w in
              let w := update r (with_status expired) w in
              let w := cleanup id now w in
              expire_or_block now rest w
            else
              (w, Thrown (Error (conflict_msg id (status s))))
          else expire_or_block now rest w
      end
  end.

(** The object returned by a successful [startOutboundCall]. *)
Record StartResult := mkStartResult {
  sr_callId : string;
  sr_status : Status;
  sr_mode : option string
}.

(** What the bridge-mode path of [startOutboundCall] obtains from its
    collaborators: the peer made by [createPeerConnection], the outcome of
    [createOfferSdp], the outcome of the initiate request, and the clock
    when the reply of the provider is processed. *)
Record OutboundExt := mkOutboundExt {
  ob_peer : peer;
  ob_offer : Reply string;
  ob_reply : Reply InitiateResult;
  ob_time : Z
}.

Definition provisional_id (now : Z) : string := "call_" +:+ pretty now.

Definition startOutboundCallWithServerWebRTC (x : OutboundExt)
  (phone : string) (w : World) : World * Completion StartResult :=
  let whatsappPeer := ob_peer x in
  match ob_offer x with
  | Fail e => (w, Thrown (External e))
  | Ok sdpOffer =>
      let w := api (initiateOutboundCall phone sdpOffer) w in
      match ob_reply x with
      | Fail e => (w, Thrown (External e))
      | Ok result =>
          let now := ob_time x in
          let callId :=
            js_or (res_calls0_id result)
              (js_or (res_call_id result)
                 (js_or (res_id result) (provisional_id now))) in
          let state := mkCallState callId outbound phone ringing None None
                         (Some whatsappPeer) None now in
          let '(r, w) := alloc state w in
          let w := set_calls (map_set callId r) w in
          let w := emit Broadcast "call-ringing"
                     [("callId", JStr callId); ("phone", JStr phone)] w in
          let w := console LOG ("[CallManager] Outbound call " +:+ callId
                                +:+ " initiated to " +:+ phone) w in
          (w, Returned (mkStartResult callId ringing None))
      end
  end.

Definition startOutboundCallBrowserOnly (phone : string)
  (socket : option Socket) (now : Z) (w : World)
  : World * Completion StartResult :=
  let callId := provisional_id now in
  let sid := truthy (sock_id <$> socket) in
  let state := mkCallState callId outbound phone awaiting_browser_sdp sid
                 None None None now in
  let '(r, w) := alloc state w in
  let w := set_calls (map_set callId r) w in
  let w := emit (match socket with
                 | Some s => ToSocket (sock_id s)
                 | None => Broadcast
                 end) "generate-sdp-offer"
             [("callId", JStr callId); ("phone", JStr phone)] w in
  let w := console LOG
    ("[CallManager] Browser-only mode: waiting for browser SDP for call "
     +:+ callId +:+ " (socket: "
     +:+ default "broadcast" sid +:+ ")") w in
  (w, Returned (mkStartResult callId awaiting_browser_sdp
                  (Some "browser-only"))).

Definition msg_perm_expired : string :=
  "Call permission has expired. Send a new permission request.".
Definition msg_no_perm : string :=
  "No call permission for this number. Send a permission request first.".

(** [isAvailable] is [webrtcBridge.isAvailable()]. *)
Definition startOutboundCall (isAvailable : bool) (x : OutboundExt)
  (phone : string) (socket : option Socket) (now : Z) (w : World)
  : World * Completion StartResult :=
  let '(w, permStatus) := getPermissionStatus phone now w in
  if negb (granted permStatus) then
    (w, Thrown (Error (if expired_flag permStatus
                       then msg_perm_expired else msg_no_perm)))
  else
    match expire_or_block now (calls w) w with
    | (w, Thrown e) => (w, Thrown e)
    | (w, Returned _) =>
        if isAvailable then startOutboundCallWithServerWebRTC x phone w
        else startOutboundCallBrowserOnly phone socket now w
    end.

(** [handleBrowserSdpOffer] awaits the provider between its guard and its
    commit.  [handleBrowserSdpOffer_begin] is the block that runs up to the
    [await]: it returns the reference held by the suspended handler, or
    [None] when the handler has returned. *)
Definition handleBrowserSdpOffer_begin (id sdpOffer : string) (w : World)
  : World * option ref :=
  match calls_get id w with
  | None => (console WARN ("[CallManager] No call state for " +:+ id) w, None)
  | Some (r, state) =>
      if bool_decide (status state = ringing)
         || bool_decide (status state = connected) then
        (console WARN ("[CallManager] Call " +:+ id
                       +:+ " already in progress ("
                       +:+ status_str (status state)
                       +:+ "), ignoring duplicate SDP offer") w, None)
      else
        let w := console LOG
                   ("[CallManager] Sending SDP offer to WhatsApp API for "
                    +:+ recipientPhone state +:+ "...") w in
        let w := api (initiateOutboundCall (recipientPhone state) sdpOffer) w
        in (w, Some r)
  end.

(** [err.response?.data?.error?.message || err.message] *)
Definition err_msg (e : ExtError) : string :=
  js_or (response_error_message e) (message e).

(** [err.response?.data || ''] *)
Definition err_data (e : ExtError) : string := js_or (response_data e) "".

(** The block of [handleBrowserSdpOffer] that runs when the provider has
    replied: [state] is the reference read before the [await], [id] the
    argument [callId] of the handler. *)
Definition handleBrowserSdpOffer_resume (id : string) (state : ref)
  (reply : Reply InitiateResult) (now : Z) (w : World) : World :=
  match objs w !! state with
  | None => w
  | Some s =>
      match reply with
      | Ok result =>
          let waCallId :=
            js_or (res_calls0_id result)
              (js_or (res_call_id result) (js_or (res_id result) id)) in
          let w := update state (with_callId waCallId) w in
          let w := update state (with_status ringing) w in
          let w := console LOG ("[CallManager] WhatsApp call ID mapped: "
                                +:+ id +:+ " -> " +:+ waCallId) w in
          let w := if decide (waCallId = id) then w
                   else set_calls (map_set waCallId state)
                          (set_calls (map_delete id) w) in
          let w := emit Broadcast "call-ringing"
                     [("callId", JStr waCallId);
                      ("phone", JStr (recipientPhone s))] w in
          console LOG ("[CallManager] Browser SDP forwarded, call "
                       +:+ waCallId +:+ " ringing") w
      | Fail err =>
          let errMsg := err_msg err in
          let w := console2 ERROR
                     ("[CallManager] WhatsApp API error for call " +:+ id
                      +:+ ": " +:+ errMsg) (err_data err) w in
          let w := update state (with_status failed) w in
          let w := cleanup id now w in
          emit Broadcast "call-error"
            [("callId", JStr id); ("error", JStr errMsg)] w
      end
  end.

(** The handler when nothing else runs while it awaits the provider. *)
Definition handleBrowserSdpOffer (id sdpOffer : string)
  (reply : Reply InitiateResult) (now : Z) (w : World) : World :=
  match handleBrowserSdpOffer_begin id sdpOffer w with
  | (w, Some state) => handleBrowserSdpOffer_resume id state reply now w
  | (w, None) => w
  end.

(** The first entry, in iteration order, whose session satisfies [P]. *)
Fixpoint find_session (P : CallState → bool) (os : list CallState)
  (entries : list (string * ref)) : option (string * ref) :=
  match entries with
  | [] => None
  | (id, r) :: rest =>
      match os !! r with
      | Some s => if P s then Some (id, r) else find_session P os rest
      | None => find_session P os rest
      end
  end.

(** The condition of the fallback loop of [handleOutboundSdpAnswer]. *)
Definition answerable (s : CallState) : bool :=
  bool_decide (direction s = outbound)
  && (bool_decide (status s = ringing) || bool_decide (status s = accepted)).

(** The part of [handleOutboundSdpAnswer] that runs once a session [state]
    has been found.  [setRemote] is the outcome of
    [webrtcBridge.setRemoteAnswer], awaited only for a session that has a
    provider-side peer. *)
Definition answer_applied (state : ref) (id sdpAnswer : string)
  (setRemote : Reply unit) (w : World) : World * Completion unit :=
  let w := console LOG
             ("[CallManager] Received SDP answer for outbound call "
              +:+ id) w in
  let w := update state (with_status connected) w in
  match objs w !! state with
  | None => (w, Returned ())
  | Some s =>
      let target := match truthy (socketId s) with
                    | Some sid => ToRoom sid
                    | None => Broadcast
                    end in
      let finish w :=
        (emit Broadcast "call-connected"
           [("callId", JStr id); ("phone", JStr (recipientPhone s))] w,
         Returned ()) in
      match whatsappPeer s with
      | Some _ =>
          match setRemote with
          | Fail e => (w, Thrown (External e))
          | Ok _ =>
              let w := console LOG
                ("[CallManager] WebRTC connected to WhatsApp for call "
                 +:+ id) w in
              finish (emit target "setup-browser-audio"
                        [("callId", JStr id)] w)
          end
      | None =>
          finish (emit target "sdp-answer-from-whatsapp"
                    [("callId", JStr id); ("sdp", JStr sdpAnswer)] w)
      end
  end.

Definition handleOutboundSdpAnswer (id sdpAnswer : string)
  (setRemote : Reply unit) (w : World) : World * Completion unit :=
  let '(w, state) :=
    match calls_get id w with
    | Some (r, _) => (w, Some r)
    | None =>
        let w := console LOG
          ("[CallManager] Exact callId not found, "
           +:+ "searching active outbound calls...") w in
        match find_session answerable (objs w) (calls w) with
        | Some (k, r) =>
            let w := console LOG
                       ("[CallManager] Found matching outbound call: " +:+ k)
                       w in
            let w := set_calls (map_delete k) w in
            let w := update r (with_callId id) w in
            let w := set_calls (map_set id r) w in
            (w, Some r)
        | None => (w, None)
        end
    end in
  match state with
  | None =>
      (console WARN ("[CallManager] No call state for outbound SDP answer: "
                     +:+ id) w, Returned ())
  | Some r => answer_applied r id sdpAnswer setRemote w
  end.

(** The condition of the fallback loop of [handleOutboundStatus]. *)
Definition status_target (s : CallState) : bool :=
  bool_decide (direction s = outbound)
  && bool_decide (status s ∈ [ringing; accepted; awaiting_browser_sdp]).

(** The part of [handleOutboundStatus] that runs once a session [state]
    has been found: the log line and the [switch (statusValue)]. *)
Definition status_applied (state : ref) (id statusValue : string) (now : Z)
  (w : World) : World :=
  let w := console LOG ("[CallManager] Call " +:+ id +:+ " status: "
                        +:+ statusValue) w in
  let phone := opt_str (recipientPhone <$> objs w !! state) in
  if decide (statusValue = "ringing") then
    let w := update state (with_status ringing) w in
    emit Broadcast "call-ringing" [("callId", JStr id); ("phone", phone)] w
  else if decide (statusValue = "accepted") then
    let w := update state (with_status accepted) w in
    emit Broadcast "call-accepted" [("callId", JStr id); ("phone", phone)] w
  else if decide (statusValue = "rejected") then
    let w := update state (with_status rejected) w in
    let w := emit Broadcast "call-rejected"
               [("callId", JStr id); ("phone", phone)] w in
    cleanup id now w
  else
    emit Broadcast "call-status"
      [("callId", JStr id); ("status", JStr statusValue)] w.

Definition handleOutboundStatus (id statusValue : string) (now : Z)
  (w : World) : World :=
  let state :=
    match calls_get id w with
    | Some (r, _) => Some r
    | None => snd <$> find_session status_target (objs w) (calls w)
    end in
  match state with
  | None =>
      console WARN ("[CallManager] No call state for status: " +:+ id) w
  | Some r => status_applied r id statusValue now w
  end.

(** ** Inbound calls *)

Definition handleInboundCall (id from : string) (sdpOffer : option string)
  (now : Z) (w : World) : World :=
  let w := console LOG ("[CallManager] Inbound call " +:+ id +:+ " from "
                        +:+ from) w in
  let state := mkCallState id inbound from incoming None sdpOffer None None
                 now in
  let '(r, w) := alloc state w in
  let w := set_calls (map_set id r) w in
  emit Broadcast "call-incoming"
    [("callId", JStr id); ("from", JStr from); ("timestamp", JDate now)] w.

(** What the bridge-mode path of [acceptInboundCall] obtains from its
    collaborators: the peer made by [createPeerConnection], the outcome of
    [createAnswerSdp], the function [filterSdpForWhatsApp], and the outcomes
    of the two answer requests. *)
Record AcceptExt := mkAcceptExt {
  ac_peer : peer;
  ac_answer : Reply string;
  ac_filter : string → string;
  ac_pre_accept : Reply unit;
  ac_accept : Reply unit
}.

Definition msg_no_inbound_accept : string := "No inbound call to accept".
Definition msg_no_inbound_reject : string := "No inbound call to reject".
Definition msg_no_active : string := "No active call".

Definition acceptInboundCall (isAvailable : bool) (x : AcceptExt)
  (id : string) (socket : option Socket) (w : World)
  : World * Completion unit :=
  match calls_get id w with
  | None => (w, Thrown (Error msg_no_inbound_accept))
  | Some (r, state) =>
      if negb (bool_decide (direction state = inbound)) then
        (w, Thrown (Error msg_no_inbound_accept))
      else
        let w := update r (with_status accepting) w in
        let target := match socket with
                      | Some s => ToSocket (sock_id s)
                      | None => Broadcast
                      end in
        if isAvailable then
          let w := update r (with_whatsappPeer (Some (ac_peer x))) w in
          match ac_answer x with
          | Fail e => (w, Thrown (External e))
          | Ok sdpAnswer =>
              let sdpAnswer := ac_filter x sdpAnswer in
              let w := api (answerCall id "pre_accept" sdpAnswer) w in
              match ac_pre_accept x with
              | Fail e => (w, Thrown (External e))
              | Ok _ =>
                  let w := update r (with_status pre_accepted) w in
                  let w := api (answerCall id "accept" sdpAnswer) w in
                  match ac_accept x with
                  | Fail e => (w, Thrown (External e))
                  | Ok _ =>
                      let w := update r (with_status connected) w in
                      let w := emit target "setup-browser-audio"
                                 [("callId", JStr id)] w in
                      (emit Broadcast "call-connected"
                         [("callId", JStr id);
                          ("phone", JStr (recipientPhone state))] w,
                       Returned ())
                  end
              end
          end
        else
          (emit target "inbound-sdp-offer"
             [("callId", JStr id);
              ("sdp", opt_str (whatsappSdpOffer state))] w,
           Returned ())
  end.

(** What [handleBrowserSdpAnswer] obtains from its collaborators. *)
Record AnswerExt := mkAnswerExt {
  an_filter : string → string;
  an_pre_accept : Reply unit;
  an_accept : Reply unit;
  an_setRemote : Reply unit
}.

Definition handleBrowserSdpAnswer (isAvailable : bool) (x : AnswerExt)
  (id sdpAnswer : string) (w : World) : World * Completion unit :=
  match calls_get id w with
  | None => (w, Returned ())
  | Some (r, state) =>
      if bool_decide (direction state = inbound) && negb isAvailable then
        let filteredSdp := an_filter x sdpAnswer in
        let w := api (answerCall id "pre_accept" filteredSdp) w in
        match an_pre_accept x with
        | Fail e => (w, Thrown (External e))
        | Ok _ =>
            let w := update r (with_status pre_accepted) w in
            let w := console LOG ("[CallManager] Inbound call " +:+ id
                                  +:+ " pre_accepted") w in
            let w := api (answerCall id "accept" filteredSdp) w in
            match an_accept x with
            | Fail e => (w, Thrown (External e))
            | Ok _ =>
                let w := update r (with_status connected) w in
                let w := console LOG ("[CallManager] Inbound call " +:+ id
                                      +:+ " accepted and connected") w in
                (emit Broadcast "call-connected"
                   [("callId", JStr id);
                    ("phone", JStr (recipientPhone state))] w,
                 Returned ())
            end
        end
      else
        match whatsappPeer state, browserPeer state with
        | Some _, Some _ =>
            match an_setRemote x with
            | Fail e => (w, Thrown (External e))
            | Ok _ => (w, Returned ())
            end
        | _, _ => (w, Returned ())
        end
  end.

(** ** Ending calls *)

Definition handleTerminate (id : string) (now : Z) (w : World) : World :=
  match calls_get id w with
  | None =>
      console LOG ("[CallManager] Terminate for unknown call " +:+ id) w
  | Some (r, state) =>
      let w := console LOG ("[CallManager] Call " +:+ id +:+ " terminated")
                 w in
      let w := update r (with_status terminated) w in
      let w := emit Broadcast "call-ended"
                 [("callId", JStr id);
                  ("phone", JStr (recipientPhone state))] w in
      cleanup id now w
  end.

(** whatsappApi.js exports no [rejectCall]: the call
    [whatsappApi.rejectCall(callId)] raises a [TypeError] before any request
    is made. *)
Definition whatsappApi_rejectCall : Reply unit :=
  Fail (mkExtError "whatsappApi.rejectCall is not a function" None None).

(** [provider] is the outcome of [whatsappApi.rejectCall(callId)] inside the
    [try]; [whatsappApi_rejectCall] is the one this repository produces. *)
Definition rejectInboundCall (provider : Reply unit) (id : string)
  (now : Z) (w : World) : World * Completion unit :=
  match calls_get id w with
  | None => (w, Thrown (Error msg_no_inbound_reject))
  | Some (r, state) =>
      if negb (bool_decide (direction state = inbound)) then
        (w, Thrown (Error msg_no_inbound_reject))
      else
        let w := api (rejectCall id) w in
        let w := match provider with
                 | Ok _ => w
                 | Fail e =>
                     console WARN ("[CallManager] Error rejecting call: "
                                   +:+ message e) w
                 end in
        let w := update r (with_status rejected) w in
        let w := emit Broadcast "call-ended"
                   [("callId", JStr id);
                    ("phone", JStr (recipientPhone state))] w in
        (cleanup id now w, Returned ())
  end.

(** [provider] is the outcome of [whatsappApi.terminateCall(callId)] inside
    the [try]. *)
Definition endCall (provider : Reply unit) (id : string) (now : Z)
  (w : World) : World * Completion unit :=
  match calls_get id w with
  | None => (w, Thrown (Error msg_no_active))
  | Some (r, state) =>
      let w := api (terminateCall id) w in
      let w := match provider with
               | Ok _ => w
               | Fail e =>
                   console WARN ("[CallManager] Error terminating call: "
                                 +:+ message e) w
               end in
      let w := update r (with_status terminated) w in
      let w := emit Broadcast "call-ended" [("callId", JStr id)] w in
      (cleanup id now w, Returned ())
  end.

(** The condition of the loop of [resetCalls]. *)
Definition stuck (s : CallState) : bool :=
  bool_decide (status s ∈ [awaiting_browser_sdp; ringing; accepted; incoming]).

(** The loop of [resetCalls] over the entries still to visit, with the
    running [count]. *)
Fixpoint reset_loop (now : Z) (entries : list (string * ref)) (count : Z)
  (w : World) : World * Z :=
  match entries with
  | [] => (w, count)
  | (id, r) :: rest =>
      match objs w !! r with
      | None => reset_loop now rest count w
      | Some s =>
          if stuck s then
            let w := update r (with_status reset) w in
            let w := cleanup id now w in
            reset_loop now rest (count + 1) w
          else reset_loop now rest count w
      end
  end.

(** [io] tells whether the argument [io] was passed. *)
Definition resetCalls (io : bool) (now : Z) (w : World) : World * Z :=
  let '(w, count) := reset_loop now (calls w) 0 w in
  let w := if io then emit Broadcast "calls-reset" [("count", JNum count)] w
           else w in
  let w := console LOG ("[CallManager] Reset " +:+ pretty count
                        +:+ " stuck call(s)") w in
  (w, count).

(** ** The entry points of server.js that end, accept and reject calls *)

(** [err.response?.data || err.message] *)
Definition err_data_or_message (e : exn) : string :=
  match e with
  | Error m => m
  | External x => js_or (response_data x) (message x)
  end.

Record HttpResponse := mkHttpResponse {
  http_status : Z;
  http_body : list (string * jsval)
}.

(** [socket.on('end-call', ...)] *)
Definition socket_end_call (socket : Socket) (provider : Reply unit)
  (id : string) (now : Z) (w : World) : World :=
  match endCall provider id now w with
  | (w, Returned _) => w
  | (w, Thrown err) =>
      let w := console2 ERROR "[Socket.IO] end-call error:"
                 (exn_message err) w in
      emit (ToSocket (sock_id socket)) "error"
        [("message", JStr (exn_message err))] w
  end.

(** [app.post('/api/end-call', ...)]; [callId] is [req.body.callId]. *)
Definition api_end_call (provider : Reply unit)
  (callId : option string) (now : Z) (w : World) : World * HttpResponse :=
  match truthy callId with
  | None => (w, mkHttpResponse 400 [("error", JStr "callId is required")])
  | Some id =>
      match endCall provider id now w with
      | (w, Returned _) => (w, mkHttpResponse 200 [("success", JBool true)])
      | (w, Thrown err) =>
          let w := console2 ERROR "[API] End call error:"
                     (err_data_or_message err) w in
          (w, mkHttpResponse 500
                [("success", JBool false);
                 ("error", JStr (err_data_or_message err))])
      end
  end.

(** [socket.on('accept-call', ...)] *)
Definition socket_accept_call (isAvailable : bool) (x : AcceptExt)
  (socket : Socket) (id : string) (w : World) : World :=
  match acceptInboundCall isAvailable x id (Some socket) w with
  | (w, Returned _) => w
  | (w, Thrown err) =>
      let w := console2 ERROR "[Socket.IO] accept-call error:"
                 (exn_message err) w in
      emit (ToSocket (sock_id socket)) "error"
        [("message", JStr (exn_message err))] w
  end.

(** [socket.on('reject-call', ...)] *)
Definition socket_reject_call (socket : Socket) (provider : Reply unit)
  (id : string) (now : Z) (w : World) : World :=
  match rejectInboundCall provider id now w with
  | (w, Returned _) => w
  | (w, Thrown err) =>
      let w := console2 ERROR "[Socket.IO] reject-call error:"
                 (exn_message err) w in
      emit (ToSocket (sock_id socket)) "error"
        [("message", JStr (exn_message err))] w
  end.

(** ** Further entry points of server.js *)

(** The response of [app.post('/api/initiate-call', ...)]:
    400 [{error}], 200 [{success: true, data}] or
    500 [{success: false, error}]. *)
Inductive InitiateResponse :=
| InitiateBadRequest (error : string)
| InitiateOk (data : StartResult)
| InitiateFailed (error : string).

(** [app.post('/api/initiate-call', ...)]; [phone] is [req.body.phone] and
    [sockets] is what [io.fetchSockets()] returns. *)
Definition api_initiate_call (isAvailable : bool) (x : OutboundExt)
  (phone : option string) (sockets : list Socket) (now : Z) (w : World)
  : World * InitiateResponse :=
  match truthy phone with
  | None => (w, InitiateBadRequest "phone is required")
  | Some phone =>
      let socket := head sockets in
      match startOutboundCall isAvailable x phone socket now w with
      | (w, Returned result) => (w, InitiateOk result)
      | (w, Thrown err) =>
          let w := console2 ERROR "[API] Initiate call error:"
                     (err_data_or_message err) w in
          (w, InitiateFailed (err_data_or_message err))
      end
  end.

(** [app.post('/api/accept-call', ...)]: the handler is called without a
    socket. *)
Definition api_accept_call (isAvailable : bool) (x : AcceptExt)
  (callId : option string) (w : World) : World * HttpResponse :=
  match truthy callId with
  | None => (w, mkHttpResponse 400 [("error", JStr "callId is required")])
  | Some id =>
      match acceptInboundCall isAvailable x id None w with
      | (w, Returned _) => (w, mkHttpResponse 200 [("success", JBool true)])
      | (w, Thrown err) =>
          let w := console2 ERROR "[API] Accept call error:"
                     (err_data_or_message err) w in
          (w, mkHttpResponse 500
                [("success", JBool false);
                 ("error", JStr (err_data_or_message err))])
      end
  end.

(** [app.post('/api/reject-call', ...)] *)
Definition api_reject_call (provider : Reply unit) (callId : option string)
  (now : Z) (w : World) : World * HttpResponse :=
  match truthy callId with
  | None => (w, mkHttpResponse 400 [("error", JStr "callId is required")])
  | Some id =>
      match rejectInboundCall provider id now w with
      | (w, Returned _) => (w, mkHttpResponse 200 [("success", JBool true)])
      | (w, Thrown err) =>
          let w := console2 ERROR "[API] Reject call error:"
                     (err_data_or_message err) w in
          (w, mkHttpResponse 500
                [("success", JBool false);
                 ("error", JStr (err_data_or_message err))])
      end
  end.

(** [app.post('/api/reset-calls', ...)] *)
Definition api_reset_calls (now : Z) (w : World) : World * HttpResponse :=
  let '(w, count) := resetCalls true now w in
  (w, mkHttpResponse 200 [("success", JBool true); ("reset", JNum count)]).

(** ** The requests of whatsappApi.js *)

(** The bodies posted to the Graph API. *)
Inductive json :=
| JsonStr (s : string)
| JsonObj (fields : list (string * json))
| JsonArr (items : list json).

(** [api.post(url, body)] *)
Record Request := mkRequest { req_url : string; req_body : json }.

Section WhatsappApi.
(** [config.PHONE_NUMBER_ID] *)
Variable PHONE_NUMBER_ID : string.

Definition enableCalling_request : Request :=
  mkRequest ("/" +:+ PHONE_NUMBER_ID +:+ "/settings")
    (JsonObj [("calling", JsonObj [("status", JsonStr "ENABLED")])]).

Definition disableCalling_request : Request :=
  mkRequest ("/" +:+ PHONE_NUMBER_ID +:+ "/settings")
    (JsonObj [("calling", JsonObj [("status", JsonStr "DISABLED")])]).

(** [templateName] is [None] when the argument is [undefined]. *)
Definition sendCallPermissionRequest_request (recipientPhone : string)
  (templateName : option string) : Request :=
  mkRequest ("/" +:+ PHONE_NUMBER_ID +:+ "/messages")
    (JsonObj
       [("messaging_product", JsonStr "whatsapp");
        ("to", JsonStr recipientPhone);
        ("type", JsonStr "template");
        ("template",
         JsonObj [("name", JsonStr (default "call_permission" templateName));
                  ("language", JsonObj [("code", JsonStr "en_US")]);
                  ("components", JsonArr [])])]).

Definition initiateOutboundCall_request (recipientPhone sdpOffer : string)
  : Request :=
  mkRequest ("/" +:+ PHONE_NUMBER_ID +:+ "/calls")
    (JsonObj
       [("messaging_product", JsonStr "whatsapp");
        ("to", JsonStr recipientPhone);
        ("action", JsonStr "connect");
        ("session", JsonObj [("sdp", JsonStr sdpOffer);
                             ("sdp_type", JsonStr "offer")])]).

(** [sdpAnswer] is [None] when the argument is omitted or [null]. *)
Definition answerCall_request (callId action : string)
  (sdpAnswer : option string) : Request :=
  let body := [("messaging_product", JsonStr "whatsapp");
               ("call_id", JsonStr callId);
               ("action", JsonStr action)] in
  let body :=
    match truthy sdpAnswer with
    | Some sdp =>
        if decide (action = "accept") then
          body ++ [("session", JsonObj [("sdp", JsonStr sdp);
                                        ("sdp_type", JsonStr "answer")])]
        else body
    | None => body
    end in
  mkRequest ("/" +:+ PHONE_NUMBER_ID +:+ "/calls") (JsonObj body).

Definition terminateCall_request (callId : string) : Request :=
  mkRequest ("/" +:+ PHONE_NUMBER_ID +:+ "/calls")
    (JsonObj
       [("messaging_product", JsonStr "whatsapp");
        ("call_id", JsonStr callId);
        ("action", JsonStr "terminate")]).

Definition sendTextMessage_request (recipientPhone text : string) : Request :=
  mkRequest ("/" +:+ PHONE_NUMBER_ID +:+ "/messages")
    (JsonObj
       [("messaging_product", JsonStr "whatsapp");
        ("to", JsonStr recipientPhone);
        ("type", JsonStr "text");
        ("text", JsonObj [("body", JsonStr text)])]).

(** The request behind a call that the call manager makes on whatsappApi;
    none for [rejectCall], which the module does not export. *)
Definition request_of (c : ApiCall) : option Request :=
  match c with
  | initiateOutboundCall phone sdpOffer =>
      Some (initiateOutboundCall_request phone sdpOffer)
  | answerCall id action sdpAnswer =>
      Some (answerCall_request id action (Some sdpAnswer))
  | terminateCall id => Some (terminateCall_request id)
  | rejectCall _ => None
  end.
End WhatsappApi.

(** The field [k] of a JSON object. *)
Definition json_field (k : string) (j : json) : option json :=
  match j with
  | JsonObj fields => map_get k fields
  | _ => None
  end.

(** ** Vocabulary of the further properties *)

(** The fields of a session that no handler writes. *)
Definition same_identity (s s' : CallState) : Prop :=
  direction s' = direction s ∧ recipientPhone s' = recipientPhone s
  ∧ createdAt s' = createdAt s ∧ socketId s' = socketId s
  ∧ whatsappSdpOffer s' = whatsappSdpOffer s
  ∧ browserPeer s' = browserPeer s.

(** [os'] holds every object of [os], at the same reference and with the
    same identity. *)
Definition store_extends (os os' : list CallState) : Prop :=
  ∀ r s, os !! r = Some s → ∃ s', os' !! r = Some s' ∧ same_identity s s'.

(** The provider calls among a list of effects, in order. *)
Definition api_calls (es : list Effect) : list ApiCall :=
  omap (λ e, match e with Api c => Some c | _ => None end) es.

(** The socket.io events among a list of effects, in order. *)
Definition emits (es : list Effect)
  : list (Target * string * list (string * jsval)) :=
  omap (λ e, match e with Emit t ev p => Some (t, ev, p) | _ => None end) es.

(** * Vocabulary of the properties *)

(** ** Predicates on sessions and worlds *)

(** An outbound session that makes the guard of [startOutboundCall] throw:
    ringing, accepted, connected, or awaiting_browser_sdp for at most
    [STALE_TIMEOUT]. *)
Definition blocking (now : Z) (s : CallState) : Prop :=
  direction s = outbound
  ∧ (status s = ringing ∨ status s = accepted ∨ status s = connected
     ∨ (status s = awaiting_browser_sdp ∧ now - createdAt s ≤ STALE_TIMEOUT)).

(** An outbound session that the guard expires. *)
Definition reclaimable (now : Z) (s : CallState) : Prop :=
  direction s = outbound ∧ status s = awaiting_browser_sdp
  ∧ STALE_TIMEOUT < now - createdAt s.

(** What a successful creation leaves behind: the new object is the last
    one of the store and is registered under the returned id. *)
Definition created (w w' : World) (out : StartResult) : Prop :=
  ∃ s, objs w' = objs w ++ [s]
    ∧ calls w' = map_set (sr_callId out) (length (objs w)) (calls w)
    ∧ timers w' = timers w
    ∧ (∀ e, e ∈ effects w → e ∈ effects w')
    ∧ callId s = sr_callId out ∧ direction s = outbound
    ∧ status s = sr_status out ∧ active_outbound s = true.

(** The call state, the ledger and the timers are the same in both worlds;
    only the effects may differ. *)
Definition same_state (w w' : World) : Prop :=
  objs w' = objs w ∧ calls w' = calls w
  ∧ permissions w' = permissions w ∧ timers w' = timers w.

(** The number of entries of [l] whose session is stuck. *)
Definition stuck_in (os : list CallState) (l : list (string * nat)) : nat :=
  length (filter (λ e, from_option stuck false (os !! e.2) = true) l).

(** The status a status event writes, if any. *)
Definition written_status (statusValue : string) : option Status :=
  if decide (statusValue = "ringing") then Some ringing
  else if decide (statusValue = "accepted") then Some accepted
  else if decide (statusValue = "rejected") then Some rejected
  else None.

(** What the [catch] of [endCall] and [rejectInboundCall] prints. *)
Definition caught (prefix : string) (provider : Reply unit)
  : list Effect :=
  match provider with
  | Ok _ => []
  | Fail e => [Console WARN [prefix +:+ message e]]
  end.

(** What [cleanup] does to the peers of a session. *)
Definition peer_closes (s : CallState) : list Effect :=
  (PeerClose <$> option_list (whatsappPeer s))
  ++ (PeerClose <$> option_list (browserPeer s)).

(** Where [acceptInboundCall] sends its requests to the browser. *)
Definition accept_target (socket : option Socket) : Target :=
  match socket with Some s => ToSocket (sock_id s) | None => Broadcast end.

(** An object store and a registry are consistent when the registry is a
    map (no key twice), no session is entered under two keys, and every
    entry leads to a session whose [callId] is the key of the entry. *)
Definition consistent_of (os : list CallState) (cs : list (string * nat))
  : Prop :=
  NoDup cs.*1 ∧ NoDup cs.*2
  ∧ ∀ k r, (k, r) ∈ cs → ∃ s, os !! r = Some s ∧ callId s = k.

Definition registry_consistent (w : World) : Prop :=
  consistent_of (objs w) (calls w).

(** ** Example runs of the handlers *)

(** Collaborator outcomes: the bridge is not used in relay mode; a provider
    that fails; a bridge and a provider that succeed. *)
Definition relay_ext : OutboundExt :=
  mkOutboundExt 0%nat (Ok "") (Ok (mkInitiateResult None None None)) 0.

Definition provider_down : Reply unit :=
  Fail (mkExtError "Request failed with status code 500"
          (Some "{error}") (Some "Service unavailable")).

Definition bridge_ok : AcceptExt :=
  mkAcceptExt 7%nat (Ok "SDP-ANSWER") (λ sdp, sdp) (Ok ()) (Ok ()).

(** One outbound session waiting for the offer of the browser, created at
    time 2000: grant, initiate in relay mode. *)
Definition awaiting_world : World :=
  let phone := "+15551234567" in
  let w := handlePermissionGranted phone 1000 init in
  (startOutboundCall false relay_ext phone (Some (mkSocket "sock1")) 2000 w).1.

(** One connected outbound call: grant, initiate in relay mode, local
    offer, remote answer. *)
Definition connected_world : World :=
  let w := handleBrowserSdpOffer "call_2000" "SDP-O"
             (Ok (mkInitiateResult (Some "wacid.A") None None)) 2500
             awaiting_world in
  (handleOutboundSdpAnswer "wacid.A" "SDP-A" (Ok ()) w).1.

(** Two stuck sessions: an outbound call that is ringing and an inbound
    call that is incoming. *)
Definition two_stuck_world : World :=
  let w := handleBrowserSdpOffer "call_2000" "SDP-O"
             (Ok (mkInitiateResult (Some "wacid.A") None None)) 2500
             awaiting_world in
  handleInboundCall "WA1" "+15557654321" (Some "SDP-I") 3000 w.

(** One inbound call that is incoming. *)
Definition inbound_world : World :=
  handleInboundCall "WA1" "+15557654321" (Some "SDP-I") 3000 init.


(** Two outbound sessions alive: a first call is started, rings and is
    ended; a second call is started; then a late ringing status arrives for
    the first call. *)
Definition two_live_outbound : World :=
  let phone := "+15551234567" in
  let w := handleBrowserSdpOffer "call_2000" "SDP-O"
             (Ok (mkInitiateResult (Some "wacid.A") None None)) 2500
             awaiting_world in
  let w := (endCall (Ok ()) "wacid.A" 3000 w).1 in
  let w := (startOutboundCall false relay_ext phone (Some (mkSocket "sock1"))
              4000 w).1 in
  handleOutboundStatus "wacid.A" "ringing" 4500 w.

(** The same local offer delivered twice, the second time while the first
    is still waiting for the provider; the provider then answers the two
    initiate requests with two call ids. *)
Definition duplicate_offer_in_flight : World :=
  let w := awaiting_world in
  let '(w, first) := handleBrowserSdpOffer_begin "call_2000" "SDP-O" w in
  let '(w, second) := handleBrowserSdpOffer_begin "call_2000" "SDP-O" w in
  let w := match first with
           | Some state =>
               handleBrowserSdpOffer_resume "call_2000" state
                 (Ok (mkInitiateResult (Some "wacid.A") None None)) 2600 w
           | None => w
           end in
  match second with
  | Some state =>
      handleBrowserSdpOffer_resume "call_2000" state
        (Ok (mkInitiateResult (Some "wacid.B") None None)) 2700 w
  | None => w
  end.

(** A session that went stale, was expired by a second request, and whose
    local offer arrived after that: the late offer makes it ring and moves
    it behind the second session in the registry. *)
Definition stale_before_blocking : World :=
  let phone := "+15551234567" in
  let w := (startOutboundCall false relay_ext phone
              (Some (mkSocket "sock1")) 40000 awaiting_world).1 in
  handleBrowserSdpOffer "call_2000" "SDP-O"
    (Ok (mkInitiateResult (Some "wacid.A") None None)) 41000 w.

(** ** Runs without interleaving *)

(** One handler run to completion, or the timers that are due. *)
Inductive atomic_step : World → World → Prop :=
| step_grant phone now w :
    atomic_step w (handlePermissionGranted phone now w)
| step_permission_status phone now w :
    atomic_step w (getPermissionStatus phone now w).1
| step_start isAvailable x phone socket now w :
    atomic_step w (startOutboundCall isAvailable x phone socket now w).1
| step_offer id sdpOffer reply now w :
    atomic_step w (handleBrowserSdpOffer id sdpOffer reply now w)
| step_answer id sdpAnswer setRemote w :
    atomic_step w (handleOutboundSdpAnswer id sdpAnswer setRemote w).1
| step_status id statusValue now w :
    atomic_step w (handleOutboundStatus id statusValue now w)
| step_inbound id from sdpOffer now w :
    atomic_step w (handleInboundCall id from sdpOffer now w)
| step_accept isAvailable x id socket w :
    atomic_step w (acceptInboundCall isAvailable x id socket w).1
| step_browser_answer isAvailable x id sdpAnswer w :
    atomic_step w (handleBrowserSdpAnswer isAvailable x id sdpAnswer w).1
| step_terminate id now w :
    atomic_step w (handleTerminate id now w)
| step_reject provider id now w :
    atomic_step w (rejectInboundCall provider id now w).1
| step_end provider id now w :
    atomic_step w (endCall provider id now w).1
| step_reset io now w :
    atomic_step w (resetCalls io now w).1
| step_timers now w :
    atomic_step w (run_timers now w).

(** * Properties *)

(** ** The registry as a [Map] *)

Section JsMapFacts.
Context {V : Type}.
Implicit Types (m : list (string * V)) (k : string) (v : V).

Lemma map_get_set_eq m k v : map_get k (map_set k v m) = Some v.
Proof.
  induction m as [|[k' v'] m IH]; simpl.
  - by rewrite decide_True.
  - destruct (decide (k' = k)) as [->|Hne]; simpl.
    + by rewrite decide_True.
    + by rewrite decide_False.
Qed.

Lemma map_get_set_ne m k k' v :
  k ≠ k' → map_get k' (map_set k v m) = map_get k' m.
Proof.
  intros Hne. induction m as [|[k0 v0] m IH]; simpl.
  - by rewrite decide_False.
  - destruct (decide (k0 = k)) as [->|Hk]; simpl.
    + by rewrite !decide_False.
    + by rewrite IH.
Qed.

Lemma map_get_delete_eq m k : map_get k (map_delete k m) = None.
Proof.
  induction m as [|[k0 v0] m IH]; simpl; [done|].
  destruct (decide (k0 = k)) as [->|Hk]; simpl; [done|].
  by rewrite decide_False.
Qed.

Lemma map_get_delete_ne m k k' :
  k ≠ k' → map_get k' (map_delete k m) = map_get k' m.
Proof.
  intros Hne. induction m as [|[k0 v0] m IH]; simpl; [done|].
  destruct (decide (k0 = k)) as [->|Hk]; simpl.
  - by rewrite decide_False.
  - by rewrite IH.
Qed.

Lemma map_get_None m k : map_get k m = None ↔ k ∉ m.*1.
Proof.
  induction m as [|[k0 v0] m IH]; simpl.
  - split; [intros _; apply not_elem_of_nil | done].
  - rewrite not_elem_of_cons. destruct (decide (k0 = k)) as [->|Hk].
    + split; [done | intros [? _]; done].
    + rewrite IH. naive_solver.
Qed.

Lemma map_get_Some_elem m k v : map_get k m = Some v → (k, v) ∈ m.
Proof.
  induction m as [|[k0 v0] m IH]; simpl; [done|].
  destruct (decide (k0 = k)) as [->|Hk].
  - intros [= ->]. left.
  - intros H. right. by apply IH.
Qed.

Lemma map_get_elem m k v : NoDup m.*1 → (k, v) ∈ m → map_get k m = Some v.
Proof.
  induction m as [|[k0 v0] m IH]; simpl.
  - intros _ H. by apply elem_of_nil in H.
  - rewrite NoDup_cons. intros [Hk0 Hnd] [[= -> ->]|Hin]%elem_of_cons.
    + by rewrite decide_True.
    + rewrite decide_False; [by apply IH|].
      intros ->. apply Hk0. apply list_elem_of_fmap. by exists (k, v).
Qed.

Lemma map_delete_keys m k k' : k' ∈ (map_delete k m).*1 ↔ k' ≠ k ∧ k' ∈ m.*1.
Proof.
  induction m as [|[k0 v0] m IH]; simpl.
  - rewrite elem_of_nil. naive_solver.
  - destruct (decide (k0 = k)) as [->|Hk]; simpl.
    + rewrite IH, elem_of_cons. naive_solver.
    + rewrite !elem_of_cons, IH. naive_solver.
Qed.

Lemma map_delete_elem m k e : e ∈ map_delete k m ↔ e.1 ≠ k ∧ e ∈ m.
Proof.
  induction m as [|[k0 v0] m IH]; simpl.
  - rewrite elem_of_nil. naive_solver.
  - destruct (decide (k0 = k)) as [->|Hk]; simpl.
    + rewrite IH, elem_of_cons. destruct e; naive_solver.
    + rewrite !elem_of_cons, IH. destruct e; naive_solver.
Qed.

Lemma map_delete_NoDup m k : NoDup m.*1 → NoDup (map_delete k m).*1.
Proof.
  induction m as [|[k0 v0] m IH]; simpl; [done|].
  rewrite NoDup_cons. intros [Hk0 Hnd].
  destruct (decide (k0 = k)) as [->|Hk]; simpl; [by apply IH|].
  apply NoDup_cons. split; [|by apply IH].
  rewrite map_delete_keys. naive_solver.
Qed.

Lemma map_set_keys m k v k' : k' ∈ (map_set k v m).*1 ↔ k' = k ∨ k' ∈ m.*1.
Proof.
  induction m as [|[k0 v0] m IH]; simpl.
  - rewrite list_elem_of_singleton, elem_of_nil. naive_solver.
  - destruct (decide (k0 = k)) as [->|Hk]; simpl.
    + rewrite !elem_of_cons. naive_solver.
    + rewrite !elem_of_cons, IH. naive_solver.
Qed.

Lemma map_set_elem m k v e :
  e ∈ map_set k v m → e = (k, v) ∨ e ∈ m.
Proof.
  induction m as [|[k0 v0] m IH]; simpl.
  - rewrite list_elem_of_singleton. naive_solver.
  - destruct (decide (k0 = k)) as [->|Hk]; simpl.
    + rewrite !elem_of_cons. naive_solver.
    + rewrite !elem_of_cons. naive_solver.
Qed.

Lemma map_set_NoDup m k v : NoDup m.*1 → NoDup (map_set k v m).*1.
Proof.
  induction m as [|[k0 v0] m IH]; simpl.
  - intros _. apply NoDup_singleton.
  - rewrite NoDup_cons. intros [Hk0 Hnd].
    destruct (decide (k0 = k)) as [->|Hk]; simpl.
    + by apply NoDup_cons.
    + apply NoDup_cons. split; [|by apply IH].
      rewrite map_set_keys. naive_solver.
Qed.
End JsMapFacts.

(** ** Permission ledger *)

Lemma handlePermissionGranted_permissions phone T w :
  permissions (handlePermissionGranted phone T w)
  = <[phone := mkPerm T (T + PERMISSION_TTL)]> (permissions w).
Proof. reflexivity. Qed.

Lemma getPermissionStatus_live phone now w p :
  permissions w !! phone = Some p → now ≤ expiresAt p →
  getPermissionStatus phone now w
  = (w, PermGranted (grantedAt p) (expiresAt p)
          (round_div (expiresAt p - now) 3600000)).
Proof.
  intros Hp Hnow. unfold getPermissionStatus. rewrite Hp.
  destruct (Z.ltb_spec (expiresAt p) now); [lia | done].
Qed.

Lemma getPermissionStatus_lapsed phone now w p :
  permissions w !! phone = Some p → expiresAt p < now →
  getPermissionStatus phone now w
  = (set_permissions (delete phone) w, PermExpired).
Proof.
  intros Hp Hnow. unfold getPermissionStatus. rewrite Hp.
  destruct (Z.ltb_spec (expiresAt p) now); [done | lia].
Qed.

(** C3, as the specification states it, fails at the instant T+72h itself:
    a read at exactly [T + PERMISSION_TTL] still answers granted, and leaves
    the ledger entry in place. *)
Lemma permission_read_at_expiry_instant :
  let phone := "+15551234567" in
  let T := 1700000000000 in
  let w1 := handlePermissionGranted phone T init in
  let '(w2, st) := getPermissionStatus phone (T + 72 * 60 * 60 * 1000) w1 in
  granted st = true ∧ expired_flag st = false
  ∧ permissions w2 !! phone = Some (mkPerm T (T + 72 * 60 * 60 * 1000)).
Proof. vm_compute. done. Qed.

(** C3 (amended): after a grant at time [T] the ledger holds the entry
    [T, T+72h]; while it does, every read at a time up to and including
    T+72h answers granted and leaves the ledger as it is, and a read at any
    time after T+72h answers [granted: false, expired: true] and removes the
    entry, so that the next read answers plain [granted: false]. *)
Theorem permission_round_trip (phone : string) (T : Z) (w0 : World) :
  permissions (handlePermissionGranted phone T w0) !! phone
  = Some (mkPerm T (T + PERMISSION_TTL))
  ∧ ∀ (w : World) (now : Z),
      permissions w !! phone = Some (mkPerm T (T + PERMISSION_TTL)) →
      (now ≤ T + PERMISSION_TTL →
         getPermissionStatus phone now w
         = (w, PermGranted T (T + PERMISSION_TTL)
                 (round_div (T + PERMISSION_TTL - now) 3600000)))
      ∧ (T + PERMISSION_TTL < now →
         ∃ w', getPermissionStatus phone now w = (w', PermExpired)
               ∧ permissions w' = delete phone (permissions w)
               ∧ calls w' = calls w ∧ objs w' = objs w
               ∧ ∀ later, getPermissionStatus phone later w' = (w', PermNone)).
Proof.
  split.
  - rewrite handlePermissionGranted_permissions. apply lookup_insert_eq.
  - intros w now Hp. split; intros Hnow.
    + by apply (getPermissionStatus_live phone now w _ Hp).
    + eexists. split; [by apply (getPermissionStatus_lapsed phone now w _ Hp)|].
      repeat split. intros later. unfold getPermissionStatus. simpl.
      by rewrite lookup_delete_eq.
Qed.

Lemma permission_round_trip_witness :
  let phone := "+15551234567" in
  let T := 1700000000000 in
  let w := handlePermissionGranted phone T init in
  getPermissionStatus phone (T + 1000) w
  = (w, PermGranted T (T + PERMISSION_TTL) 72)
  ∧ (∃ w', getPermissionStatus phone (T + PERMISSION_TTL + 1) w
           = (w', PermExpired)
           ∧ permissions w' !! phone = None).
Proof.
  intros phone T w.
  destruct (permission_round_trip phone T init) as [Hgrant Hread].
  split.
  - apply (Hread w (T + 1000) Hgrant). vm_compute. discriminate.
  - destruct (Hread w (T + PERMISSION_TTL + 1) Hgrant) as [_ Hlate].
    destruct Hlate as (w' & Hget & Hperm & _); [vm_compute; reflexivity|].
    exists w'. split; [exact Hget|]. rewrite Hperm. apply lookup_delete_eq.
Defined.

(** ** What the helpers leave alone *)

Lemma cleanup_objs id now w : objs (cleanup id now w) = objs w.
Proof.
  unfold cleanup. destruct (calls_get id w) as [[r s]|]; [|done].
  by destruct (whatsappPeer s), (browserPeer s).
Qed.

Lemma cleanup_calls id now w : calls (cleanup id now w) = calls w.
Proof.
  unfold cleanup. destruct (calls_get id w) as [[r s]|]; [|done].
  by destruct (whatsappPeer s), (browserPeer s).
Qed.

Lemma cleanup_permissions id now w :
  permissions (cleanup id now w) = permissions w.
Proof.
  unfold cleanup. destruct (calls_get id w) as [[r s]|]; [|done].
  by destruct (whatsappPeer s), (browserPeer s).
Qed.

Lemma cleanup_unknown id now w : calls_get id w = None → cleanup id now w = w.
Proof. unfold cleanup. by intros ->. Qed.

(** When the session is registered, [cleanup] closes its peers and sets the
    retention timer. *)
Lemma cleanup_known id now w r s :
  calls_get id w = Some (r, s) →
  timers (cleanup id now w) = timers w ++ [(now + RETENTION, id)]
  ∧ effects (cleanup id now w)
    = effects w ++ (PeerClose <$> option_list (whatsappPeer s))
                ++ (PeerClose <$> option_list (browserPeer s)).
Proof.
  unfold cleanup. intros ->.
  destruct (whatsappPeer s), (browserPeer s); simpl;
    rewrite <- ?app_assoc, ?app_nil_r; done.
Qed.

Lemma cleanup_timers_mono id now w t :
  t ∈ timers w → t ∈ timers (cleanup id now w).
Proof.
  unfold cleanup. destruct (calls_get id w) as [[r s]|]; [|done].
  destruct (whatsappPeer s), (browserPeer s); simpl;
    rewrite elem_of_app; auto.
Qed.

Lemma cleanup_effects_mono id now w e :
  e ∈ effects w → e ∈ effects (cleanup id now w).
Proof.
  unfold cleanup. destruct (calls_get id w) as [[r s]|]; [|done].
  destruct (whatsappPeer s), (browserPeer s); simpl;
    rewrite ?elem_of_app; auto.
Qed.

Lemma calls_get_Some id w r s :
  calls_get id w = Some (r, s) ↔ map_get id (calls w) = Some r ∧ objs w !! r = Some s.
Proof.
  unfold calls_get. destruct (map_get id (calls w)) as [r'|]; [|naive_solver].
  destruct (objs w !! r') as [s'|] eqn:E; naive_solver.
Qed.

Lemma calls_get_update id w r f :
  calls_get id (update r f w)
  = (λ p, (p.1, if decide (p.1 = r) then f p.2 else p.2)) <$> calls_get id w.
Proof.
  unfold calls_get, update. simpl.
  destruct (map_get id (calls w)) as [r'|]; [|done].
  rewrite list_lookup_alter.
  destruct (objs w !! r') eqn:E; repeat case_decide; simplify_eq/=;
    rewrite ?E; simpl; repeat case_decide; done.
Qed.

(** ** [resetCalls] *)

Lemma reset_loop_frame now l c w :
  calls (reset_loop now l c w).1 = calls w
  ∧ permissions (reset_loop now l c w).1 = permissions w
  ∧ length (objs (reset_loop now l c w).1) = length (objs w).
Proof.
  revert c w. induction l as [|[k r] l IH]; intros c w; simpl; [done|].
  destruct (objs w !! r) as [s|]; [|apply IH].
  destruct (stuck s); [|apply IH].
  destruct (IH (c + 1) (cleanup k now (update r (with_status reset) w)))
    as (-> & -> & ->).
  rewrite cleanup_calls, cleanup_permissions, cleanup_objs. simpl.
  by rewrite length_alter.
Qed.

Lemma stuck_reset s : stuck (with_status reset s) = false.
Proof. done. Qed.

Lemma bool_decide_elem_cons_ne (r r0 : nat) (l : list nat) :
  r ≠ r0 → bool_decide (r ∈ r0 :: l) = bool_decide (r ∈ l).
Proof.
  intros Hne. apply bool_decide_ext. rewrite elem_of_cons. naive_solver.
Qed.

Lemma bool_decide_elem_cons_eq (r : nat) (l : list nat) :
  bool_decide (r ∈ r :: l) = true.
Proof. apply bool_decide_eq_true_2. left. Qed.

(** The objects after the loop: a session reached by the loop in one of the
    four stuck statuses is [reset]; every other object is as before. *)
Lemma reset_loop_objs now l c w r s :
  objs w !! r = Some s →
  objs (reset_loop now l c w).1 !! r
  = Some (if bool_decide (r ∈ l.*2) && stuck s
          then with_status reset s else s).
Proof.
  revert c w s. induction l as [|[k r0] l IH]; intros c w s Hs; simpl.
  - done.
  - destruct (objs w !! r0) as [s0|] eqn:Hr0.
    + destruct (stuck s0) eqn:Hst.
      * destruct (decide (r = r0)) as [->|Hne].
        -- assert (s0 = s) as -> by congruence.
           rewrite (IH _ _ (with_status reset s)).
           ++ by rewrite stuck_reset, andb_false_r, Hst,
                bool_decide_elem_cons_eq.
           ++ rewrite cleanup_objs. simpl.
              by rewrite list_lookup_alter_eq, Hs.
        -- rewrite (IH _ _ s).
           ++ by rewrite bool_decide_elem_cons_ne.
           ++ rewrite cleanup_objs. simpl.
              by rewrite list_lookup_alter_ne.
      * rewrite (IH _ _ s Hs). destruct (decide (r = r0)) as [->|Hne].
        -- assert (s0 = s) as -> by congruence. rewrite Hst.
           by rewrite !andb_false_r.
        -- by rewrite bool_decide_elem_cons_ne.
    + rewrite (IH _ _ s Hs). rewrite bool_decide_elem_cons_ne; [done|].
      congruence.
Qed.

Lemma reset_loop_mono now l c w :
  (∀ t, t ∈ timers w → t ∈ timers (reset_loop now l c w).1)
  ∧ (∀ e, e ∈ effects w → e ∈ effects (reset_loop now l c w).1).
Proof.
  revert c w. induction l as [|[k r] l IH]; intros c w; simpl; [done|].
  destruct (objs w !! r) as [s|]; [|apply IH].
  destruct (stuck s); [|apply IH].
  destruct (IH (c + 1) (cleanup k now (update r (with_status reset) w)))
    as [Ht He].
  split; intros x Hx; [apply Ht | apply He].
  - by apply cleanup_timers_mono.
  - by apply cleanup_effects_mono.
Qed.

Lemma stuck_in_ext os os' l :
  (∀ e, e ∈ l → os !! e.2 = os' !! e.2) → stuck_in os l = stuck_in os' l.
Proof.
  unfold stuck_in. induction l as [|e l IH]; intros Hext; [done|].
  rewrite !filter_cons. rewrite <- (Hext e) by left.
  destruct (decide _); simpl; rewrite IH; auto.
  - intros e' He'. apply Hext. by right.
  - intros e' He'. apply Hext. by right.
Qed.

Lemma reset_loop_count now l c w :
  NoDup l.*2 →
  (reset_loop now l c w).2 = c + Z.of_nat (stuck_in (objs w) l).
Proof.
  revert c w. induction l as [|[k r] l IH]; intros c w Hnd.
  - unfold stuck_in. simpl. lia.
  - rewrite fmap_cons in Hnd. apply NoDup_cons in Hnd as [Hr Hnd].
    unfold stuck_in. rewrite filter_cons. simpl.
    destruct (objs w !! r) as [s|] eqn:Hs; simpl.
    + destruct (stuck s) eqn:Hst.
      * rewrite IH by done. rewrite cleanup_objs. simpl.
        rewrite (stuck_in_ext (alter _ r (objs w)) (objs w)).
        -- unfold stuck_in. rewrite ?decide_True by done. simpl. lia.
        -- intros e He. rewrite list_lookup_alter_ne; [done|].
           intros Heq. apply Hr. rewrite Heq.
           by apply (list_elem_of_fmap_2 snd l e).
      * rewrite IH by done. unfold stuck_in.
        by rewrite ?decide_False by done.
    + by rewrite IH.
Qed.

Lemma stuck_in_sessions w :
  stuck_in (objs w) (calls w)
  = length (filter (λ e, stuck e.2 = true) (sessions w)).
Proof.
  unfold stuck_in, sessions. induction (calls w) as [|[k r] l IH]; [done|].
  rewrite filter_cons. simpl.
  destruct (objs w !! r) as [s|]; simpl.
  - rewrite filter_cons. simpl.
    destruct (stuck s); simpl; rewrite ?decide_True, ?decide_False by done;
      simpl; by rewrite IH.
  - apply IH.
Qed.

(** Every stuck session reached by the loop is cleaned up: its retention
    timer is set and its peers are closed. *)
Lemma reset_loop_cleanup now l c w k r s :
  NoDup l.*2 →
  (∀ e, e ∈ l → map_get e.1 (calls w) = Some e.2) →
  (k, r) ∈ l → objs w !! r = Some s → stuck s = true →
  (now + RETENTION, k) ∈ timers (reset_loop now l c w).1
  ∧ (∀ p, whatsappPeer s = Some p ∨ browserPeer s = Some p →
          PeerClose p ∈ effects (reset_loop now l c w).1).
Proof.
  revert c w. induction l as [|[k0 r0] l IH]; intros c w Hnd Hkeys Hin Hs Hst.
  { by apply elem_of_nil in Hin. }
  rewrite fmap_cons in Hnd. apply NoDup_cons in Hnd as [Hr0 Hnd]. simpl.
  apply elem_of_cons in Hin as [[= <- <-]|Hin].
  - rewrite Hs, Hst.
    set (w1 := cleanup k now (update r (with_status reset) w)).
    destruct (reset_loop_mono now l (c + 1) w1) as [Ht He].
    assert (calls_get k (update r (with_status reset) w)
            = Some (r, with_status reset s)) as Hget.
    { apply calls_get_Some. split.
      - apply (Hkeys (k, r)). left.
      - simpl. by rewrite list_lookup_alter_eq, Hs. }
    destruct (cleanup_known k now _ _ _ Hget) as [Htm Hef].
    split.
    + apply Ht. unfold w1. rewrite Htm. apply elem_of_app. right. left.
    + intros p Hp. apply He. unfold w1. rewrite Hef. simpl.
      rewrite !elem_of_app. destruct Hp as [-> | ->]; simpl.
      * right. left. left.
      * right. right. left.
  - assert (r ≠ r0) as Hne.
    { intros ->. apply Hr0. by apply (list_elem_of_fmap_2 snd _ (k, r0)). }
    assert (∀ e, e ∈ l → map_get e.1 (calls w) = Some e.2) as Hkeys'.
    { intros e He. apply Hkeys. by right. }
    destruct (objs w !! r0) as [s0|] eqn:Hs0; [|by apply IH].
    destruct (stuck s0); [|by apply IH].
    apply IH; try done.
    + by rewrite cleanup_calls.
    + rewrite cleanup_objs. simpl. by rewrite list_lookup_alter_ne.
Qed.

(** C7, as the specification states it, fails for a session that is
    connected: it is in a non-terminal status, and the reset operation
    neither counts it nor changes it. *)
Lemma resetCalls_skips_connected :
  let '(w', count) := resetCalls true 9000 connected_world in
  (status <$> getCallState "wacid.A" connected_world) = Some connected
  ∧ terminal connected = false
  ∧ count = 0
  ∧ (status <$> getCallState "wacid.A" w') = Some connected
  ∧ timers w' = [].
Proof. vm_compute. done. Qed.

(** C7 (amended): on a registry in which no session is entered under two
    keys, [resetCalls] sets every session whose status is
    awaiting_browser_sdp, ringing, accepted or incoming to the terminal
    status reset and runs cleanup on it (retention timer set, peers
    closed); it leaves every session in any other status, connected,
    accepting and pre_accepted included, as it is; it returns the number of
    sessions it reset and broadcasts that count.  With exactly two sessions,
    one ringing and one incoming, both end up reset and the count is 2. *)
Theorem resetCalls_spec (io : bool) (now : Z) (w : World) :
  NoDup (calls w).*1 → NoDup (calls w).*2 →
  ∃ w' count,
    resetCalls io now w = (w', count)
    ∧ calls w' = calls w
    ∧ (∀ k r s, (k, r) ∈ calls w → objs w !! r = Some s →
         if stuck s
         then objs w' !! r = Some (with_status reset s)
              ∧ (now + RETENTION, k) ∈ timers w'
              ∧ (∀ p, whatsappPeer s = Some p ∨ browserPeer s = Some p →
                      PeerClose p ∈ effects w')
         else objs w' !! r = Some s)
    ∧ count = Z.of_nat (length (filter (λ e, stuck e.2 = true) (sessions w)))
    ∧ (io = true →
         Emit Broadcast "calls-reset" [("count", JNum count)] ∈ effects w')
    ∧ (∀ k1 r1 s1 k2 r2 s2,
         calls w = [(k1, r1); (k2, r2)] →
         objs w !! r1 = Some s1 → objs w !! r2 = Some s2 →
         status s1 = ringing → status s2 = incoming →
         count = 2
         ∧ (status <$> objs w' !! r1) = Some reset
         ∧ (status <$> objs w' !! r2) = Some reset
         ∧ terminal reset = true).
Proof.
  intros Hkeys Hrefs.
  unfold resetCalls.
  destruct (reset_loop now (calls w) 0 w) as [w1 n] eqn:Hloop.
  pose proof (reset_loop_frame now (calls w) 0 w) as (Hcalls & _ & _).
  pose proof (reset_loop_count now (calls w) 0 w Hrefs) as Hcount.
  rewrite Hloop in Hcalls, Hcount. simpl in Hcalls, Hcount.
  rewrite stuck_in_sessions in Hcount.
  assert (∀ k r s, (k, r) ∈ calls w → objs w !! r = Some s →
            if stuck s
            then objs w1 !! r = Some (with_status reset s)
                 ∧ (now + RETENTION, k) ∈ timers w1
                 ∧ (∀ p, whatsappPeer s = Some p ∨ browserPeer s = Some p →
                         PeerClose p ∈ effects w1)
            else objs w1 !! r = Some s) as Hsess.
  { intros k r s Hin Hs.
    pose proof (reset_loop_objs now (calls w) 0 w r s Hs) as Hobj.
    rewrite Hloop in Hobj. simpl in Hobj.
    rewrite bool_decide_eq_true_2 in Hobj
      by (by apply (list_elem_of_fmap_2 snd _ (k, r))).
    simpl in Hobj. destruct (stuck s) eqn:Hst; [|done].
    split; [done|].
    pose proof (reset_loop_cleanup now (calls w) 0 w k r s Hrefs) as Hcl.
    rewrite Hloop in Hcl. simpl in Hcl. apply Hcl; try done.
    intros [k' r'] He. simpl. by apply map_get_elem. }
  eexists _, n. split; [reflexivity|].
  split; [by destruct io|].
  split.
  { intros k r s Hin Hs. specialize (Hsess k r s Hin Hs).
    destruct (stuck s).
    - destruct Hsess as (Ho & Ht & Hp). split; [by destruct io|].
      split; [by destruct io|].
      intros p Hp'. specialize (Hp p Hp').
      destruct io; simpl; rewrite ?elem_of_app; auto.
    - by destruct io. }
  split; [lia|].
  split.
  { intros ->. simpl. rewrite !elem_of_app. left. right. left. }
  intros k1 r1 s1 k2 r2 s2 Hc Hs1 Hs2 Hst1 Hst2.
  assert (stuck s1 = true) as Hk1 by (unfold stuck; by rewrite Hst1).
  assert (stuck s2 = true) as Hk2 by (unfold stuck; by rewrite Hst2).
  split.
  - rewrite Hcount. unfold sessions. rewrite Hc. simpl.
    rewrite Hs1, Hs2. simpl. rewrite !filter_cons. simpl.
    rewrite Hk1, Hk2. simpl. rewrite ?decide_True by done. done.
  - pose proof (Hsess k1 r1 s1) as H1. pose proof (Hsess k2 r2 s2) as H2.
    rewrite Hk1 in H1. rewrite Hk2 in H2. rewrite Hc in H1, H2.
    destruct H1 as [H1 _]; [left|done|].
    destruct H2 as [H2 _]; [right; left|done|].
    destruct io; simpl; rewrite H1, H2; done.
Qed.

Lemma resetCalls_spec_witness :
  (status <$> getCallState "wacid.A" two_stuck_world) = Some ringing
  ∧ (status <$> getCallState "WA1" two_stuck_world) = Some incoming
  ∧ ∃ w' count,
      resetCalls true 9000 two_stuck_world = (w', count)
      ∧ count = 2
      ∧ (status <$> getCallState "wacid.A" w') = Some reset
      ∧ (status <$> getCallState "WA1" w') = Some reset.
Proof.
  split; [vm_compute; reflexivity|]. split; [vm_compute; reflexivity|].
  destruct (resetCalls_spec true 9000 two_stuck_world)
    as (w' & n & Hr & _ & _ & Hn & _).
  - apply (bool_decide_unpack _). vm_compute. exact I.
  - apply (bool_decide_unpack _). vm_compute. exact I.
  - exists w', n. split; [exact Hr|].
    split; [rewrite Hn; vm_compute; reflexivity|].
    revert Hr. vm_compute. intros [= <- _]. split; reflexivity.
Defined.

(** ** Ending and rejecting a call when the provider fails *)

Lemma endCall_known provider id now w r s :
  calls_get id w = Some (r, s) →
  ∃ w', endCall provider id now w = (w', Returned ())
    ∧ objs w' = alter (with_status terminated) r (objs w)
    ∧ calls w' = calls w
    ∧ permissions w' = permissions w
    ∧ timers w' = timers w ++ [(now + RETENTION, id)]
    ∧ effects w'
      = effects w ++ [Api (terminateCall id)]
        ++ caught "[CallManager] Error terminating call: " provider
        ++ [Emit Broadcast "call-ended" [("callId", JStr id)]]
        ++ peer_closes s.
Proof.
  intros Hget. unfold endCall. rewrite Hget.
  eexists. split; [reflexivity|].
  set (w1 := emit _ _ _ _).
  assert (calls_get id w1 = Some (r, with_status terminated s)) as Hget1.
  { apply calls_get_Some in Hget as [Hk Hs]. apply calls_get_Some.
    split; [by destruct provider|].
    destruct provider; simpl; by rewrite list_lookup_alter_eq, Hs. }
  destruct (cleanup_known id now w1 _ _ Hget1) as [Ht He].
  rewrite cleanup_objs, cleanup_calls, cleanup_permissions, Ht, He.
  unfold peer_closes. destruct provider; simpl;
    rewrite <- ?app_assoc; simpl; done.
Qed.

Lemma rejectInboundCall_known provider id now w r s :
  calls_get id w = Some (r, s) → direction s = inbound →
  ∃ w', rejectInboundCall provider id now w = (w', Returned ())
    ∧ objs w' = alter (with_status rejected) r (objs w)
    ∧ calls w' = calls w
    ∧ permissions w' = permissions w
    ∧ timers w' = timers w ++ [(now + RETENTION, id)]
    ∧ effects w'
      = effects w ++ [Api (rejectCall id)]
        ++ caught "[CallManager] Error rejecting call: " provider
        ++ [Emit Broadcast "call-ended"
              [("callId", JStr id); ("phone", JStr (recipientPhone s))]]
        ++ peer_closes s.
Proof.
  intros Hget Hdir. unfold rejectInboundCall. rewrite Hget, Hdir. simpl.
  eexists. split; [reflexivity|].
  set (w1 := emit _ _ _ _).
  assert (calls_get id w1 = Some (r, with_status rejected s)) as Hget1.
  { apply calls_get_Some in Hget as [Hk Hs]. apply calls_get_Some.
    split; [by destruct provider|].
    destruct provider; simpl; by rewrite list_lookup_alter_eq, Hs. }
  destruct (cleanup_known id now w1 _ _ Hget1) as [Ht He].
  rewrite cleanup_objs, cleanup_calls, cleanup_permissions, Ht, He.
  unfold peer_closes. destruct provider; simpl;
    rewrite <- ?app_assoc; simpl; done.
Qed.

(** C9: for a session registered under the call id (an inbound one, in the
    case of reject), whatever the provider call inside the [try] does,
    return or throw, [endCall] (respectively [rejectInboundCall]) returns
    normally, the session ends in the terminal status terminated
    (respectively rejected), exactly one call-ended event is broadcast,
    cleanup closes the peers of the session and sets its retention timer,
    and a failure of the provider call shows only as one console warning. *)
Theorem teardown_survives_provider_failure
  (provider : Reply unit) (id : string) (now : Z) (w : World)
  (r : nat) (s : CallState) :
  calls_get id w = Some (r, s) →
  (∃ w', endCall provider id now w = (w', Returned ())
     ∧ calls_get id w' = Some (r, with_status terminated s)
     ∧ terminal (status (with_status terminated s)) = true
     ∧ timers w' = timers w ++ [(now + RETENTION, id)]
     ∧ effects w'
       = effects w ++ [Api (terminateCall id)]
         ++ caught "[CallManager] Error terminating call: " provider
         ++ [Emit Broadcast "call-ended" [("callId", JStr id)]]
         ++ peer_closes s)
  ∧ (direction s = inbound →
     ∃ w', rejectInboundCall provider id now w = (w', Returned ())
       ∧ calls_get id w' = Some (r, with_status rejected s)
       ∧ terminal (status (with_status rejected s)) = true
       ∧ timers w' = timers w ++ [(now + RETENTION, id)]
       ∧ effects w'
         = effects w ++ [Api (rejectCall id)]
           ++ caught "[CallManager] Error rejecting call: " provider
           ++ [Emit Broadcast "call-ended"
                 [("callId", JStr id); ("phone", JStr (recipientPhone s))]]
           ++ peer_closes s).
Proof.
  intros Hget. pose proof Hget as [Hk Hs]%calls_get_Some. split.
  - destruct (endCall_known provider id now w r s Hget)
      as (w' & Hrun & Ho & Hc & _ & Ht & He).
    exists w'. repeat split; try done.
    apply calls_get_Some. rewrite Hc, Ho.
    by rewrite list_lookup_alter_eq, Hs.
  - intros Hdir.
    destruct (rejectInboundCall_known provider id now w r s Hget Hdir)
      as (w' & Hrun & Ho & Hc & _ & Ht & He).
    exists w'. repeat split; try done.
    apply calls_get_Some. rewrite Hc, Ho.
    by rewrite list_lookup_alter_eq, Hs.
Qed.

Lemma teardown_survives_provider_failure_witness :
  (∃ w', endCall provider_down "WA1" 5000 inbound_world = (w', Returned ())
         ∧ (status <$> getCallState "WA1" w') = Some terminated
         ∧ timers w' = [(5000 + RETENTION, "WA1")])
  ∧ (∃ w', rejectInboundCall whatsappApi_rejectCall "WA1" 5000 inbound_world
           = (w', Returned ())
           ∧ (status <$> getCallState "WA1" w') = Some rejected
           ∧ timers w' = [(5000 + RETENTION, "WA1")]).
Proof.
  set (s := mkCallState "WA1" inbound "+15557654321" incoming None
              (Some "SDP-I") None None 3000).
  split.
  - destruct (teardown_survives_provider_failure provider_down "WA1" 5000
                inbound_world 0%nat s) as [(w' & Hrun & Hget & _ & Ht & _) _].
    { vm_compute. reflexivity. }
    exists w'. split; [exact Hrun|]. split; [|exact Ht].
    unfold getCallState. rewrite Hget. reflexivity.
  - destruct (teardown_survives_provider_failure whatsappApi_rejectCall "WA1"
                5000 inbound_world 0%nat s) as [_ Hrej].
    { vm_compute. reflexivity. }
    destruct Hrej as (w' & Hrun & Hget & _ & Ht & _); [reflexivity|].
    exists w'. split; [exact Hrun|]. split; [|exact Ht].
    unfold getCallState. rewrite Hget. reflexivity.
Defined.

(** ** The guard of [acceptInboundCall] *)



Lemma update_lookup r f w s :
  objs w !! r = Some s → objs (update r f w) !! r = Some (f s).
Proof. intros Hs. simpl. by rewrite list_lookup_alter_eq, Hs. Qed.




(** ** Events for a call id that is not registered *)

(** C8, as the specification states it, fails for end requests: ending a
    call id that is not registered throws, and both entry points of
    server.js hand the failure to the caller, as an [error] event on its
    socket or as an HTTP 500 response. *)
Lemma end_unknown_call_surfaces_failure :
  getCallState "wacid.unknown" init = None
  ∧ (endCall (Ok ()) "wacid.unknown" 1000 init).2
    = Thrown (Error "No active call")
  ∧ effects (socket_end_call (mkSocket "sock1") (Ok ()) "wacid.unknown"
               1000 init)
    = [Console ERROR ["[Socket.IO] end-call error:"; "No active call"];
       Emit (ToSocket "sock1") "error" [("message", JStr "No active call")]]
  ∧ (api_end_call (Ok ()) (Some "wacid.unknown") 1000 init).2
    = mkHttpResponse 500
        [("success", JBool false); ("error", JStr "No active call")].
Proof. vm_compute. done. Qed.

(** C8 (amended): an event that names a call id with no registered session
    changes no call state, no permission and no timer.  A terminate event
    and a local offer are logged and dropped; so are a status event and a
    remote answer when no fallback session matches either; a local answer
    is dropped without a log line.  End, accept and reject requests for
    such an id change nothing either, but they throw, and server.js reports
    the error of an end request to the caller: an [error] event on the
    requesting socket, or an HTTP 500 response. *)
Theorem unknown_call_events (id : string) (now : Z) (w : World) :
  getCallState id w = None →
  handleTerminate id now w
  = console LOG ("[CallManager] Terminate for unknown call " +:+ id) w
  ∧ (∀ sdp reply,
       handleBrowserSdpOffer id sdp reply now w
       = console WARN ("[CallManager] No call state for " +:+ id) w)
  ∧ (∀ statusValue,
       find_session status_target (objs w) (calls w) = None →
       handleOutboundStatus id statusValue now w
       = console WARN ("[CallManager] No call state for status: " +:+ id) w)
  ∧ (∀ sdp setRemote,
       find_session answerable (objs w) (calls w) = None →
       ∃ w', handleOutboundSdpAnswer id sdp setRemote w = (w', Returned ())
             ∧ same_state w w'
             ∧ Console WARN
                 ["[CallManager] No call state for outbound SDP answer: "
                  +:+ id] ∈ effects w')
  ∧ (∀ isAvailable x sdp,
       handleBrowserSdpAnswer isAvailable x id sdp w = (w, Returned ()))
  ∧ (∀ provider,
       endCall provider id now w = (w, Thrown (Error msg_no_active))
       ∧ (∀ socket,
            socket_end_call socket provider id now w
            = emit (ToSocket (sock_id socket)) "error"
                [("message", JStr msg_no_active)]
                (console2 ERROR "[Socket.IO] end-call error:" msg_no_active w))
       ∧ (id ≠ "" →
          ∃ w', api_end_call provider (Some id) now w
                = (w', mkHttpResponse 500
                         [("success", JBool false);
                          ("error", JStr msg_no_active)])
                ∧ same_state w w'))
  ∧ (∀ isAvailable x socket,
       acceptInboundCall isAvailable x id socket w
       = (w, Thrown (Error msg_no_inbound_accept)))
  ∧ (∀ provider,
       rejectInboundCall provider id now w
       = (w, Thrown (Error msg_no_inbound_reject))).
Proof.
  unfold getCallState. intros Hnone.
  destruct (calls_get id w) as [[r s]|] eqn:Hget; [done|]. clear Hnone.
  split; [unfold handleTerminate; by rewrite Hget|].
  split.
  { intros sdp reply. unfold handleBrowserSdpOffer, handleBrowserSdpOffer_begin.
    by rewrite Hget. }
  split.
  { intros sv Hfind. unfold handleOutboundStatus. by rewrite Hget, Hfind. }
  split.
  { intros sdp sr Hfind. unfold handleOutboundSdpAnswer. rewrite Hget.
    simpl. rewrite Hfind. eexists. split; [reflexivity|].
    split; [done|]. simpl. rewrite !elem_of_app. right. left. }
  split.
  { intros av x sdp. unfold handleBrowserSdpAnswer. by rewrite Hget. }
  split.
  { intros provider.
    assert (endCall provider id now w = (w, Thrown (Error msg_no_active)))
      as Hend by (unfold endCall; by rewrite Hget).
    split; [done|]. split.
    - intros socket. unfold socket_end_call. by rewrite Hend.
    - intros Hid. unfold api_end_call. simpl.
      rewrite decide_False by done. rewrite Hend.
      eexists. split; [reflexivity|]. done. }
  split.
  - intros av x socket. unfold acceptInboundCall. by rewrite Hget.
  - intros provider. unfold rejectInboundCall. by rewrite Hget.
Qed.

Lemma unknown_call_events_witness :
  handleTerminate "wacid.unknown" 1000 connected_world
  = console LOG "[CallManager] Terminate for unknown call wacid.unknown"
      connected_world
  ∧ endCall (Ok ()) "wacid.unknown" 1000 connected_world
    = (connected_world, Thrown (Error msg_no_active)).
Proof.
  destruct (unknown_call_events "wacid.unknown" 1000 connected_world)
    as (Hterm & _ & _ & _ & _ & Hend & _).
  - vm_compute. reflexivity.
  - split; [exact Hterm|]. apply (Hend (Ok ())).
Defined.

(** ** Status events *)

Lemma find_session_none P os (l : list (string * nat)) :
  (∀ k r s, (k, r) ∈ l → os !! r = Some s → P s = false) →
  find_session P os l = None.
Proof.
  induction l as [|[k r] l IH]; intros Hno; simpl; [done|].
  destruct (os !! r) as [s|] eqn:Hs.
  - assert (P s = false) as -> by (apply (Hno k r); [left|done]). apply IH.
    intros k' r' s' Hin. apply (Hno k'). by right.
  - apply IH. intros k' r' s' Hin. apply (Hno k'). by right.
Qed.

Lemma find_session_first P os (l1 l2 : list (string * nat)) k r s :
  os !! r = Some s → P s = true →
  (∀ k' r' s', (k', r') ∈ l1 → os !! r' = Some s' → P s' = false) →
  find_session P os (l1 ++ (k, r) :: l2) = Some (k, r).
Proof.
  intros Hs HP. induction l1 as [|[k0 r0] l1 IH]; intros Hno; simpl.
  - by rewrite Hs, HP.
  - destruct (os !! r0) as [s0|] eqn:Hs0.
    + assert (P s0 = false) as -> by (apply (Hno k0 r0); [left|done]).
      apply IH.
      intros k' r' s' Hin. apply (Hno k'). by right.
    + apply IH. intros k' r' s' Hin. apply (Hno k'). by right.
Qed.

Lemma find_session_Some P os (l : list (string * nat)) k r :
  find_session P os l = Some (k, r) →
  ∃ s, (k, r) ∈ l ∧ os !! r = Some s ∧ P s = true.
Proof.
  induction l as [|[k0 r0] l IH]; simpl; [done|].
  destruct (os !! r0) as [s0|] eqn:Hs0.
  - destruct (P s0) eqn:HP.
    + intros [= <- <-]. exists s0. split; [left|done].
    + intros (s & Hin & Hs & HPs)%IH. exists s. split; [by right|done].
  - intros (s & Hin & Hs & HPs)%IH. exists s. split; [by right|done].
Qed.

(** Updating the session that was found, in a way that keeps it a match,
    does not change what is found. *)
Lemma find_session_alter P os (l : list (string * nat)) k r f :
  find_session P os l = Some (k, r) →
  (∀ s, os !! r = Some s → P (f s) = true) →
  find_session P (alter f r os) l = Some (k, r).
Proof.
  intros Hfind Hkeep.
  destruct (find_session_Some P os l k r Hfind) as (s & _ & Hs & HPs).
  revert Hfind. induction l as [|[k0 r0] l IH]; simpl; [done|].
  destruct (decide (r0 = r)) as [->|Hne].
  - rewrite list_lookup_alter_eq, Hs. simpl. rewrite HPs.
    intros [= <-]. by rewrite (Hkeep s Hs).
  - rewrite list_lookup_alter_ne by done.
    destruct (os !! r0) as [s0|]; [|apply IH].
    destruct (P s0); [done|apply IH].
Qed.

Lemma handleOutboundStatus_exact id statusValue now w r s :
  calls_get id w = Some (r, s) →
  handleOutboundStatus id statusValue now w
  = status_applied r id statusValue now w.
Proof. intros Hget. unfold handleOutboundStatus. by rewrite Hget. Qed.

Lemma handleOutboundStatus_fallback id statusValue now w k r :
  calls_get id w = None →
  find_session status_target (objs w) (calls w) = Some (k, r) →
  handleOutboundStatus id statusValue now w
  = status_applied r id statusValue now w.
Proof.
  intros Hget Hfind. unfold handleOutboundStatus. by rewrite Hget, Hfind.
Qed.

Lemma handleOutboundStatus_dropped id statusValue now w :
  calls_get id w = None →
  find_session status_target (objs w) (calls w) = None →
  handleOutboundStatus id statusValue now w
  = console WARN ("[CallManager] No call state for status: " +:+ id) w.
Proof.
  intros Hget Hfind. unfold handleOutboundStatus. by rewrite Hget, Hfind.
Qed.

Lemma status_target_spec s :
  status_target s = true
  ↔ direction s = outbound
    ∧ (status s = ringing ∨ status s = accepted
       ∨ status s = awaiting_browser_sdp).
Proof.
  unfold status_target. destruct (direction s), (status s); simpl;
    split; intros H; try done; try (split; [done|]; auto);
    destruct H as [? [?|[?|?]]]; done.
Qed.

Lemma status_applied_accepted r id now w :
  status_applied r id "accepted" now w
  = emit Broadcast "call-accepted"
      [("callId", JStr id);
       ("phone", opt_str (recipientPhone <$> objs w !! r))]
      (update r (with_status accepted)
         (console LOG ("[CallManager] Call " +:+ id +:+ " status: accepted")
            w)).
Proof. reflexivity. Qed.

Lemma alter_with_status_twice st st' r (os : list CallState) :
  alter (with_status st) r (alter (with_status st') r os)
  = alter (with_status st) r os.
Proof.
  rewrite list_alter_alter_eq. by apply list_alter_ext.
Qed.

(** C5, as the specification states it, fails when more than one session
    matches: with two outbound sessions alive, one ringing and one
    awaiting_browser_sdp, a status event for an unregistered call id is not
    dropped but applied to the first of them in registry order. *)
Lemma ambiguous_status_applied_to_first :
  let w := two_live_outbound in
  let w' := handleOutboundStatus "wacid.Z" "accepted" 5000 w in
  getCallState "wacid.Z" w = None
  ∧ (λ e, (e.1, direction e.2, status e.2)) <$> sessions w
    = [("wacid.A", outbound, ringing);
       ("call_4000", outbound, awaiting_browser_sdp)]
  ∧ (λ e, (e.1, direction e.2, status e.2)) <$> sessions w'
    = [("wacid.A", outbound, accepted);
       ("call_4000", outbound, awaiting_browser_sdp)]
  ∧ last (effects w')
    = Some (Emit Broadcast "call-accepted"
              [("callId", JStr "wacid.Z"); ("phone", JStr "+15551234567")]).
Proof. vm_compute. done. Qed.

Lemma status_applied_state r id statusValue now w :
  calls_get id w = None →
  let w' := status_applied r id statusValue now w in
  objs w' = match written_status statusValue with
            | Some st => alter (with_status st) r (objs w)
            | None => objs w
            end
  ∧ calls w' = calls w ∧ permissions w' = permissions w
  ∧ timers w' = timers w.
Proof.
  intros Hget. unfold status_applied, written_status.
  repeat case_decide; simpl; try done.
  rewrite cleanup_unknown; [done|].
  unfold emit, eff, calls_get in *. simpl.
  destruct (map_get id (calls w)) as [r'|]; [|done].
  rewrite list_lookup_alter. case_decide; [subst|].
  - destruct (objs w !! r'); done.
  - done.
Qed.

(** C5 (amended): when a status event names a call id with no registered
    session, the event is applied to the first session, in registry order,
    that is outbound with status ringing, accepted or awaiting_browser_sdp,
    whether or not later sessions match as well: that session gets the
    status the event writes, no other call state changes, and the event is
    broadcast under the id it came with.  If no session matches, the event
    is dropped with a warning and nothing else changes. *)
Theorem status_fallback_first_match (id statusValue : string) (now : Z)
  (w : World) :
  getCallState id w = None →
  ((∀ k r s, (k, r) ∈ calls w → objs w !! r = Some s →
      ¬ (direction s = outbound
         ∧ (status s = ringing ∨ status s = accepted
            ∨ status s = awaiting_browser_sdp))) →
   handleOutboundStatus id statusValue now w
   = console WARN ("[CallManager] No call state for status: " +:+ id) w)
  ∧ (∀ l1 k r l2 s,
       calls w = l1 ++ (k, r) :: l2 →
       objs w !! r = Some s →
       direction s = outbound →
       status s = ringing ∨ status s = accepted
       ∨ status s = awaiting_browser_sdp →
       (∀ k' r' s', (k', r') ∈ l1 → objs w !! r' = Some s' →
          ¬ (direction s' = outbound
             ∧ (status s' = ringing ∨ status s' = accepted
                ∨ status s' = awaiting_browser_sdp))) →
       let w' := handleOutboundStatus id statusValue now w in
       w' = status_applied r id statusValue now w
       ∧ objs w' = match written_status statusValue with
                   | Some st => alter (with_status st) r (objs w)
                   | None => objs w
                   end
       ∧ calls w' = calls w ∧ permissions w' = permissions w
       ∧ timers w' = timers w).
Proof.
  unfold getCallState. intros Hnone.
  destruct (calls_get id w) as [[r0 s0]|] eqn:Hget; [done|]. clear Hnone.
  split.
  - intros Hno. apply handleOutboundStatus_dropped; [done|].
    apply find_session_none. intros k r s Hin Hs.
    destruct (status_target s) eqn:Ht; [|done].
    apply status_target_spec in Ht. by destruct (Hno k r s Hin Hs).
  - intros l1 k r l2 s Hcalls Hs Hdir Hst Hfirst.
    set (w' := handleOutboundStatus id statusValue now w).
    assert (find_session status_target (objs w) (calls w) = Some (k, r))
      as Hfind.
    { rewrite Hcalls. apply (find_session_first _ _ _ _ _ _ s); [done| |].
      - by apply status_target_spec.
      - intros k' r' s' Hin Hs'. destruct (status_target s') eqn:Ht; [|done].
        apply status_target_spec in Ht. by destruct (Hfirst k' r' s' Hin Hs'). }
    assert (w' = status_applied r id statusValue now w) as Hw'
      by (by apply (handleOutboundStatus_fallback _ _ _ _ k)).
    split; [done|]. rewrite Hw'. by apply status_applied_state.
Qed.

Lemma status_fallback_first_match_witness :
  let w := two_live_outbound in
  let w' := handleOutboundStatus "wacid.Z" "rejected" 5000 w in
  (status <$> objs w' !! 0%nat) = Some rejected
  ∧ objs w' !! 1%nat = objs w !! 1%nat
  ∧ timers w' = timers w.
Proof.
  intros w w'.
  destruct (status_fallback_first_match "wacid.Z" "rejected" 5000 w)
    as [_ Hfirst]; [vm_compute; reflexivity|].
  destruct (Hfirst [] "wacid.A" 0%nat [("call_4000", 1%nat)]
              (mkCallState "wacid.A" outbound "+15551234567" ringing
                 (Some "sock1") None None None 2000))
    as (_ & Hobjs & _ & _ & Htimers).
  - vm_compute. reflexivity.
  - vm_compute. reflexivity.
  - reflexivity.
  - left. reflexivity.
  - intros k' r' s' Hin. by apply elem_of_nil in Hin.
  - fold w' in Hobjs, Htimers. rewrite Hobjs, Htimers.
    split; [vm_compute; reflexivity|]. split; [vm_compute|]; reflexivity.
Defined.

(** C2, as the specification states it, fails twice over.  The second
    delivery of the same accepted status is not dropped: it is logged and
    broadcast again.  And a status event for a session in a terminal status
    is applied: the session leaves the terminal status. *)
Lemma duplicate_status_is_reapplied :
  let log := Console LOG ["[CallManager] Call wacid.A status: accepted"] in
  let broadcast :=
    Emit Broadcast "call-accepted"
      [("callId", JStr "wacid.A"); ("phone", JStr "+15551234567")] in
  let w := two_stuck_world in
  let w1 := handleOutboundStatus "wacid.A" "accepted" 4000 w in
  let w2 := handleOutboundStatus "wacid.A" "accepted" 4100 w1 in
  let w3 := (endCall (Ok ()) "wacid.A" 5000 w2).1 in
  let w4 := handleOutboundStatus "wacid.A" "accepted" 6000 w3 in
  effects w2 = effects w ++ [log; broadcast; log; broadcast]
  ∧ (status <$> getCallState "wacid.A" w3) = Some terminated
  ∧ (status <$> getCallState "wacid.A" w4) = Some accepted
  ∧ effects w4 = effects w3 ++ [log; broadcast].
Proof. vm_compute. done. Qed.

Lemma accepted_stays_status_target w k r :
  find_session status_target (objs w) (calls w) = Some (k, r) →
  ∀ s, objs w !! r = Some s → status_target (with_status accepted s) = true.
Proof.
  intros (s' & _ & Hs' & Ht)%find_session_Some s Hs.
  assert (s' = s) as -> by congruence.
  apply status_target_spec in Ht as [Hdir _].
  apply status_target_spec. simpl. auto.
Qed.

(** C2 (amended): after one delivery of call-status(accepted) the session
    named by the event is in status accepted, whatever its status was
    before, terminal or not; a second delivery of the same event changes no
    call state, permission or timer, but it is not dropped: like the first,
    it writes its log line and broadcasts call-accepted again. *)
Theorem status_accepted_twice (id : string) (now now' : Z) (w : World) :
  let w1 := handleOutboundStatus id "accepted" now w in
  let w2 := handleOutboundStatus id "accepted" now' w1 in
  same_state w1 w2
  ∧ ∀ r s, calls_get id w = Some (r, s) →
      let log := Console LOG ["[CallManager] Call " +:+ id
                              +:+ " status: accepted"] in
      let broadcast :=
        Emit Broadcast "call-accepted"
          [("callId", JStr id); ("phone", JStr (recipientPhone s))] in
      calls_get id w1 = Some (r, with_status accepted s)
      ∧ calls_get id w2 = Some (r, with_status accepted s)
      ∧ effects w1 = effects w ++ [log; broadcast]
      ∧ effects w2 = effects w1 ++ [log; broadcast].
Proof.
  intros w1 w2.
  destruct (calls_get id w) as [[r s]|] eqn:Hget.
  - assert (w1 = status_applied r id "accepted" now w) as Hw1
      by (by apply (handleOutboundStatus_exact _ _ _ _ r s)).
    pose proof Hget as [Hk Hs]%calls_get_Some.
    assert (calls_get id w1 = Some (r, with_status accepted s)) as Hget1.
    { rewrite Hw1, status_applied_accepted. apply calls_get_Some.
      split; [done|]. simpl. by rewrite list_lookup_alter_eq, Hs. }
    assert (w2 = status_applied r id "accepted" now' w1) as Hw2
      by (by apply (handleOutboundStatus_exact _ _ _ _ r
                      (with_status accepted s))).
    split.
    + rewrite Hw2, status_applied_accepted, Hw1, status_applied_accepted.
      repeat split. simpl. apply alter_with_status_twice.
    + intros r' s' [= <- <-] log broadcast. split; [done|].
      split.
      * rewrite Hw2, status_applied_accepted. apply calls_get_Some.
        apply calls_get_Some in Hget1 as [Hk1 Hs1].
        split; [done|]. simpl. simpl in Hs1.
        by rewrite list_lookup_alter_eq, Hs1.
      * split.
        -- rewrite Hw1, status_applied_accepted. simpl. rewrite Hs. simpl.
           by rewrite <- app_assoc.
        -- apply calls_get_Some in Hget1 as [_ Hs1].
           rewrite Hw2, status_applied_accepted. simpl. rewrite Hs1. simpl.
           by rewrite <- app_assoc.
  - split; [|done].
    destruct (find_session status_target (objs w) (calls w)) as [[k r]|]
      eqn:Hfind.
    + assert (w1 = status_applied r id "accepted" now w) as Hw1
        by (by apply (handleOutboundStatus_fallback _ _ _ _ k)).
      assert (calls_get id w1 = None) as Hget1.
      { rewrite Hw1, status_applied_accepted.
        unfold emit, eff, calls_get in *. simpl.
        destruct (map_get id (calls w)) as [r'|]; [|done].
        rewrite list_lookup_alter. case_decide; [subst|done].
        by destruct (objs w !! r'). }
      assert (find_session status_target (objs w1) (calls w1) = Some (k, r))
        as Hfind1.
      { rewrite Hw1, status_applied_accepted. simpl.
        apply find_session_alter; [done|].
        by apply (accepted_stays_status_target w k). }
      assert (w2 = status_applied r id "accepted" now' w1) as Hw2
        by (by apply (handleOutboundStatus_fallback _ _ _ _ k)).
      rewrite Hw2, status_applied_accepted, Hw1, status_applied_accepted.
      repeat split. simpl. apply alter_with_status_twice.
    + assert (w1 = console WARN
                ("[CallManager] No call state for status: " +:+ id) w)
        as Hw1 by (by apply handleOutboundStatus_dropped).
      assert (w2 = console WARN
                ("[CallManager] No call state for status: " +:+ id) w1)
        as Hw2.
      { apply handleOutboundStatus_dropped; by rewrite Hw1. }
      rewrite Hw2. done.
Qed.

Lemma status_accepted_twice_witness :
  let w := two_stuck_world in
  let w1 := handleOutboundStatus "wacid.A" "accepted" 4000 w in
  let w2 := handleOutboundStatus "wacid.A" "accepted" 4100 w1 in
  (status <$> getCallState "wacid.A" w1) = Some accepted
  ∧ (status <$> getCallState "wacid.A" w2) = Some accepted
  ∧ length (effects w2) = (length (effects w1) + 2)%nat.
Proof.
  intros w w1 w2.
  destruct (status_accepted_twice "wacid.A" 4000 4100 w) as [_ Hdup].
  destruct (Hdup 0%nat
              (mkCallState "wacid.A" outbound "+15551234567" ringing
                 (Some "sock1") None None None 2000))
    as (Hget1 & Hget2 & _ & He2).
  - vm_compute. reflexivity.
  - fold w1 in Hget1, Hget2, He2. fold w2 in Hget2, He2.
    unfold getCallState. rewrite Hget1, Hget2, He2.
    rewrite length_app. split; [reflexivity|]. split; reflexivity.
Defined.

(** ** The guard of [startOutboundCall] *)

Lemma blocking_spec now s :
  blocking now s ↔ active_outbound s = true ∧ stale now s = false.
Proof.
  unfold blocking, active_outbound, stale.
  destruct (Z.ltb_spec STALE_TIMEOUT (now - createdAt s)) as [Hlt|Hge];
    destruct (direction s), (status s); simpl; split;
    intros H; try done; try (split; [done|]; auto);
    try (destruct H as [? [?|[?|[?|[? ?]]]]]; try done; lia);
    try (destruct H; done).
Qed.

Lemma reclaimable_spec now s :
  reclaimable now s ↔ active_outbound s = true ∧ stale now s = true.
Proof.
  unfold reclaimable, active_outbound, stale.
  destruct (Z.ltb_spec STALE_TIMEOUT (now - createdAt s)) as [Hlt|Hge];
    destruct (direction s), (status s); simpl; split;
    intros H; try done; try (destruct H as (? & ? & ?); try done; lia);
    try (destruct H; done).
Qed.

Lemma active_outbound_expired s :
  active_outbound (with_status expired s) = false.
Proof. unfold active_outbound. simpl. by rewrite andb_false_r. Qed.

Lemma expire_or_block_frame now l w :
  calls (expire_or_block now l w).1 = calls w
  ∧ permissions (expire_or_block now l w).1 = permissions w
  ∧ length (objs (expire_or_block now l w).1) = length (objs w).
Proof.
  revert w. induction l as [|[k r] l IH]; intros w; simpl; [done|].
  destruct (objs w !! r) as [s|]; [|apply IH].
  destruct (active_outbound s); [|apply IH].
  destruct (stale now s); [|done].
  match goal with |- context [expire_or_block now l ?w1] =>
    destruct (IH w1) as (-> & -> & ->) end.
  rewrite cleanup_calls, cleanup_permissions, cleanup_objs. simpl.
  by rewrite length_alter.
Qed.

(** The loop only ever changes sessions that it expires. *)
Lemma expire_or_block_objs now l w r s :
  objs w !! r = Some s →
  objs (expire_or_block now l w).1 !! r = Some s
  ∨ (active_outbound s = true ∧ stale now s = true
     ∧ objs (expire_or_block now l w).1 !! r = Some (with_status expired s)).
Proof.
  revert w s. induction l as [|[k r0] l IH]; intros w s Hs; simpl; [by left|].
  destruct (objs w !! r0) as [s0|] eqn:Hs0; [|by apply IH].
  destruct (active_outbound s0) eqn:Hact; [|by apply IH].
  destruct (stale now s0) eqn:Hstale; [|by left].
  match goal with |- context [expire_or_block now l ?w1] => set (w1' := w1) end.
  destruct (decide (r = r0)) as [->|Hne].
  - assert (s0 = s) as -> by congruence.
    assert (objs w1' !! r0 = Some (with_status expired s)) as Hs1.
    { unfold w1'. rewrite cleanup_objs. simpl.
      by rewrite list_lookup_alter_eq, Hs. }
    destruct (IH w1' _ Hs1) as [H|(Hact' & _)].
    + right. done.
    + by rewrite active_outbound_expired in Hact'.
  - apply IH. unfold w1'. rewrite cleanup_objs. simpl.
    by rewrite list_lookup_alter_ne.
Qed.

(** If some session reached by the loop is blocking, the loop throws the
    conflict error for a blocking session. *)
Lemma expire_or_block_blocked now l w :
  (∃ k r s, (k, r) ∈ l ∧ objs w !! r = Some s ∧ blocking now s) →
  ∃ k r s, (k, r) ∈ l ∧ objs w !! r = Some s ∧ blocking now s
    ∧ (expire_or_block now l w).2 = Thrown (Error (conflict_msg k (status s))).
Proof.
  revert w. induction l as [|[k0 r0] l IH]; intros w (k & r & s & Hin & Hs & Hb).
  { by apply elem_of_nil in Hin. }
  simpl. destruct (objs w !! r0) as [s0|] eqn:Hs0.
  - destruct (active_outbound s0) eqn:Hact.
    + destruct (stale now s0) eqn:Hstale.
      * match goal with |- context [expire_or_block now l ?w1] =>
          set (w1' := w1) end.
        assert (objs w1' = alter (with_status expired) r0 (objs w)) as Hobjs
          by (unfold w1'; by rewrite cleanup_objs).
        assert (r ≠ r0) as Hne.
        { intros ->. assert (s0 = s) as -> by congruence.
          apply blocking_spec in Hb as [_ Hb]. congruence. }
        apply elem_of_cons in Hin as [[= -> ->]|Hin]; [done|].
        destruct (IH w1') as (k' & r' & s' & Hin' & Hs' & Hb' & Hres).
        { exists k, r, s. split; [done|]. split; [|done].
          by rewrite Hobjs, list_lookup_alter_ne. }
        exists k', r', s'. split; [by right|]. split; [|done].
        rewrite Hobjs in Hs'. destruct (decide (r0 = r')) as [->|Hne'].
        -- rewrite list_lookup_alter_eq, Hs0 in Hs'. simpl in Hs'.
           injection Hs' as <-. apply blocking_spec in Hb' as [Hb' _].
           by rewrite active_outbound_expired in Hb'.
        -- by rewrite list_lookup_alter_ne in Hs'.
      * exists k0, r0, s0. split; [left|]. split; [done|].
        split; [by apply blocking_spec|done].
    + apply elem_of_cons in Hin as [[= -> ->]|Hin].
      { assert (s0 = s) as -> by congruence.
        apply blocking_spec in Hb as [Hb _]. congruence. }
      destruct (IH w) as (k' & r' & s' & Hin' & Hs' & Hb' & Hres);
        [by exists k, r, s|].
      exists k', r', s'. split; [by right|done].
  - apply elem_of_cons in Hin as [[= -> ->]|Hin]; [congruence|].
    destruct (IH w) as (k' & r' & s' & Hin' & Hs' & Hb' & Hres);
      [by exists k, r, s|].
    exists k', r', s'. split; [by right|done].
Qed.

(** If the loop returns, no session it went over is an active outbound
    session any more. *)
Lemma expire_or_block_returned now l w k r s' :
  (expire_or_block now l w).2 = Returned () →
  (k, r) ∈ l → objs (expire_or_block now l w).1 !! r = Some s' →
  active_outbound s' = false.
Proof.
  revert w. induction l as [|[k0 r0] l IH]; intros w Hret Hin Hs'.
  { by apply elem_of_nil in Hin. }
  simpl in Hret, Hs'.
  destruct (objs w !! r0) as [s0|] eqn:Hs0.
  - destruct (active_outbound s0) eqn:Hact.
    + destruct (stale now s0) eqn:Hstale; [|done].
      match type of Hret with context [expire_or_block now l ?w1] =>
        set (w1' := w1) in * end.
      apply elem_of_cons in Hin as [[= -> ->]|Hin]; [|by apply (IH w1')].
      assert (objs w1' !! r0 = Some (with_status expired s0)) as Hs1.
      { unfold w1'. rewrite cleanup_objs. simpl.
        by rewrite list_lookup_alter_eq, Hs0. }
      destruct (expire_or_block_objs now l w1' r0 _ Hs1) as [H|(Hact' & _)].
      * rewrite H in Hs'. injection Hs' as <-. apply active_outbound_expired.
      * by rewrite active_outbound_expired in Hact'.
    + apply elem_of_cons in Hin as [[= -> ->]|Hin]; [|by apply (IH w)].
      destruct (expire_or_block_objs now l w r0 _ Hs0) as [H|(Hact' & _)];
        congruence.
  - apply elem_of_cons in Hin as [[= -> ->]|Hin]; [|by apply (IH w)].
    destruct (expire_or_block_frame now l w) as (_ & _ & Hlen).
    apply lookup_lt_Some in Hs'. apply lookup_ge_None in Hs0. lia.
Qed.

Lemma expire_or_block_mono now l w :
  (∀ t, t ∈ timers w → t ∈ timers (expire_or_block now l w).1)
  ∧ (∀ e, e ∈ effects w → e ∈ effects (expire_or_block now l w).1).
Proof.
  revert w. induction l as [|[k r] l IH]; intros w; simpl; [done|].
  destruct (objs w !! r) as [s|]; [|apply IH].
  destruct (active_outbound s); [|apply IH].
  destruct (stale now s); [|done].
  match goal with |- context [expire_or_block now l ?w1] =>
    destruct (IH w1) as [Ht He] end.
  split; intros x Hx; [apply Ht | apply He].
  - apply cleanup_timers_mono. by simpl.
  - apply cleanup_effects_mono. simpl. rewrite elem_of_app. by left.
Qed.

(** Without a blocking session the loop returns. *)
Lemma expire_or_block_passes now l w :
  (∀ k r s, (k, r) ∈ l → objs w !! r = Some s → ¬ blocking now s) →
  (expire_or_block now l w).2 = Returned ().
Proof.
  revert w. induction l as [|[k0 r0] l IH]; intros w Hfree; simpl; [done|].
  assert (∀ k r s, (k, r) ∈ l → objs w !! r = Some s → ¬ blocking now s)
    as Hfree' by (intros k r s Hin; apply (Hfree k); by right).
  destruct (objs w !! r0) as [s0|] eqn:Hs0; [|by apply IH].
  destruct (active_outbound s0) eqn:Hact; [|by apply IH].
  destruct (stale now s0) eqn:Hstale.
  - apply IH. intros k r s Hin. rewrite cleanup_objs. simpl.
    destruct (decide (r0 = r)) as [->|Hne].
    + rewrite list_lookup_alter_eq, Hs0. simpl. intros [= <-].
      intros [Hb _]%blocking_spec. by rewrite active_outbound_expired in Hb.
    + rewrite list_lookup_alter_ne by done. by apply (Hfree' k).
  - destruct (Hfree k0 r0 s0); [left|done|]. by apply blocking_spec.
Qed.

(** Without a blocking session, every reclaimable session the loop goes
    over is expired and cleaned up. *)
Lemma expire_or_block_reclaims now l w k r s :
  NoDup l.*2 →
  (∀ e, e ∈ l → map_get e.1 (calls w) = Some e.2) →
  (∀ k r s, (k, r) ∈ l → objs w !! r = Some s → ¬ blocking now s) →
  (k, r) ∈ l → objs w !! r = Some s → reclaimable now s →
  objs (expire_or_block now l w).1 !! r = Some (with_status expired s)
  ∧ (now + RETENTION, k) ∈ timers (expire_or_block now l w).1
  ∧ (∀ p, whatsappPeer s = Some p ∨ browserPeer s = Some p →
          PeerClose p ∈ effects (expire_or_block now l w).1).
Proof.
  revert w. induction l as [|[k0 r0] l IH];
    intros w Hnd Hkeys Hfree Hin Hs Hrec.
  { by apply elem_of_nil in Hin. }
  rewrite fmap_cons in Hnd. apply NoDup_cons in Hnd as [Hr0 Hnd]. simpl.
  assert (∀ e, e ∈ l → map_get e.1 (calls w) = Some e.2) as Hkeys'
    by (intros e He; apply Hkeys; by right).
  assert (∀ k r s, (k, r) ∈ l → objs w !! r = Some s → ¬ blocking now s)
    as Hfree' by (intros k' r' s' Hin'; apply (Hfree k'); by right).
  pose proof Hrec as [Hact Hstale]%reclaimable_spec.
  apply elem_of_cons in Hin as [[= <- <-]|Hin].
  - rewrite Hs, Hact, Hstale.
    match goal with |- context [expire_or_block now l ?w1] =>
      set (w1' := w1) end.
    match eval unfold w1' in w1' with cleanup _ _ ?w0 => set (w0' := w0) in * end.
    assert (calls_get k w0' = Some (r, with_status expired s)) as Hget.
    { apply calls_get_Some. split; [apply (Hkeys (k, r)); left|].
      unfold w0'. simpl. by rewrite list_lookup_alter_eq, Hs. }
    destruct (cleanup_known k now _ _ _ Hget) as [Htm Hef].
    destruct (expire_or_block_mono now l w1') as [Ht He].
    assert (objs w1' !! r = Some (with_status expired s)) as Hs1.
    { unfold w1'. rewrite cleanup_objs. unfold w0'. simpl.
      by rewrite list_lookup_alter_eq, Hs. }
    split; [|split].
    + destruct (expire_or_block_objs now l w1' r _ Hs1) as [H|(Hact' & _)];
        [done|]. by rewrite active_outbound_expired in Hact'.
    + apply Ht. unfold w1'. rewrite Htm. apply elem_of_app. right. left.
    + intros p Hp. apply He. unfold w1'. rewrite Hef. simpl.
      rewrite !elem_of_app. destruct Hp as [-> | ->]; simpl.
      * right. left. left.
      * right. right. left.
  - assert (r ≠ r0) as Hne.
    { intros ->. apply Hr0. by apply (list_elem_of_fmap_2 snd _ (k, r0)). }
    destruct (objs w !! r0) as [s0|] eqn:Hs0; [|by apply IH].
    destruct (active_outbound s0) eqn:Hact0; [|by apply IH].
    destruct (stale now s0) eqn:Hstale0.
    + apply IH; try done.
      * by rewrite cleanup_calls.
      * intros k' r' s' Hin'. rewrite cleanup_objs. simpl.
        destruct (decide (r0 = r')) as [->|Hne'].
        -- rewrite list_lookup_alter_eq, Hs0. simpl. intros [= <-].
           intros [Hb _]%blocking_spec.
           by rewrite active_outbound_expired in Hb.
        -- rewrite list_lookup_alter_ne by done. by apply (Hfree' k').
      * rewrite cleanup_objs. simpl. by rewrite list_lookup_alter_ne.
    + destruct (Hfree k0 r0 s0); [left|done|]. by apply blocking_spec.
Qed.

Lemma getPermissionStatus_frame phone now w :
  let res := getPermissionStatus phone now w in
  calls res.1 = calls w ∧ objs res.1 = objs w ∧ timers res.1 = timers w
  ∧ effects res.1 = effects w ∧ (granted res.2 = true → res.1 = w).
Proof.
  unfold getPermissionStatus. destruct (permissions w !! phone) as [p|]; [|done].
  by destruct (expiresAt p <? now).
Qed.

Lemma active_outbound_spec s :
  active_outbound s = true
  ↔ direction s = outbound
    ∧ (status s = awaiting_browser_sdp ∨ status s = ringing
       ∨ status s = accepted ∨ status s = connected).
Proof.
  unfold active_outbound. destruct (direction s), (status s); simpl;
    split; intros H; try done; try (split; [done|]; auto);
    destruct H as [? [?|[?|[?|?]]]]; done.
Qed.

Lemma startOutboundCallBrowserOnly_created phone socket now w :
  ∃ out, startOutboundCallBrowserOnly phone socket now w
         = ((startOutboundCallBrowserOnly phone socket now w).1, Returned out)
    ∧ out = mkStartResult (provisional_id now) awaiting_browser_sdp
              (Some "browser-only")
    ∧ created w (startOutboundCallBrowserOnly phone socket now w).1 out.
Proof.
  eexists. split; [reflexivity|]. split; [reflexivity|].
  eexists. repeat split.
  intros e He. simpl. rewrite !elem_of_app. auto.
Qed.

Lemma startOutboundCallWithServerWebRTC_created x phone w out :
  (startOutboundCallWithServerWebRTC x phone w).2 = Returned out →
  created w (startOutboundCallWithServerWebRTC x phone w).1 out
  ∧ sr_status out = ringing.
Proof.
  unfold startOutboundCallWithServerWebRTC.
  destruct (ob_offer x); [|done]. destruct (ob_reply x); [|done].
  simpl. intros [= <-]. split; [|done]. eexists. repeat split.
  intros e He. simpl. rewrite !elem_of_app. auto.
Qed.

Lemma created_only_live w0 w w' out :
  calls w = calls w0 → length (objs w) = length (objs w0) →
  (∀ k r s, (k, r) ∈ calls w → objs w !! r = Some s →
            active_outbound s = false) →
  created w w' out →
  ∃ r s, map_get (sr_callId out) (calls w') = Some r
    ∧ r = length (objs w0)
    ∧ objs w' !! r = Some s
    ∧ callId s = sr_callId out ∧ direction s = outbound
    ∧ status s = sr_status out
    ∧ ∀ k' r' s', (k', r') ∈ calls w' → objs w' !! r' = Some s' →
        active_outbound s' = true → r' = r.
Proof.
  intros Hcalls Hlen Hdead
    (s & Hobjs & Hcalls' & _ & _ & Hid & Hdir & Hst & Hact).
  exists (length (objs w)), s.
  split; [rewrite Hcalls'; apply map_get_set_eq|].
  split; [done|].
  split; [rewrite Hobjs; apply list_lookup_middle; done|].
  do 3 (split; [done|]).
  intros k' r' s' Hin Hs' Hact'. rewrite Hcalls' in Hin.
  apply map_set_elem in Hin as [[= _ ->]|Hin]; [done|].
  rewrite Hobjs in Hs'.
  destruct (decide (r' < length (objs w))%nat) as [Hlt|Hge].
  - rewrite lookup_app_l in Hs' by done.
    rewrite (Hdead k' r' s' Hin Hs') in Hact'. done.
  - apply lookup_lt_Some in Hs'. rewrite length_app in Hs'. simpl in Hs'. lia.
Qed.

(** C1, as the specification states it, fails in two ways.  With a ringing
    outbound session registered, a request for a phone that has no
    permission fails with the permission error, not with the conflict
    error.  And the registry can hold two outbound sessions in non-terminal
    statuses at once: [two_live_outbound] is reached by a run of the
    handlers. *)
Lemma outbound_conflict_counterexample :
  (let w := two_stuck_world in
   (λ e, (e.1, direction e.2, status e.2)) <$> sessions w
   = [("wacid.A", outbound, ringing); ("WA1", inbound, incoming)]
   ∧ (startOutboundCall false relay_ext "+15550000000"
        (Some (mkSocket "sock1")) 4000 w).2
     = Thrown (Error msg_no_perm)
   ∧ msg_no_perm ≠ conflict_msg "wacid.A" ringing)
  ∧ (λ e, (e.1, direction e.2, status e.2, terminal (status e.2)))
      <$> sessions two_live_outbound
    = [("wacid.A", outbound, ringing, false);
       ("call_4000", outbound, awaiting_browser_sdp, false)].
Proof. vm_compute. done. Qed.

(** C1 (amended): for an initiate-outbound request for a phone whose
    permission is granted at the time of the request, if a registered
    session is outbound and ringing, accepted, connected, or
    awaiting_browser_sdp for at most 30 seconds, the request fails with the
    conflict error naming such a session, and no session is created.  When
    the permission is missing or has expired the request fails with the
    permission error instead, and nothing is created either.  When the
    request succeeds, with no other handler run while it awaits the bridge
    and the provider, the session it has created is, at that moment, the
    only registered outbound session whose status is awaiting_browser_sdp,
    ringing, accepted or connected. *)
Theorem startOutboundCall_conflict (isAvailable : bool) (x : OutboundExt)
  (phone : string) (socket : option Socket) (now : Z) (w : World) :
  let res := startOutboundCall isAvailable x phone socket now w in
  (granted (getPermissionStatus phone now w).2 = true →
   (∃ k r s, (k, r) ∈ calls w ∧ objs w !! r = Some s ∧ blocking now s) →
   ∃ k r s, (k, r) ∈ calls w ∧ objs w !! r = Some s ∧ blocking now s
     ∧ res.2 = Thrown (Error (conflict_msg k (status s)))
     ∧ calls res.1 = calls w
     ∧ length (objs res.1) = length (objs w))
  ∧ (granted (getPermissionStatus phone now w).2 = false →
     res.2 = Thrown (Error (if expired_flag (getPermissionStatus phone now w).2
                            then msg_perm_expired else msg_no_perm))
     ∧ calls res.1 = calls w ∧ objs res.1 = objs w)
  ∧ (∀ out, res.2 = Returned out →
     ∃ r s, map_get (sr_callId out) (calls res.1) = Some r
       ∧ r = length (objs w)
       ∧ objs res.1 !! r = Some s
       ∧ callId s = sr_callId out ∧ direction s = outbound
       ∧ status s = sr_status out
       ∧ ∀ k' r' s', (k', r') ∈ calls res.1 → objs res.1 !! r' = Some s' →
           direction s' = outbound →
           status s' = awaiting_browser_sdp ∨ status s' = ringing
           ∨ status s' = accepted ∨ status s' = connected →
           r' = r).
Proof.
  intros res. subst res. unfold startOutboundCall.
  pose proof (getPermissionStatus_frame phone now w) as Hperm.
  destruct (getPermissionStatus phone now w) as [wp st]. simpl in Hperm.
  destruct Hperm as (Hpc & Hpo & _ & _ & Hpw). simpl.
  destruct (granted st) eqn:Hgr; simpl.
  - rewrite (Hpw eq_refl) in *. clear Hpw Hpc Hpo wp.
    pose proof (expire_or_block_frame now (calls w) w) as (Hfc & _ & Hfl).
    split; [|split; [done|]].
    + intros _ Hblock.
      destruct (expire_or_block_blocked now (calls w) w Hblock)
        as (k & r & s & Hin & Hs & Hb & Hres).
      exists k, r, s. do 3 (split; [done|]).
      destruct (expire_or_block now (calls w) w) as [wl cl].
      simpl in *. by rewrite Hres.
    + intros out Hout.
      pose proof (expire_or_block_returned now (calls w) w) as Hdead.
      destruct (expire_or_block now (calls w) w) as [wl [[]|e]];
        simpl in *; [|done].
      assert (∀ k r s, (k, r) ∈ calls wl → objs wl !! r = Some s →
                active_outbound s = false) as Hdead'.
      { intros k r s Hin Hs. rewrite Hfc in Hin.
        by apply (Hdead k r s eq_refl Hin). }
      assert (∀ w', created wl w' out →
                ∃ r s, map_get (sr_callId out) (calls w') = Some r
                  ∧ r = length (objs w)
                  ∧ objs w' !! r = Some s
                  ∧ callId s = sr_callId out ∧ direction s = outbound
                  ∧ status s = sr_status out
                  ∧ ∀ k' r' s', (k', r') ∈ calls w' →
                      objs w' !! r' = Some s' →
                      direction s' = outbound →
                      status s' = awaiting_browser_sdp ∨ status s' = ringing
                      ∨ status s' = accepted ∨ status s' = connected →
                      r' = r) as Hfin.
      { intros w' Hcr.
        destruct (created_only_live w wl w' out Hfc Hfl Hdead' Hcr)
          as (r & s & H1 & H2 & H3 & H4 & H5 & H6 & H7).
        exists r, s. do 6 (split; [done|]).
        intros k' r' s' Hin Hs' Hdir Hst. apply (H7 k' r' s' Hin Hs').
        by apply active_outbound_spec. }
      destruct isAvailable.
      * apply Hfin.
        by apply (startOutboundCallWithServerWebRTC_created x phone wl out).
      * apply Hfin.
        destruct (startOutboundCallBrowserOnly_created phone socket now wl)
          as (out' & Hrun & _ & Hcr).
        rewrite Hrun in Hout. simpl in Hout. by injection Hout as <-.
  - split; [done|]. split; [|done]. intros _. done.
Qed.

Lemma startOutboundCall_conflict_witness :
  (∃ k st,
     (startOutboundCall false relay_ext "+15551234567"
        (Some (mkSocket "sock1")) 4000 two_stuck_world).2
     = Thrown (Error (conflict_msg k st)))
  ∧ (startOutboundCall false relay_ext "+15550000000"
       (Some (mkSocket "sock1")) 4000 two_stuck_world).2
    = Thrown (Error msg_no_perm)
  ∧ ∃ r, map_get "call_2000"
           (calls (startOutboundCall false relay_ext "+15551234567"
                     (Some (mkSocket "sock1")) 2000
                     (handlePermissionGranted "+15551234567" 1000 init)).1)
         = Some r.
Proof.
  split; [|split].
  - destruct (startOutboundCall_conflict false relay_ext "+15551234567"
                (Some (mkSocket "sock1")) 4000 two_stuck_world)
      as (Hconf & _ & _).
    destruct Hconf as (k & r & s & Hin & Hs & _ & Hres & _).
    + vm_compute. reflexivity.
    + exists "wacid.A", 0%nat,
        (mkCallState "wacid.A" outbound "+15551234567" ringing (Some "sock1")
           None None None 2000).
      split; [vm_compute; left|]. split; [vm_compute; reflexivity|].
      split; [reflexivity|]. left. reflexivity.
    + exists k, (status s). exact Hres.
  - destruct (startOutboundCall_conflict false relay_ext "+15550000000"
                (Some (mkSocket "sock1")) 4000 two_stuck_world)
      as (_ & Hperm & _).
    destruct Hperm as (Hres & _); [vm_compute; reflexivity|].
    rewrite Hres. vm_compute. reflexivity.
  - destruct (startOutboundCall_conflict false relay_ext "+15551234567"
                (Some (mkSocket "sock1")) 2000
                (handlePermissionGranted "+15551234567" 1000 init))
      as (_ & _ & Hok).
    destruct (Hok (mkStartResult "call_2000" awaiting_browser_sdp
                     (Some "browser-only")))
      as (r & s & Hget & _); [vm_compute; reflexivity|].
    exists r. exact Hget.
Defined.

(** ** Reclaiming a stale session *)

(** C6, as the specification states it, fails when the next request is for
    a phone without permission: 31 seconds after the session was created,
    such a request fails, and the stale session is still
    awaiting_browser_sdp, with no cleanup. *)
Lemma stale_session_survives_unpermitted_request :
  let w := awaiting_world in
  let res := startOutboundCall false relay_ext "+15550000000"
               (Some (mkSocket "sock1")) 33000 w in
  (λ e, (e.1, direction e.2, status e.2, 33000 - createdAt e.2))
    <$> sessions w
  = [("call_2000", outbound, awaiting_browser_sdp, 31000)]
  ∧ res.2 = Thrown (Error msg_no_perm)
  ∧ (λ e, (e.1, status e.2)) <$> sessions res.1
    = [("call_2000", awaiting_browser_sdp)]
  ∧ timers res.1 = [].
Proof. vm_compute. done. Qed.

(** C6 (amended): in a registry in which no session is entered under two
    keys, let an outbound session be awaiting_browser_sdp for more than 30
    seconds.  The next initiate-outbound request, if it is for a
    phone whose permission is granted at that time and no other registered
    session is blocking (outbound and ringing, accepted, connected, or
    awaiting_browser_sdp for at most 30 seconds), sets the status of that
    session to expired, runs cleanup on it (retention timer set, peers
    closed), and then creates and registers a new outbound session and
    returns it: always in relay mode, and in bridge mode when the offer is
    produced and the provider accepts the call (no other handler being run
    meanwhile). *)
Theorem stale_session_reclaimed (isAvailable : bool) (x : OutboundExt)
  (phone : string) (socket : option Socket) (now : Z) (w : World)
  (k : string) (r : nat) (s : CallState) :
  NoDup (calls w).*1 → NoDup (calls w).*2 →
  granted (getPermissionStatus phone now w).2 = true →
  (k, r) ∈ calls w → objs w !! r = Some s → reclaimable now s →
  (∀ k' r' s', (k', r') ∈ calls w → objs w !! r' = Some s' →
               ¬ blocking now s') →
  (isAvailable = true →
   ∃ sdp result, ob_offer x = Ok sdp ∧ ob_reply x = Ok result) →
  let res := startOutboundCall isAvailable x phone socket now w in
  ∃ out s',
    res.2 = Returned out
    ∧ objs res.1 !! r = Some (with_status expired s)
    ∧ (now + RETENTION, k) ∈ timers res.1
    ∧ (∀ p, whatsappPeer s = Some p ∨ browserPeer s = Some p →
            PeerClose p ∈ effects res.1)
    ∧ map_get (sr_callId out) (calls res.1) = Some (length (objs w))
    ∧ objs res.1 !! length (objs w) = Some s'
    ∧ callId s' = sr_callId out ∧ direction s' = outbound
    ∧ status s' = sr_status out
    ∧ sr_status out = (if isAvailable then ringing else awaiting_browser_sdp).
Proof.
  intros Hkeys Hrefs Hgr Hin Hs Hrec Hfree Hext res. subst res.
  unfold startOutboundCall.
  pose proof (getPermissionStatus_frame phone now w) as Hperm.
  destruct (getPermissionStatus phone now w) as [wp st]. simpl in *.
  destruct Hperm as (_ & _ & _ & _ & Hpw). rewrite Hgr. simpl.
  rewrite (Hpw Hgr). clear Hpw wp.
  pose proof (expire_or_block_frame now (calls w) w) as (Hfc & _ & Hfl).
  pose proof (expire_or_block_passes now (calls w) w Hfree) as Hpass.
  assert (∀ e, e ∈ calls w → map_get e.1 (calls w) = Some e.2) as Hmap.
  { intros [k' r'] He. by apply map_get_elem. }
  pose proof (expire_or_block_reclaims now (calls w) w k r s Hrefs Hmap
                Hfree Hin Hs Hrec) as (Hexp & Htimer & Hpeers).
  destruct (expire_or_block now (calls w) w) as [wl cl]. simpl in *.
  subst cl.
  assert (r < length (objs wl))%nat as Hlt by (by apply lookup_lt_Some in Hexp).
  assert (∀ w' out, created wl w' out →
            objs w' !! r = Some (with_status expired s)
            ∧ (now + RETENTION, k) ∈ timers w'
            ∧ (∀ p, whatsappPeer s = Some p ∨ browserPeer s = Some p →
                    PeerClose p ∈ effects w')
            ∧ map_get (sr_callId out) (calls w') = Some (length (objs w))
            ∧ ∃ s', objs w' !! length (objs w) = Some s'
                ∧ callId s' = sr_callId out ∧ direction s' = outbound
                ∧ status s' = sr_status out) as Hfin.
  { intros w' out (s' & Ho & Hc & Ht & He & Hid & Hdir & Hst & _).
    split; [by rewrite Ho, lookup_app_l|].
    split; [by rewrite Ht|].
    split; [intros p Hp; by apply He, Hpeers|].
    split; [rewrite Hc, Hfl; apply map_get_set_eq|].
    exists s'. split; [|done].
    rewrite Ho, <- Hfl. by apply list_lookup_middle. }
  destruct isAvailable.
  - destruct (Hext eq_refl) as (sdp & result & Hoff & Hrep).
    pose proof (startOutboundCallWithServerWebRTC_created x phone wl) as Hcr.
    destruct (startOutboundCallWithServerWebRTC x phone wl) as [w' c] eqn:Hrun.
    assert (∃ out, c = Returned out) as [out ->].
    { revert Hrun. unfold startOutboundCallWithServerWebRTC.
      rewrite Hoff, Hrep. simpl. intros [= _ <-]. by eexists. }
    destruct (Hcr out eq_refl) as [Hcr' Hring]. simpl in *.
    destruct (Hfin w' out Hcr')
      as (H1 & H2 & H3 & H4 & s' & H5 & H6 & H7 & H8).
    exists out, s'. repeat split; done.
  - destruct (startOutboundCallBrowserOnly_created phone socket now wl)
      as (out & Hrun & Hout & Hcr).
    rewrite Hrun. simpl.
    destruct (Hfin _ out Hcr)
      as (H1 & H2 & H3 & H4 & s' & H5 & H6 & H7 & H8).
    exists out, s'. repeat split; try done. by rewrite Hout.
Qed.

Lemma stale_session_reclaimed_witness :
  let res := startOutboundCall false relay_ext "+15551234567"
               (Some (mkSocket "sock1")) 33000 awaiting_world in
  ∃ out, res.2 = Returned out
    ∧ (status <$> objs res.1 !! 0%nat) = Some expired
    ∧ (33000 + RETENTION, "call_2000") ∈ timers res.1
    ∧ map_get (sr_callId out) (calls res.1) = Some 1%nat
    ∧ sr_status out = awaiting_browser_sdp.
Proof.
  intros res.
  destruct (stale_session_reclaimed false relay_ext "+15551234567"
              (Some (mkSocket "sock1")) 33000 awaiting_world "call_2000"
              0%nat
              (mkCallState "call_2000" outbound "+15551234567"
                 awaiting_browser_sdp (Some "sock1") None None None 2000))
    as (out & s' & Hres & Hexp & Htimer & _ & Hget & _ & _ & _ & _ & Hst).
  - apply (bool_decide_unpack _). vm_compute. exact I.
  - apply (bool_decide_unpack _). vm_compute. exact I.
  - vm_compute. reflexivity.
  - vm_compute. left.
  - vm_compute. reflexivity.
  - split; [reflexivity|]. split; [reflexivity|]. vm_compute. reflexivity.
  - intros k' r' s' Hin Hs' Hb. revert Hin. vm_compute.
    intros [[= -> ->]|Hin]%elem_of_cons; [|by apply elem_of_nil in Hin].
    revert Hs'. vm_compute. intros [= <-].
    destruct Hb as [_ [Hb|[Hb|[Hb|[_ Hb]]]]]; try discriminate Hb.
    revert Hb. vm_compute. intros Hb. by apply Hb.
  - discriminate.
  - fold res in Hres, Hexp, Htimer, Hget. exists out.
    split; [exact Hres|]. split; [by rewrite Hexp|].
    split; [exact Htimer|]. split; [exact Hget|exact Hst].
Defined.

(** ** Rewriting the id of a session *)

(** C4 fails on the code when a local offer is repeated while the first one
    is in flight.  Both handlers pass the duplicate guard, because the
    status is still awaiting_browser_sdp; when the second one resumes it
    rewrites the id of the session to wacid.B but deletes the provisional
    key, which is gone already, instead of the current key wacid.A.  The
    session then sits under two keys, and the key wacid.A is not the
    [callId] of the session it leads to. *)
Theorem rekey_after_duplicate_offer :
  registry_consistent awaiting_world
  ∧ calls duplicate_offer_in_flight = [("wacid.A", 0%nat); ("wacid.B", 0%nat)]
  ∧ (callId <$> objs duplicate_offer_in_flight !! 0%nat) = Some "wacid.B"
  ∧ (callId <$> getCallState "wacid.A" duplicate_offer_in_flight)
    = Some "wacid.B"
  ∧ ¬ registry_consistent duplicate_offer_in_flight.
Proof.
  split.
  { split; [|split].
    - apply (bool_decide_unpack _). vm_compute. exact I.
    - apply (bool_decide_unpack _). vm_compute. exact I.
    - intros k r. vm_compute.
      intros [[= -> ->]|Hin]%elem_of_cons; [|by apply elem_of_nil in Hin].
      eexists. split; reflexivity. }
  split; [vm_compute; reflexivity|].
  split; [vm_compute; reflexivity|].
  split; [vm_compute; reflexivity|].
  intros (_ & Hrefs & _). revert Hrefs.
  assert ((calls duplicate_offer_in_flight).*2 = [0%nat; 0%nat]) as ->
    by (vm_compute; reflexivity).
  intros [Hnot _]%NoDup_cons. apply Hnot. left.
Qed.

(** When handlers run one after the other, the two steps that rewrite the
    id of a session keep the registry consistent. *)

Lemma registry_consistent_of w :
  registry_consistent w ↔ consistent_of (objs w) (calls w).
Proof. done. Qed.

Lemma map_delete_refs_NoDup (m : list (string * nat)) k :
  NoDup m.*2 → NoDup (map_delete k m).*2.
Proof.
  induction m as [|[k0 v0] m IH]; simpl; [done|].
  rewrite NoDup_cons. intros [Hv0 Hnd].
  destruct (decide (k0 = k)) as [->|Hk]; simpl; [by apply IH|].
  apply NoDup_cons. split; [|by apply IH].
  intros ([k' v'] & Heq & [_ Hin]%map_delete_elem)%list_elem_of_fmap.
  simpl in Heq. subst v'. apply Hv0.
  by apply (list_elem_of_fmap_2 snd _ (k', v0)).
Qed.

Lemma map_set_refs_NoDup (m : list (string * nat)) k r :
  NoDup m.*2 → r ∉ m.*2 → NoDup (map_set k r m).*2.
Proof.
  induction m as [|[k0 v0] m IH]; simpl.
  - intros _ _. apply NoDup_singleton.
  - rewrite NoDup_cons, not_elem_of_cons. intros [Hv0 Hnd] [Hne Hr].
    destruct (decide (k0 = k)) as [->|Hk]; simpl.
    + by apply NoDup_cons.
    + apply NoDup_cons. split; [|by apply IH].
      intros ([k' v'] & Heq & Hin)%list_elem_of_fmap. simpl in Heq. subst v'.
      apply map_set_elem in Hin as [[= _ ->]|Hin]; [done|].
      apply Hv0. by apply (list_elem_of_fmap_2 snd _ (k', v0)).
Qed.

Lemma refs_unique (m : list (string * nat)) k1 k2 r :
  NoDup m.*2 → (k1, r) ∈ m → (k2, r) ∈ m → k1 = k2.
Proof.
  induction m as [|[k0 v0] m IH]; simpl.
  - intros _ H. by apply elem_of_nil in H.
  - rewrite NoDup_cons. intros [Hv0 Hnd].
    intros [[= -> ->]|H1]%elem_of_cons [[= ->]|H2]%elem_of_cons.
    + done.
    + destruct Hv0. by apply (list_elem_of_fmap_2 snd _ (k2, v0)).
    + subst. destruct Hv0. by apply (list_elem_of_fmap_2 snd _ (k1, v0)).
    + by apply IH.
Qed.

(** [rekey]: delete the old key, set [callId], enter under the new key. *)
Lemma rekey_consistent os cs old new r :
  consistent_of os cs → map_get old cs = Some r →
  consistent_of (alter (with_callId new) r os)
    (map_set new r (map_delete old cs)).
Proof.
  intros (Hkeys & Hrefs & Hent) Hget.
  pose proof (map_get_Some_elem _ _ _ Hget) as Hin.
  assert (∀ k', (k', r) ∈ map_delete old cs → False) as Hgone.
  { intros k' [Hne Hin']%map_delete_elem. simpl in Hne.
    apply Hne. by apply (refs_unique cs k' old r). }
  split; [by apply map_set_NoDup, map_delete_NoDup|].
  split.
  - apply map_set_refs_NoDup; [by apply map_delete_refs_NoDup|].
    intros ([k' v'] & Heq & Hin')%list_elem_of_fmap. simpl in Heq. subst v'.
    by apply (Hgone k').
  - intros k r' [[= -> ->]|Hin']%map_set_elem.
    + destruct (Hent old r Hin) as (s & Hs & _).
      exists (with_callId new s). by rewrite list_lookup_alter_eq, Hs.
    + assert (r' ≠ r) as Hne by (intros ->; by apply (Hgone k)).
      apply map_delete_elem in Hin' as [_ Hin'].
      destruct (Hent k r' Hin') as (s & Hs & Hid).
      exists s. by rewrite list_lookup_alter_ne.
Qed.

(** Writing fields other than [callId] keeps the registry consistent. *)
Lemma alter_consistent os cs r f :
  (∀ s, callId (f s) = callId s) →
  consistent_of os cs → consistent_of (alter f r os) cs.
Proof.
  intros Hf (Hkeys & Hrefs & Hent). split; [done|]. split; [done|].
  intros k r' Hin. destruct (Hent k r' Hin) as (s & Hs & Hid).
  destruct (decide (r = r')) as [->|Hne].
  - exists (f s). rewrite list_lookup_alter_eq, Hs. by rewrite Hf.
  - exists s. by rewrite list_lookup_alter_ne.
Qed.

Lemma offer_resume_consistent id r reply now w :
  registry_consistent w → map_get id (calls w) = Some r →
  registry_consistent (handleBrowserSdpOffer_resume id r reply now w).
Proof.
  intros Hc Hget. unfold handleBrowserSdpOffer_resume.
  destruct (objs w !! r) as [s|] eqn:Hs; [|done].
  destruct reply as [result|err].
  - set (wa := js_or _ _). destruct (decide (wa = id)) as [Heq|Hne].
    + apply registry_consistent_of. simpl.
      apply alter_consistent; [done|].
      destruct Hc as (Hkeys & Hrefs & Hent). split; [done|]. split; [done|].
      intros k r' Hin. destruct (Hent k r' Hin) as (s' & Hs' & Hid).
      destruct (decide (r = r')) as [->|Hne'].
      * exists (with_callId wa s'). rewrite list_lookup_alter_eq, Hs'.
        split; [done|]. simpl. rewrite Heq.
        pose proof (map_get_Some_elem _ _ _ Hget) as Hin'.
        by apply (refs_unique (calls w) id k r').
      * exists s'. by rewrite list_lookup_alter_ne.
    + apply registry_consistent_of. simpl.
      apply alter_consistent; [done|]. by apply rekey_consistent.
  - apply registry_consistent_of. unfold emit, eff. cbn [objs calls].
    rewrite cleanup_objs, cleanup_calls. simpl.
    by apply alter_consistent.
Qed.

Lemma offer_rekey_consistent id sdpOffer reply now w :
  registry_consistent w →
  registry_consistent (handleBrowserSdpOffer id sdpOffer reply now w).
Proof.
  intros Hc. unfold handleBrowserSdpOffer, handleBrowserSdpOffer_begin.
  destruct (calls_get id w) as [[r s]|] eqn:Hget; [|done].
  apply calls_get_Some in Hget as [Hk Hs].
  destruct (bool_decide (status s = ringing) || bool_decide (status s = connected));
    [done|].
  by apply offer_resume_consistent.
Qed.

Lemma answer_applied_consistent r id sdpAnswer setRemote w :
  registry_consistent w →
  registry_consistent (answer_applied r id sdpAnswer setRemote w).1.
Proof.
  intros Hc. unfold answer_applied.
  assert (consistent_of (alter (with_status connected) r (objs w)) (calls w))
    as Ha by (by apply alter_consistent).
  match goal with |- context [objs ?w1 !! r] =>
    destruct (objs w1 !! r) as [s|]; [|exact Ha] end.
  destruct (whatsappPeer s); [destruct setRemote|]; exact Ha.
Qed.

Lemma answer_rekey_consistent id sdpAnswer setRemote w :
  registry_consistent w →
  registry_consistent (handleOutboundSdpAnswer id sdpAnswer setRemote w).1.
Proof.
  intros Hc. unfold handleOutboundSdpAnswer.
  destruct (calls_get id w) as [[r s]|] eqn:Hget.
  - by apply answer_applied_consistent.
  - unfold console, eff. cbn [objs calls].
    destruct (find_session answerable (objs w) (calls w)) as [[k r]|]
      eqn:Hfind; [|exact Hc].
    apply answer_applied_consistent. apply registry_consistent_of. simpl.
    apply rekey_consistent; [done|].
    destruct (find_session_Some _ _ _ _ _ Hfind) as (s & Hin & _).
    destruct Hc as (Hkeys & _). by apply map_get_elem.
Qed.

(** ** Consistency of the registry along runs without interleaving *)

(** Goals about worlds that differ from a consistent one by effects, timers
    and writes of fields other than [callId]. *)
Ltac consistent :=
  apply registry_consistent_of; simpl;
  rewrite ?cleanup_objs, ?cleanup_calls; simpl;
  repeat (apply alter_consistent; [done|]); done.

Lemma create_consistent os cs s id :
  consistent_of os cs → callId s = id →
  consistent_of (os ++ [s]) (map_set id (length os) cs).
Proof.
  intros (Hkeys & Hrefs & Hent) Hid.
  split; [by apply map_set_NoDup|]. split.
  - apply map_set_refs_NoDup; [done|].
    intros ([k r] & Heq & Hin)%list_elem_of_fmap. simpl in Heq. subst r.
    destruct (Hent k _ Hin) as (s' & Hs' & _).
    apply lookup_lt_Some in Hs'. lia.
  - intros k r [[= -> ->]|Hin]%map_set_elem.
    + exists s. split; [|done]. by apply list_lookup_middle.
    + destruct (Hent k r Hin) as (s' & Hs' & Hk).
      exists s'. split; [|done]. by apply lookup_app_l_Some.
Qed.

Lemma delete_consistent os cs k :
  consistent_of os cs → consistent_of os (map_delete k cs).
Proof.
  intros (Hkeys & Hrefs & Hent).
  split; [by apply map_delete_NoDup|].
  split; [by apply map_delete_refs_NoDup|].
  intros k' r [_ Hin]%map_delete_elem. by apply Hent.
Qed.

Lemma expire_or_block_consistent now l w :
  registry_consistent w → registry_consistent (expire_or_block now l w).1.
Proof.
  revert w. induction l as [|[k r] l IH]; intros w Hc; simpl; [done|].
  destruct (objs w !! r) as [s|]; [|by apply IH].
  destruct (active_outbound s); [|by apply IH].
  destruct (stale now s); [|done].
  apply IH. apply registry_consistent_of.
  rewrite cleanup_objs, cleanup_calls. simpl. by apply alter_consistent.
Qed.

Lemma reset_loop_consistent now l c w :
  registry_consistent w → registry_consistent (reset_loop now l c w).1.
Proof.
  revert c w. induction l as [|[k r] l IH]; intros c w Hc; simpl; [done|].
  destruct (objs w !! r) as [s|]; [|by apply IH].
  destruct (stuck s); [|by apply IH].
  apply IH. apply registry_consistent_of.
  rewrite cleanup_objs, cleanup_calls. simpl. by apply alter_consistent.
Qed.

Lemma startOutboundCall_consistent isAvailable x phone socket now w :
  registry_consistent w →
  registry_consistent (startOutboundCall isAvailable x phone socket now w).1.
Proof.
  intros Hc. unfold startOutboundCall.
  pose proof (getPermissionStatus_frame phone now w) as Hperm.
  destruct (getPermissionStatus phone now w) as [wp st]. simpl in Hperm.
  destruct Hperm as (Hpc & Hpo & _).
  assert (registry_consistent wp) as Hcp.
  { apply registry_consistent_of. by rewrite Hpc, Hpo. }
  destruct (granted st); simpl; [|done].
  pose proof (expire_or_block_consistent now (calls wp) wp Hcp) as Hl.
  destruct (expire_or_block now (calls wp) wp) as [wl [[]|e]]; [|done].
  simpl in Hl. destruct isAvailable.
  - unfold startOutboundCallWithServerWebRTC.
    destruct (ob_offer x); [|done]. destruct (ob_reply x); [|done].
    apply registry_consistent_of. simpl. by apply create_consistent.
  - apply registry_consistent_of. simpl. by apply create_consistent.
Qed.

Lemma status_applied_consistent r id statusValue now w :
  registry_consistent w →
  registry_consistent (status_applied r id statusValue now w).
Proof.
  intros Hc. unfold status_applied. repeat case_decide;
    apply registry_consistent_of; unfold emit, eff; cbn [objs calls];
    rewrite ?cleanup_objs, ?cleanup_calls; simpl;
    try (by apply alter_consistent); done.
Qed.

Lemma handleOutboundStatus_consistent id statusValue now w :
  registry_consistent w →
  registry_consistent (handleOutboundStatus id statusValue now w).
Proof.
  intros Hc. unfold handleOutboundStatus.
  destruct (calls_get id w) as [[r s]|];
    [by apply status_applied_consistent|].
  destruct (find_session status_target (objs w) (calls w)) as [[k r]|];
    simpl; [by apply status_applied_consistent|done].
Qed.

Lemma handleInboundCall_consistent id from sdpOffer now w :
  registry_consistent w →
  registry_consistent (handleInboundCall id from sdpOffer now w).
Proof.
  intros Hc. apply registry_consistent_of. simpl. by apply create_consistent.
Qed.

Lemma acceptInboundCall_consistent isAvailable x id socket w :
  registry_consistent w →
  registry_consistent (acceptInboundCall isAvailable x id socket w).1.
Proof.
  intros Hc. unfold acceptInboundCall.
  destruct (calls_get id w) as [[r s]|]; [|done].
  destruct (negb _); [done|].
  destruct isAvailable; [|consistent].
  destruct (ac_answer x); [|consistent].
  destruct (ac_pre_accept x); [|consistent].
  destruct (ac_accept x); consistent.
Qed.

Lemma handleBrowserSdpAnswer_consistent isAvailable x id sdpAnswer w :
  registry_consistent w →
  registry_consistent
    (handleBrowserSdpAnswer isAvailable x id sdpAnswer w).1.
Proof.
  intros Hc. unfold handleBrowserSdpAnswer.
  destruct (calls_get id w) as [[r s]|]; [|done].
  destruct (_ && _).
  - destruct (an_pre_accept x); [|done].
    destruct (an_accept x); consistent.
  - destruct (whatsappPeer s), (browserPeer s); try done.
    by destruct (an_setRemote x).
Qed.

Lemma teardown_consistent id now w :
  registry_consistent w →
  registry_consistent (handleTerminate id now w)
  ∧ (∀ provider, registry_consistent (endCall provider id now w).1)
  ∧ (∀ provider, registry_consistent (rejectInboundCall provider id now w).1).
Proof.
  intros Hc. unfold handleTerminate, endCall, rejectInboundCall.
  destruct (calls_get id w) as [[r s]|]; [|done].
  assert (consistent_of (alter (with_status terminated) r (objs w)) (calls w))
    as Ht by (by apply alter_consistent).
  assert (consistent_of (alter (with_status rejected) r (objs w)) (calls w))
    as Hr by (by apply alter_consistent).
  split; [|split].
  - apply registry_consistent_of. by rewrite cleanup_objs, cleanup_calls.
  - intros provider. apply registry_consistent_of. simpl.
    rewrite cleanup_objs, cleanup_calls. by destruct provider.
  - intros provider. destruct (negb _); [done|].
    apply registry_consistent_of. simpl.
    rewrite cleanup_objs, cleanup_calls. by destruct provider.
Qed.

Lemma resetCalls_consistent io now w :
  registry_consistent w → registry_consistent (resetCalls io now w).1.
Proof.
  intros Hc. unfold resetCalls.
  pose proof (reset_loop_consistent now (calls w) 0 w Hc) as Hl.
  destruct (reset_loop now (calls w) 0 w) as [wl n]. by destruct io.
Qed.

Lemma run_timers_consistent now w :
  registry_consistent w → registry_consistent (run_timers now w).
Proof.
  intros Hc. unfold run_timers.
  generalize (filter (λ t : Z * string, t.1 ≤ now) (timers w)).
  intros due.
  assert (registry_consistent
            (set_timers (filter (λ t : Z * string, ¬ t.1 ≤ now)) w)) as Hc'
    by done.
  revert Hc'. generalize (set_timers (filter (λ t : Z * string, ¬ t.1 ≤ now)) w).
  induction due as [|t due IH]; intros w' Hc'; simpl; [done|].
  apply IH. apply registry_consistent_of. simpl. by apply delete_consistent.
Qed.

Lemma atomic_step_consistent w w' :
  atomic_step w w' → registry_consistent w → registry_consistent w'.
Proof.
  intros Hstep Hc. destruct Hstep.
  - done.
  - pose proof (getPermissionStatus_frame phone now w) as (Hpc & Hpo & _).
    apply registry_consistent_of. by rewrite Hpc, Hpo.
  - by apply startOutboundCall_consistent.
  - by apply offer_rekey_consistent.
  - by apply answer_rekey_consistent.
  - by apply handleOutboundStatus_consistent.
  - by apply handleInboundCall_consistent.
  - by apply acceptInboundCall_consistent.
  - by apply handleBrowserSdpAnswer_consistent.
  - by apply teardown_consistent.
  - by apply teardown_consistent.
  - by apply teardown_consistent.
  - by apply resetCalls_consistent.
  - by apply run_timers_consistent.
Qed.

(** Every world reached from the empty one by handlers that run one after
    the other has a consistent registry. *)
Lemma reachable_consistent w :
  rtc atomic_step init w → registry_consistent w.
Proof.
  intros Hrun.
  assert (registry_consistent init) as Hinit.
  { split; [apply NoDup_nil_2|]. split; [apply NoDup_nil_2|].
    intros k r Hin. by apply elem_of_nil in Hin. }
  revert Hinit. induction Hrun as [|w1 w2 w3 Hstep _ IH]; [done|].
  intros Hc. apply IH. by apply (atomic_step_consistent w1).
Qed.

(** * Further properties of the code *)

(** ** Lookups in worlds reached without interleaving *)

(** X1: in every world reached from the empty one by handlers that run one
    after the other (timers included), a lookup by call id returns a
    session whose own [callId] is that id, every registered reference
    leads to a session, and no session is registered under two ids. *)
Theorem lookup_returns_own_id (w : World) :
  rtc atomic_step init w →
  (∀ id s, getCallState id w = Some s → callId s = id)
  ∧ (∀ id r, map_get id (calls w) = Some r → is_Some (objs w !! r))
  ∧ (∀ id id' r, map_get id (calls w) = Some r →
       map_get id' (calls w) = Some r → id = id').
Proof.
  intros (Hkeys & Hrefs & Hent)%reachable_consistent. split; [|split].
  - intros id s. unfold getCallState.
    destruct (calls_get id w) as [[r s']|] eqn:Hget; [|done].
    simpl. intros [= ->].
    apply calls_get_Some in Hget as [Hk Hs].
    destruct (Hent id r (map_get_Some_elem _ _ _ Hk)) as (s'' & Hs'' & Hid).
    congruence.
  - intros id r Hk.
    destruct (Hent id r (map_get_Some_elem _ _ _ Hk)) as (s & -> & _).
    by eexists.
  - intros id id' r H1 H2.
    apply (refs_unique (calls w) id id' r Hrefs); by apply map_get_Some_elem.
Qed.

Lemma lookup_returns_own_id_witness :
  (callId <$> getCallState "wacid.A" two_stuck_world) = Some "wacid.A"
  ∧ (callId <$> getCallState "WA1" two_stuck_world) = Some "WA1".
Proof.
  assert (∀ id s, getCallState id two_stuck_world = Some s → callId s = id)
    as Hown; [|split].
  2: { destruct (getCallState "wacid.A" two_stuck_world) as [s|] eqn:E;
         [|vm_compute in E; discriminate E].
       simpl. f_equal. by apply Hown. }
  2: { destruct (getCallState "WA1" two_stuck_world) as [s|] eqn:E;
         [|vm_compute in E; discriminate E].
       simpl. f_equal. by apply Hown. }
  apply (lookup_returns_own_id two_stuck_world).
  eapply rtc_l; [apply (step_grant "+15551234567" 1000)|].
  eapply rtc_l; [apply (step_start false relay_ext "+15551234567"
                          (Some (mkSocket "sock1")) 2000)|].
  eapply rtc_l; [apply (step_offer "call_2000" "SDP-O"
                          (Ok (mkInitiateResult (Some "wacid.A") None None))
                          2500)|].
  eapply rtc_l; [apply (step_inbound "WA1" "+15557654321" (Some "SDP-I")
                          3000)|].
  apply rtc_refl.
Defined.

(** ** Local offers *)

Lemma api_calls_app es es' :
  api_calls (es ++ es') = api_calls es ++ api_calls es'.
Proof. apply omap_app. Qed.

Lemma api_calls_closes (ps : list nat) : api_calls (PeerClose <$> ps) = [].
Proof. by induction ps. Qed.

Lemma emits_app es es' : emits (es ++ es') = emits es ++ emits es'.
Proof. apply omap_app. Qed.

Lemma emits_closes (ps : list nat) : emits (PeerClose <$> ps) = [].
Proof. by induction ps. Qed.

(** The effects of a world that went through [cleanup] for a registered
    id, in terms of the world before. *)
Ltac effects_norm :=
  cbn [effects objs calls permissions timers update set_objs set_calls
       set_timers set_permissions emit console console2 api eff fst snd];
  rewrite ?api_calls_app, ?api_calls_closes, ?emits_app, ?emits_closes;
  cbn [api_calls emits omap list_omap option_list fmap list_fmap];
  rewrite ?app_nil_r, <- ?app_assoc.

Lemma offer_guard_cases s :
  bool_decide (status s = ringing) || bool_decide (status s = connected)
  = true
  ↔ status s = ringing ∨ status s = connected.
Proof. destruct (status s); simpl; naive_solver. Qed.

(** X2: the duplicate guard of [handleBrowserSdpOffer] looks at two
    statuses only.  For a registered session that is ringing or connected
    the offer is dropped with a warning: no provider call and no change of
    state.  In every other status, the terminal ones included, the offer
    is forwarded: exactly one initiate request goes to the provider, for
    the phone of the session and with the offered SDP. *)
Theorem offer_forwarded_unless_ringing_or_connected
  (id sdpOffer : string) (reply : Reply InitiateResult) (now : Z) (w : World)
  (r : nat) (s : CallState) :
  calls_get id w = Some (r, s) →
  let w' := handleBrowserSdpOffer id sdpOffer reply now w in
  (status s = ringing ∨ status s = connected →
     same_state w w' ∧ api_calls (effects w') = api_calls (effects w)
     ∧ effects w'
       = effects w
         ++ [Console WARN
               ["[CallManager] Call " +:+ id +:+ " already in progress ("
                +:+ status_str (status s)
                +:+ "), ignoring duplicate SDP offer"]])
  ∧ (¬ (status s = ringing ∨ status s = connected) →
     api_calls (effects w')
     = api_calls (effects w)
       ++ [initiateOutboundCall (recipientPhone s) sdpOffer]).
Proof.
  intros Hget w'. subst w'.
  unfold handleBrowserSdpOffer, handleBrowserSdpOffer_begin. rewrite Hget.
  pose proof (offer_guard_cases s) as Hguard.
  destruct (bool_decide (status s = ringing)
            || bool_decide (status s = connected)).
  - split; [|intros Hno; destruct Hno; by apply Hguard].
    intros _. split; [done|]. split; [|done].
    effects_norm. simpl. by rewrite ?app_nil_r.
  - split; [intros Hyes; destruct Hguard as [_ Hg]; by specialize (Hg Hyes)|].
    intros _.
    apply calls_get_Some in Hget as [Hk Hs].
    unfold handleBrowserSdpOffer_resume. simpl. rewrite Hs.
    destruct reply as [result|err].
    + set (wa := js_or _ _). destruct (decide (wa = id)); simpl;
        rewrite ?api_calls_app; simpl; by rewrite ?app_nil_r.
    + unfold emit, eff. cbn [effects].
      match goal with |- context [cleanup id now ?w0] =>
        pose proof (cleanup_known id now w0 r (with_status failed s)) as Hcl
      end.
      destruct Hcl as [_ He].
      { apply calls_get_Some. simpl. split; [exact Hk|].
        by rewrite list_lookup_alter_eq, Hs. }
      rewrite He. cbn [effects update set_objs console2 api console eff].
      rewrite !api_calls_app, !api_calls_closes. simpl.
      by rewrite !app_nil_r.
Qed.

Lemma offer_forwarded_unless_ringing_or_connected_witness :
  let ended := (endCall (Ok ()) "wacid.A" 3000 two_stuck_world).1 in
  api_calls (effects (handleBrowserSdpOffer "wacid.A" "SDP-2"
                        (Ok (mkInitiateResult None None None)) 4000
                        two_stuck_world))
  = api_calls (effects two_stuck_world)
  ∧ (status <$> getCallState "wacid.A" ended) = Some terminated
  ∧ api_calls (effects (handleBrowserSdpOffer "wacid.A" "SDP-2"
                          (Ok (mkInitiateResult None None None)) 4000 ended))
    = api_calls (effects ended)
      ++ [initiateOutboundCall "+15551234567" "SDP-2"].
Proof.
  intros ended. split; [|split; [vm_compute; reflexivity|]].
  - destruct (offer_forwarded_unless_ringing_or_connected "wacid.A" "SDP-2"
                (Ok (mkInitiateResult None None None)) 4000 two_stuck_world
                0%nat
                (mkCallState "wacid.A" outbound "+15551234567" ringing
                   (Some "sock1") None None None 2000)) as [Hdup _].
    { vm_compute. reflexivity. }
    destruct Hdup as (_ & Hapi & _); [left; reflexivity|exact Hapi].
  - destruct (offer_forwarded_unless_ringing_or_connected "wacid.A" "SDP-2"
                (Ok (mkInitiateResult None None None)) 4000 ended 0%nat
                (mkCallState "wacid.A" outbound "+15551234567" terminated
                   (Some "sock1") None None None 2000)) as [_ Hfwd].
    { vm_compute. reflexivity. }
    apply Hfwd. intros [H|H]; discriminate H.
Defined.

Lemma offer_passes_guard id sdpOffer reply now w r s :
  calls_get id w = Some (r, s) →
  ¬ (status s = ringing ∨ status s = connected) →
  handleBrowserSdpOffer id sdpOffer reply now w
  = handleBrowserSdpOffer_resume id r reply now
      (api (initiateOutboundCall (recipientPhone s) sdpOffer)
         (console LOG
            ("[CallManager] Sending SDP offer to WhatsApp API for "
             +:+ recipientPhone s +:+ "...") w)).
Proof.
  intros Hget Hno.
  unfold handleBrowserSdpOffer, handleBrowserSdpOffer_begin. rewrite Hget.
  pose proof (offer_guard_cases s) as [Hg _].
  destruct (bool_decide (status s = ringing)
            || bool_decide (status s = connected)); [|done].
  destruct Hno. by apply Hg.
Qed.

(** X3: when the provider refuses the initiate request of a local offer,
    the session stays under its id and ends in status failed, cleanup sets
    its retention timer, and one call-error event is broadcast whose
    message is the provider's [error.message] when the response carries
    one, and [err.message] otherwise. *)
Theorem offer_provider_failure (id sdpOffer : string) (e : ExtError)
  (now : Z) (w : World) (r : nat) (s : CallState) :
  calls_get id w = Some (r, s) →
  ¬ (status s = ringing ∨ status s = connected) →
  let w' := handleBrowserSdpOffer id sdpOffer (Fail e) now w in
  calls_get id w' = Some (r, with_status failed s)
  ∧ calls w' = calls w
  ∧ timers w' = timers w ++ [(now + RETENTION, id)]
  ∧ emits (effects w')
    = emits (effects w)
      ++ [(Broadcast, "call-error",
           [("callId", JStr id);
            ("error", JStr (match response_error_message e with
                            | Some m => if decide (m = "") then message e
                                        else m
                            | None => message e
                            end))])].
Proof.
  intros Hget Hno w'. subst w'.
  rewrite (offer_passes_guard id sdpOffer (Fail e) now w r s Hget Hno).
  pose proof Hget as [Hk Hs]%calls_get_Some.
  unfold handleBrowserSdpOffer_resume. simpl. rewrite Hs.
  match goal with |- context [cleanup id now ?w0] =>
    pose proof (cleanup_known id now w0 r (with_status failed s)) as Hcl
  end.
  destruct Hcl as [Ht He].
  { apply calls_get_Some. simpl. split; [exact Hk|].
    by rewrite list_lookup_alter_eq, Hs. }
  split.
  { apply calls_get_Some. unfold emit, eff. cbn [calls objs].
    rewrite cleanup_calls, cleanup_objs. simpl. split; [exact Hk|].
    by rewrite list_lookup_alter_eq, Hs. }
  split; [unfold emit, eff; cbn [calls]; by rewrite cleanup_calls|].
  split; [unfold emit, eff; cbn [timers]; by rewrite Ht|].
  unfold emit, eff. cbn [effects]. rewrite He.
  cbn [effects update set_objs console2 api console eff].
  rewrite !emits_app, !emits_closes. simpl.
  rewrite !app_nil_r. unfold err_msg, js_or. done.
Qed.

Lemma offer_provider_failure_witness :
  let e := mkExtError "Request failed with status code 400" (Some "{...}")
             (Some "Invalid SDP") in
  let w' := handleBrowserSdpOffer "call_2000" "SDP-O" (Fail e) 2500
              awaiting_world in
  (status <$> getCallState "call_2000" w') = Some failed
  ∧ timers w' = [(2500 + RETENTION, "call_2000")]
  ∧ last (emits (effects w'))
    = Some (Broadcast, "call-error",
            [("callId", JStr "call_2000"); ("error", JStr "Invalid SDP")]).
Proof.
  intros e w'.
  destruct (offer_provider_failure "call_2000" "SDP-O" e 2500 awaiting_world
              0%nat
              (mkCallState "call_2000" outbound "+15551234567"
                 awaiting_browser_sdp (Some "sock1") None None None 2000))
    as (Hget & _ & Ht & He).
  - vm_compute. reflexivity.
  - intros [H|H]; discriminate H.
  - fold w' in Hget, Ht, He. unfold getCallState. rewrite Hget, Ht, He.
    split; [reflexivity|]. split; [reflexivity|]. apply last_snoc.
Defined.

(** X4: when the provider accepts the initiate request of a local offer,
    the session adopts the first non-empty of [calls[0].id], [call_id] and
    [id] of the reply, and keeps its provisional id when there is none.  It
    is then found under the adopted id, ringing and with that [callId]; if
    the id changed, nothing is found under the old one; the entries under
    all other ids are as before; and call-ringing is broadcast with the
    adopted id. *)
Theorem offer_adopts_provider_id (id sdpOffer : string)
  (result : InitiateResult) (now : Z) (w : World) (r : nat) (s : CallState) :
  calls_get id w = Some (r, s) →
  ¬ (status s = ringing ∨ status s = connected) →
  let adopted :=
    match truthy (res_calls0_id result), truthy (res_call_id result),
          truthy (res_id result) with
    | Some a, _, _ => a
    | None, Some b, _ => b
    | None, None, Some c => c
    | None, None, None => id
    end in
  let w' := handleBrowserSdpOffer id sdpOffer (Ok result) now w in
  calls_get adopted w'
  = Some (r, with_status ringing (with_callId adopted s))
  ∧ (adopted ≠ id → getCallState id w' = None)
  ∧ (∀ k, k ≠ id → k ≠ adopted →
       map_get k (calls w') = map_get k (calls w))
  ∧ timers w' = timers w
  ∧ emits (effects w')
    = emits (effects w)
      ++ [(Broadcast, "call-ringing",
           [("callId", JStr adopted);
            ("phone", JStr (recipientPhone s))])].
Proof.
  intros Hget Hno adopted w'. subst w'.
  rewrite (offer_passes_guard id sdpOffer (Ok result) now w r s Hget Hno).
  pose proof Hget as [Hk Hs]%calls_get_Some.
  unfold handleBrowserSdpOffer_resume. simpl. rewrite Hs.
  assert (js_or (res_calls0_id result)
            (js_or (res_call_id result) (js_or (res_id result) id))
          = adopted) as ->.
  { subst adopted. unfold js_or, truthy.
    destruct (res_calls0_id result) as [a|], (res_call_id result) as [b|],
      (res_id result) as [c|]; repeat case_decide; done. }
  case_decide as Hd.
  - split.
    { apply calls_get_Some. simpl. rewrite Hd. split; [exact Hk|].
      by rewrite !list_lookup_alter_eq, Hs. }
    split; [intros Hn; by destruct Hn|].
    split; [intros k _ _; reflexivity|]. split; [reflexivity|].
    effects_norm. done.
  - split.
    { apply calls_get_Some. simpl. split; [apply map_get_set_eq|].
      by rewrite !list_lookup_alter_eq, Hs. }
    split.
    { intros _. unfold getCallState, calls_get. simpl.
      rewrite map_get_set_ne by done. by rewrite map_get_delete_eq. }
    split.
    { intros k Hk1 Hk2. simpl. rewrite map_get_set_ne by done.
      by rewrite map_get_delete_ne. }
    split; [done|]. effects_norm. done.
Qed.

Lemma offer_adopts_provider_id_witness :
  let w' := handleBrowserSdpOffer "call_2000" "SDP-O"
              (Ok (mkInitiateResult (Some "") (Some "wacid.B") (Some "x")))
              2500 awaiting_world in
  (callId <$> getCallState "wacid.B" w') = Some "wacid.B"
  ∧ getCallState "call_2000" w' = None.
Proof.
  intros w'.
  set (s0 := mkCallState "call_2000" outbound "+15551234567"
               awaiting_browser_sdp (Some "sock1") None None None 2000).
  destruct (offer_adopts_provider_id "call_2000" "SDP-O"
              (mkInitiateResult (Some "") (Some "wacid.B") (Some "x")) 2500
              awaiting_world 0%nat s0)
    as (Hget & Hold & _).
  - vm_compute. reflexivity.
  - intros [H|H]; discriminate H.
  - split.
    + unfold getCallState.
      rewrite (Hget : calls_get "wacid.B" w'
                      = Some (0%nat,
                              with_status ringing (with_callId "wacid.B" s0))).
      reflexivity.
    + apply Hold. discriminate.
Defined.

(** ** Remote answers *)

(** X5: a remote answer for a registered call id sets the session to
    connected whatever its direction and status were.  Without a
    provider-side peer the SDP is relayed, to the room of the socket that
    started the call when the session records one and to everybody
    otherwise, and call-connected is broadcast once.  With a provider-side
    peer the browser is asked to set up its audio and call-connected is
    broadcast once, provided [setRemoteAnswer] succeeds; if it fails the
    handler throws that error after the status has already become
    connected, and no event is emitted at all. *)
Theorem remote_answer_for_registered_call (id sdpAnswer : string)
  (setRemote : Reply unit) (w : World) (r : nat) (s : CallState) :
  calls_get id w = Some (r, s) →
  let res := handleOutboundSdpAnswer id sdpAnswer setRemote w in
  let target := match socketId s with
                | Some sid => if decide (sid = "") then Broadcast
                              else ToRoom sid
                | None => Broadcast
                end in
  let connected_event :=
    (Broadcast, "call-connected",
     [("callId", JStr id); ("phone", JStr (recipientPhone s))]) in
  calls_get id res.1 = Some (r, with_status connected s)
  ∧ calls res.1 = calls w ∧ timers res.1 = timers w
  ∧ match whatsappPeer s, setRemote with
    | None, _ =>
        res.2 = Returned ()
        ∧ emits (effects res.1)
          = emits (effects w)
            ++ [(target, "sdp-answer-from-whatsapp",
                 [("callId", JStr id); ("sdp", JStr sdpAnswer)]);
                connected_event]
    | Some _, Ok _ =>
        res.2 = Returned ()
        ∧ emits (effects res.1)
          = emits (effects w)
            ++ [(target, "setup-browser-audio", [("callId", JStr id)]);
                connected_event]
    | Some _, Fail e =>
        res.2 = Thrown (External e)
        ∧ emits (effects res.1) = emits (effects w)
    end.
Proof.
  intros Hget res target connected_event. subst res connected_event.
  unfold handleOutboundSdpAnswer. rewrite Hget.
  apply calls_get_Some in Hget as [Hk Hs].
  unfold answer_applied. simpl. rewrite list_lookup_alter_eq, Hs. simpl.
  assert (match truthy (socketId s) with
          | Some sid => ToRoom sid
          | None => Broadcast
          end = target) as ->.
  { subst target. unfold truthy. destruct (socketId s) as [sid|]; [|done].
    by case_decide. }
  destruct (whatsappPeer s) as [p|]; [destruct setRemote as [[]|e]|].
  - split; [apply calls_get_Some; simpl;
            by rewrite list_lookup_alter_eq, Hs|].
    do 3 (split; [done|]). effects_norm. done.
  - split; [apply calls_get_Some; simpl;
            by rewrite list_lookup_alter_eq, Hs|].
    do 3 (split; [done|]). effects_norm. done.
  - split; [apply calls_get_Some; simpl;
            by rewrite list_lookup_alter_eq, Hs|].
    do 3 (split; [done|]). effects_norm. done.
Qed.

Lemma remote_answer_for_registered_call_witness :
  let res := handleOutboundSdpAnswer "wacid.A" "SDP-A" (Ok ())
               two_stuck_world in
  (status <$> getCallState "wacid.A" res.1) = Some connected
  ∧ emits (effects res.1)
    = emits (effects two_stuck_world)
      ++ [(ToRoom "sock1", "sdp-answer-from-whatsapp",
           [("callId", JStr "wacid.A"); ("sdp", JStr "SDP-A")]);
          (Broadcast, "call-connected",
           [("callId", JStr "wacid.A"); ("phone", JStr "+15551234567")])].
Proof.
  intros res.
  set (s0 := mkCallState "wacid.A" outbound "+15551234567" ringing
               (Some "sock1") None None None 2000).
  destruct (remote_answer_for_registered_call "wacid.A" "SDP-A" (Ok ())
              two_stuck_world 0%nat s0) as (Hget & _ & _ & _ & Hemit).
  - vm_compute. reflexivity.
  - split; [|exact Hemit]. unfold getCallState.
    rewrite (Hget : calls_get "wacid.A" res.1
                    = Some (0%nat, with_status connected s0)).
    reflexivity.
Defined.

Lemma answerable_spec s :
  answerable s = true
  ↔ direction s = outbound ∧ (status s = ringing ∨ status s = accepted).
Proof.
  unfold answerable. destruct (direction s), (status s); simpl;
    split; intros H; try done; try (split; [done|]; auto);
    destruct H as [? [?|?]]; done.
Qed.

(** X6: a remote answer for a call id that is not registered is given to
    the first session, in registry order, that is outbound and ringing or
    accepted (a session that is still awaiting_browser_sdp is not a
    candidate).  That session leaves its old id, is registered under the
    arriving id with that [callId], and becomes connected; the entries
    under all other ids stay as they are. *)
Theorem remote_answer_adopted_by_first_ringing (id sdpAnswer : string)
  (setRemote : Reply unit) (w : World)
  (l1 l2 : list (string * nat)) (k : string) (r : nat) (s : CallState) :
  map_get id (calls w) = None →
  calls w = l1 ++ (k, r) :: l2 →
  objs w !! r = Some s →
  direction s = outbound → status s = ringing ∨ status s = accepted →
  (∀ k' r' s', (k', r') ∈ l1 → objs w !! r' = Some s' →
     ¬ (direction s' = outbound
        ∧ (status s' = ringing ∨ status s' = accepted))) →
  let w' := (handleOutboundSdpAnswer id sdpAnswer setRemote w).1 in
  calls_get id w'
  = Some (r, with_status connected (with_callId id s))
  ∧ map_get k (calls w') = None
  ∧ (∀ k', k' ≠ k → k' ≠ id →
       map_get k' (calls w') = map_get k' (calls w))
  ∧ timers w' = timers w.
Proof.
  intros Hnone Hcalls Hs Hdir Hst Hfirst w'. subst w'.
  assert (calls_get id w = None) as Hget
    by (unfold calls_get; by rewrite Hnone).
  assert (find_session answerable (objs w) (calls w) = Some (k, r)) as Hfind.
  { rewrite Hcalls. apply (find_session_first _ _ _ _ _ _ s); [done| |].
    - by apply answerable_spec.
    - intros k' r' s' Hin Hs'. destruct (answerable s') eqn:Ha; [|done].
      apply answerable_spec in Ha. by destruct (Hfirst k' r' s' Hin Hs'). }
  assert (k ≠ id) as Hne.
  { intros ->. apply map_get_None in Hnone. apply Hnone.
    rewrite Hcalls, fmap_app, fmap_cons. apply elem_of_app. right. left. }
  unfold handleOutboundSdpAnswer. rewrite Hget.
  cbn [console eff objs calls]. rewrite Hfind.
  unfold answer_applied. simpl.
  rewrite !list_lookup_alter_eq, Hs. simpl.
  assert (∀ w0 : World * Completion unit,
            calls w0.1 = map_set id r (map_delete k (calls w)) →
            objs w0.1 = alter (with_status connected) r
                          (alter (with_callId id) r (objs w)) →
            timers w0.1 = timers w →
            calls_get id w0.1
            = Some (r, with_status connected (with_callId id s))
            ∧ map_get k (calls w0.1) = None
            ∧ (∀ k', k' ≠ k → k' ≠ id →
                 map_get k' (calls w0.1) = map_get k' (calls w))
            ∧ timers w0.1 = timers w) as Hfin.
  { intros w0 Hc Ho Ht. split.
    - apply calls_get_Some. rewrite Hc, Ho. split; [apply map_get_set_eq|].
      by rewrite !list_lookup_alter_eq, Hs.
    - rewrite Hc. split.
      + rewrite map_get_set_ne by done. apply map_get_delete_eq.
      + split; [|done]. intros k' Hk1 Hk2.
        rewrite map_get_set_ne by done. by apply map_get_delete_ne. }
  destruct (whatsappPeer s); [destruct setRemote|]; by apply Hfin.
Qed.

Lemma remote_answer_adopted_by_first_ringing_witness :
  let w' := (handleOutboundSdpAnswer "call_2000" "SDP-A" (Ok ())
               two_stuck_world).1 in
  (status <$> getCallState "call_2000" w') = Some connected
  ∧ getCallState "wacid.A" w' = None.
Proof.
  intros w'.
  set (s0 := mkCallState "wacid.A" outbound "+15551234567" ringing
               (Some "sock1") None None None 2000).
  destruct (remote_answer_adopted_by_first_ringing "call_2000" "SDP-A" (Ok ())
              two_stuck_world [] [("WA1", 1%nat)] "wacid.A" 0%nat s0)
    as (Hget & Hold & _).
  - vm_compute. reflexivity.
  - vm_compute. reflexivity.
  - vm_compute. reflexivity.
  - reflexivity.
  - left. reflexivity.
  - intros k' r' s' Hin. by apply elem_of_nil in Hin.
  - split.
    + unfold getCallState.
      rewrite (Hget : calls_get "call_2000" w'
                      = Some (0%nat,
                              with_status connected
                                (with_callId "call_2000" s0))).
      reflexivity.
    + unfold getCallState, calls_get.
      rewrite (Hold : map_get "wacid.A" (calls w') = None). reflexivity.
Defined.

(** ** Inbound calls *)

Lemma map_set_length_known {V} (m : list (string * V)) k v :
  is_Some (map_get k m) → length (map_set k v m) = length m.
Proof.
  induction m as [|[k0 v0] m IH]; simpl; [by intros [? ?]|].
  destruct (decide (k0 = k)); simpl; [done|]. intros H. by rewrite IH.
Qed.

Lemma map_set_length_new {V} (m : list (string * V)) k v :
  map_get k m = None → length (map_set k v m) = S (length m).
Proof.
  induction m as [|[k0 v0] m IH]; simpl; [done|].
  destruct (decide (k0 = k)); simpl; [done|]. intros H. by rewrite IH.
Qed.

(** X7: an inbound-call event registers a fresh inbound session under the
    call id, in status incoming, with the caller, the offer and the
    creation time of the event, and broadcasts call-incoming.  If the id
    was registered already (the event is delivered again, say), the entry
    is replaced: the registry keeps its size, and whatever status the
    earlier session had reached, the call is incoming again.  Entries
    under other ids and all existing objects are left alone. *)
Theorem inbound_call_registers_or_replaces (id from : string)
  (sdpOffer : option string) (now : Z) (w : World) :
  let w' := handleInboundCall id from sdpOffer now w in
  getCallState id w'
  = Some (mkCallState id inbound from incoming None sdpOffer None None now)
  ∧ (∀ k, k ≠ id → map_get k (calls w') = map_get k (calls w))
  ∧ (∀ r s, objs w !! r = Some s → objs w' !! r = Some s)
  ∧ length (calls w')
    = match map_get id (calls w) with
      | Some _ => length (calls w)
      | None => S (length (calls w))
      end
  ∧ timers w' = timers w
  ∧ emits (effects w')
    = emits (effects w)
      ++ [(Broadcast, "call-incoming",
           [("callId", JStr id); ("from", JStr from);
            ("timestamp", JDate now)])].
Proof.
  intros w'. subst w'. unfold handleInboundCall. simpl.
  split.
  { unfold getCallState, calls_get. simpl. rewrite map_get_set_eq.
    by rewrite list_lookup_middle. }
  split; [intros k Hk; by apply map_get_set_ne|].
  split; [intros r s Hs; by apply lookup_app_l_Some|].
  split.
  { destruct (map_get id (calls w)) eqn:Hget.
    - apply map_set_length_known. by rewrite Hget.
    - by apply map_set_length_new. }
  split; [done|]. effects_norm. done.
Qed.

Lemma inbound_call_registers_or_replaces_witness :
  let w := connected_world in
  let w' := handleInboundCall "wacid.A" "+15557654321" (Some "SDP-I") 9000 w in
  (status <$> getCallState "wacid.A" w) = Some connected
  ∧ ((λ s, (direction s, status s)) <$> getCallState "wacid.A" w')
    = Some (inbound, incoming)
  ∧ length (calls w') = length (calls w)
  ∧ (status <$> objs w' !! 0%nat) = Some connected.
Proof.
  intros w w'.
  destruct (inbound_call_registers_or_replaces "wacid.A" "+15557654321"
              (Some "SDP-I") 9000 w) as (Hget & _ & Hobjs & Hlen & _).
  fold w' in Hget, Hobjs, Hlen.
  split; [vm_compute; reflexivity|]. split; [by rewrite Hget|].
  split; [rewrite Hlen; vm_compute; reflexivity|].
  destruct (objs w !! 0%nat) as [s|] eqn:E; [|vm_compute in E; discriminate].
  rewrite (Hobjs _ _ E). vm_compute in E. by injection E as <-.
Defined.

(** X8: the answer of the browser to an inbound call, in relay mode, is
    turned into the two-step handshake whatever the status of the session
    is: a pre_accept and then an accept call, both with the filtered SDP.
    When both succeed the session is connected and call-connected is
    broadcast once.  When pre_accept fails nothing is written and accept
    is never called; when accept fails the session stays pre_accepted.  In
    both failures the error is thrown and no event is emitted.  For an
    outbound session, or in bridge mode, the handler makes no provider call
    and changes no session. *)
Theorem browser_answer_handshake (isAvailable : bool) (x : AnswerExt)
  (id sdpAnswer : string) (w : World) (r : nat) (s : CallState) :
  calls_get id w = Some (r, s) →
  let res := handleBrowserSdpAnswer isAvailable x id sdpAnswer w in
  let sdp := an_filter x sdpAnswer in
  (direction s = inbound → isAvailable = false →
   match an_pre_accept x, an_accept x with
   | Ok _, Ok _ =>
       res.2 = Returned ()
       ∧ calls_get id res.1 = Some (r, with_status connected s)
       ∧ api_calls (effects res.1)
         = api_calls (effects w)
           ++ [answerCall id "pre_accept" sdp; answerCall id "accept" sdp]
       ∧ emits (effects res.1)
         = emits (effects w)
           ++ [(Broadcast, "call-connected",
                [("callId", JStr id);
                 ("phone", JStr (recipientPhone s))])]
   | Ok _, Fail e =>
       res.2 = Thrown (External e)
       ∧ calls_get id res.1 = Some (r, with_status pre_accepted s)
       ∧ api_calls (effects res.1)
         = api_calls (effects w)
           ++ [answerCall id "pre_accept" sdp; answerCall id "accept" sdp]
       ∧ emits (effects res.1) = emits (effects w)
   | Fail e, _ =>
       res.2 = Thrown (External e)
       ∧ calls_get id res.1 = Some (r, s)
       ∧ api_calls (effects res.1)
         = api_calls (effects w) ++ [answerCall id "pre_accept" sdp]
       ∧ emits (effects res.1) = emits (effects w)
   end)
  ∧ (direction s = outbound ∨ isAvailable = true →
     res.1 = w).
Proof.
  intros Hget res sdp. subst res sdp. unfold handleBrowserSdpAnswer.
  rewrite Hget. pose proof Hget as [Hk Hs]%calls_get_Some. split.
  - intros -> ->. simpl.
    destruct (an_pre_accept x) as [[]|e1]; simpl.
    + destruct (an_accept x) as [[]|e2]; simpl.
      * split; [done|]. split.
        { apply calls_get_Some. simpl. split; [done|].
          by rewrite !list_lookup_alter_eq, Hs. }
        split; effects_norm; done.
      * split; [done|]. split.
        { apply calls_get_Some. simpl. split; [done|].
          by rewrite !list_lookup_alter_eq, Hs. }
        split; effects_norm; done.
    + split; [done|]. split; [by apply calls_get_Some|].
      split; effects_norm; done.
  - intros [Hdir| ->].
    + rewrite Hdir. simpl.
      destruct (whatsappPeer s), (browserPeer s); try done.
      by destruct (an_setRemote x).
    + rewrite andb_false_r.
      destruct (whatsappPeer s), (browserPeer s); try done.
      by destruct (an_setRemote x).
Qed.

Lemma browser_answer_handshake_witness :
  let x := mkAnswerExt (λ sdp, sdp) (Ok ()) (Ok ()) (Ok ()) in
  let w := (acceptInboundCall false bridge_ok "WA1" None inbound_world).1 in
  let res := handleBrowserSdpAnswer false x "WA1" "SDP-B" w in
  (status <$> getCallState "WA1" res.1) = Some connected
  ∧ api_calls (effects res.1)
    = [answerCall "WA1" "pre_accept" "SDP-B";
       answerCall "WA1" "accept" "SDP-B"].
Proof.
  intros x w res.
  set (s0 := mkCallState "WA1" inbound "+15557654321" accepting None
               (Some "SDP-I") None None 3000).
  destruct (browser_answer_handshake false x "WA1" "SDP-B" w 0%nat s0)
    as [Hrelay _].
  - vm_compute. reflexivity.
  - destruct (Hrelay eq_refl eq_refl) as (_ & Hget & Hapi & _).
    split; [|exact Hapi]. unfold getCallState.
    rewrite (Hget : calls_get "WA1" res.1
                    = Some (0%nat, with_status connected s0)).
    reflexivity.
Defined.

(** X9: in bridge mode, accepting an inbound call calls the provider in a
    fixed order, pre_accept and then accept, both with the filtered answer
    of the bridge, and stops at the first collaborator that fails.  Only a
    complete handshake is announced: the audio request goes to the caller
    (or to everybody when the request came without a socket) and
    call-connected is broadcast.  A handshake that fails emits no event,
    closes no peer and sets no retention timer, and the session stays
    registered. *)
Theorem accept_bridge_handshake (x : AcceptExt) (id : string)
  (socket : option Socket) (w : World) (r : nat) (s : CallState) :
  calls_get id w = Some (r, s) → direction s = inbound →
  let res := acceptInboundCall true x id socket w in
  timers res.1 = timers w ∧ calls res.1 = calls w
  ∧ (∀ p, PeerClose p ∈ effects res.1 → PeerClose p ∈ effects w)
  ∧ match ac_answer x, ac_pre_accept x, ac_accept x with
    | Ok a, Ok _, Ok _ =>
        api_calls (effects res.1)
        = api_calls (effects w)
          ++ [answerCall id "pre_accept" (ac_filter x a);
              answerCall id "accept" (ac_filter x a)]
        ∧ emits (effects res.1)
          = emits (effects w)
            ++ [(accept_target socket, "setup-browser-audio",
                 [("callId", JStr id)]);
                (Broadcast, "call-connected",
                 [("callId", JStr id);
                  ("phone", JStr (recipientPhone s))])]
    | Ok a, Ok _, Fail e =>
        api_calls (effects res.1)
        = api_calls (effects w)
          ++ [answerCall id "pre_accept" (ac_filter x a);
              answerCall id "accept" (ac_filter x a)]
        ∧ emits (effects res.1) = emits (effects w)
    | Ok a, Fail e, _ =>
        api_calls (effects res.1)
        = api_calls (effects w)
          ++ [answerCall id "pre_accept" (ac_filter x a)]
        ∧ emits (effects res.1) = emits (effects w)
    | Fail e, _, _ =>
        api_calls (effects res.1) = api_calls (effects w)
        ∧ emits (effects res.1) = emits (effects w)
    end.
Proof.
  intros Hget Hdir res. subst res. unfold acceptInboundCall.
  rewrite Hget, Hdir. simpl. fold (accept_target socket).
  assert (∀ (es : list Effect) p,
            (∀ e, e ∈ es → ∀ q, e ≠ PeerClose q) →
            PeerClose p ∈ effects w ++ es → PeerClose p ∈ effects w)
    as Hclose.
  { intros es p Hes [Hin|Hin]%elem_of_app; [done|].
    by destruct (Hes _ Hin p). }
  destruct (ac_answer x) as [a|e1]; simpl.
  - destruct (ac_pre_accept x) as [[]|e2]; simpl.
    + destruct (ac_accept x) as [[]|e3]; simpl.
      * do 2 (split; [done|]). split.
        { intros p. rewrite <- !app_assoc. apply Hclose.
          intros e He q. simpl in He.
          repeat (apply elem_of_cons in He as [->|He]; [done|]).
          by apply elem_of_nil in He. }
        split; effects_norm; done.
      * do 2 (split; [done|]). split.
        { intros p. rewrite <- !app_assoc. apply Hclose.
          intros e He q. simpl in He.
          repeat (apply elem_of_cons in He as [->|He]; [done|]).
          by apply elem_of_nil in He. }
        split; effects_norm; done.
    + do 2 (split; [done|]). split.
      { intros p. apply Hclose.
        intros e He q.
        repeat (apply elem_of_cons in He as [->|He]; [done|]).
        by apply elem_of_nil in He. }
      split; effects_norm; done.
  - do 2 (split; [done|]). split; [done|]. done.
Qed.

Lemma accept_bridge_handshake_witness :
  let x := mkAcceptExt 7%nat (Ok "SDP-ANSWER") (λ sdp, sdp)
             (Fail (mkExtError "Request failed with status code 500" None
                      None)) (Ok ()) in
  let res := acceptInboundCall true x "WA1" None inbound_world in
  api_calls (effects res.1) = [answerCall "WA1" "pre_accept" "SDP-ANSWER"]
  ∧ emits (effects res.1) = emits (effects inbound_world)
  ∧ timers res.1 = [].
Proof.
  intros x res.
  destruct (accept_bridge_handshake x "WA1" None inbound_world 0%nat
              (mkCallState "WA1" inbound "+15557654321" incoming None
                 (Some "SDP-I") None None 3000))
    as (Ht & _ & _ & Hapi & Hemit).
  - vm_compute. reflexivity.
  - reflexivity.
  - split; [exact Hapi|]. split; [exact Hemit|exact Ht].
Defined.

(** ** The requests sent to the provider *)

(** X10: the answer request that whatsappApi.js builds names the call and
    the action, and goes to the calls endpoint of the configured phone
    number.  It carries the SDP answer in a [session] object exactly when
    the action is accept and the SDP is not empty: a pre_accept request
    never carries the SDP that the call manager passes to it.  The call
    manager's [rejectCall] has no request behind it. *)
Theorem answer_request_session (PHONE_NUMBER_ID id action sdp : string) :
  (∃ req,
     request_of PHONE_NUMBER_ID (answerCall id action sdp) = Some req
     ∧ req_url req = "/" +:+ PHONE_NUMBER_ID +:+ "/calls"
     ∧ json_field "call_id" (req_body req) = Some (JsonStr id)
     ∧ json_field "action" (req_body req) = Some (JsonStr action)
     ∧ json_field "session" (req_body req)
       = (if decide (action = "accept" ∧ sdp ≠ "")
          then Some (JsonObj [("sdp", JsonStr sdp);
                              ("sdp_type", JsonStr "answer")])
          else None))
  ∧ request_of PHONE_NUMBER_ID (rejectCall id) = None.
Proof.
  split; [|done]. eexists. split; [reflexivity|].
  unfold answerCall_request, truthy. simpl.
  split; [done|]. 
  destruct (decide (sdp = "")) as [->|Hsdp].
  - simpl. do 2 (split; [done|]).
    rewrite decide_False; [done|]. intros [_ H]. done.
  - simpl. destruct (decide (action = "accept")) as [->|Hact].
    + simpl. do 2 (split; [done|]). by rewrite decide_True.
    + simpl. do 2 (split; [done|]).
      rewrite decide_False; [done|]. intros [H _]. done.
Qed.

(** ** Retention timers *)

Lemma purge_all_calls (due : list (Z * string)) w k :
  (k ∈ due.*2 → map_get k (calls (foldl (λ w t, purge t.2 w) w due)) = None)
  ∧ (k ∉ due.*2 →
     map_get k (calls (foldl (λ w t, purge t.2 w) w due))
     = map_get k (calls w)).
Proof.
  revert w. induction due as [|[t k0] due IH]; intros w.
  - split; [intros H; by apply elem_of_nil in H|done].
  - rewrite fmap_cons. cbn [foldl snd].
    destruct (IH (purge k0 w)) as [IH1 IH2]. split.
    + intros Hin. destruct (decide (k ∈ due.*2)) as [Hd|Hd]; [by apply IH1|].
      apply elem_of_cons in Hin as [->|Hin]; [|done].
      rewrite IH2 by done. apply map_get_delete_eq.
    + intros [Hne Hnin]%not_elem_of_cons. rewrite IH2 by done.
      simpl. by apply map_get_delete_ne.
Qed.

Lemma purge_all_frame (due : list (Z * string)) w :
  objs (foldl (λ w t, purge t.2 w) w due) = objs w
  ∧ timers (foldl (λ w t, purge t.2 w) w due) = timers w
  ∧ permissions (foldl (λ w t, purge t.2 w) w due) = permissions w
  ∧ effects (foldl (λ w t, purge t.2 w) w due) = effects w.
Proof.
  revert w. induction due as [|[t k0] due IH]; intros w; simpl; [done|].
  by destruct (IH (purge k0 w)) as (-> & -> & -> & ->).
Qed.

Lemma run_timers_frame (now : Z) (w : World) :
  objs (run_timers now w) = objs w
  ∧ permissions (run_timers now w) = permissions w
  ∧ effects (run_timers now w) = effects w
  ∧ timers (run_timers now w)
    = filter (λ t : Z * string, ¬ t.1 ≤ now) (timers w).
Proof.
  unfold run_timers.
  set (due := filter (λ t : Z * string, t.1 ≤ now) (timers w)).
  set (w0 := set_timers (filter (λ t : Z * string, ¬ t.1 ≤ now)) w).
  by destruct (purge_all_frame due w0) as (-> & -> & -> & ->).
Qed.

Lemma run_timers_calls (now : Z) (w : World) (k : string) :
  ((∃ due, (due, k) ∈ timers w ∧ due ≤ now) →
   map_get k (calls (run_timers now w)) = None)
  ∧ ((∀ due, (due, k) ∈ timers w → now < due) →
     map_get k (calls (run_timers now w)) = map_get k (calls w)).
Proof.
  unfold run_timers.
  set (due := filter (λ t : Z * string, t.1 ≤ now) (timers w)).
  set (w0 := set_timers (filter (λ t : Z * string, ¬ t.1 ≤ now)) w).
  assert (k ∈ due.*2 ↔ ∃ d, (d, k) ∈ timers w ∧ d ≤ now) as Hdue.
  { rewrite list_elem_of_fmap. split.
    - intros ([d k'] & -> & [Hle Hin]%list_elem_of_filter). by exists d.
    - intros (d & Hin & Hle). exists (d, k). split; [done|].
      by apply list_elem_of_filter. }
  destruct (purge_all_calls due w0 k) as [Hgone Hkeep]. split.
  - intros Hk. apply Hgone, Hdue, Hk.
  - intros Hk. rewrite Hkeep; [done|].
    intros (d & Hin & Hle)%Hdue. specialize (Hk d Hin). lia.
Qed.

(** X11: when the event loop reaches a time, every retention timer that is
    due removes the entry registered under its call id, without looking at
    the session behind it (its status may have changed since the timer was
    set, or the id may belong to a newer session); ids without a due timer
    keep their entries; the timers that are not due stay pending; and no
    object, permission or effect changes. *)
Theorem run_timers_purges_by_id (now : Z) (w : World) :
  let w' := run_timers now w in
  (∀ k, (∃ due, (due, k) ∈ timers w ∧ due ≤ now) →
        map_get k (calls w') = None ∧ getCallState k w' = None)
  ∧ (∀ k, (∀ due, (due, k) ∈ timers w → now < due) →
          map_get k (calls w') = map_get k (calls w))
  ∧ (∀ t, t ∈ timers w' ↔ t ∈ timers w ∧ now < t.1)
  ∧ objs w' = objs w ∧ permissions w' = permissions w
  ∧ effects w' = effects w.
Proof.
  intros w'. subst w'.
  destruct (run_timers_frame now w) as (Ho & Hp & He & Ht).
  split.
  { intros k Hk. apply (run_timers_calls now w k) in Hk.
    split; [done|]. unfold getCallState, calls_get. by rewrite Hk. }
  split; [intros k; apply run_timers_calls|].
  split; [|done].
  intros t. rewrite Ht, list_elem_of_filter.
  split; intros [H1 H2]; split; try done; lia.
Qed.

Lemma run_timers_purges_by_id_witness :
  (status <$> getCallState "wacid.A" two_live_outbound) = Some ringing
  ∧ getCallState "wacid.A" (run_timers 303000 two_live_outbound) = None
  ∧ map_get "call_4000" (calls (run_timers 303000 two_live_outbound))
    = Some 1%nat.
Proof.
  destruct (run_timers_purges_by_id 303000 two_live_outbound)
    as (Hdue & Hkeep & _).
  split; [vm_compute; reflexivity|]. split.
  - apply Hdue. exists 303000. split; [|reflexivity]. vm_compute. left.
  - rewrite Hkeep; [vm_compute; reflexivity|].
    intros due Hin. vm_compute in Hin.
    apply elem_of_cons in Hin as [[=]|Hin]. by apply elem_of_nil in Hin.
Defined.


(** X12: cleanup keeps a session for the retention window.  After
    [cleanup] of a registered call at time [t], and as long as no older
    timer for the same id is pending, the session is still found at every
    time before [t] plus five minutes, and is no longer found from that
    time on. *)
Theorem cleanup_retention (id : string) (t now : Z) (w : World)
  (r : nat) (s : CallState) :
  calls_get id w = Some (r, s) →
  (∀ due, (due, id) ∈ timers w → t + RETENTION ≤ due) →
  let w' := cleanup id t w in
  (now < t + RETENTION → calls_get id (run_timers now w') = Some (r, s))
  ∧ (t + RETENTION ≤ now → getCallState id (run_timers now w') = None).
Proof.
  intros Hget Hold w'. subst w'.
  destruct (cleanup_known id t w r s Hget) as [Ht _].
  destruct (run_timers_frame now (cleanup id t w)) as (Ho & _).
  destruct (run_timers_calls now (cleanup id t w) id) as [Hdue Hkeep].
  pose proof Hget as [Hk Hs]%calls_get_Some.
  split.
  - intros Hnow. apply calls_get_Some. rewrite Ho, cleanup_objs.
    split; [|done]. rewrite Hkeep; [by rewrite cleanup_calls|].
    intros due. rewrite Ht.
    intros [Hin|[= ->]%list_elem_of_singleton]%elem_of_app; [|lia].
    specialize (Hold due Hin). lia.
  - intros Hnow. unfold getCallState, calls_get. rewrite Hdue; [done|].
    exists (t + RETENTION). split; [|done].
    rewrite Ht. apply elem_of_app. right. left.
Qed.

Lemma cleanup_retention_witness :
  let w := (endCall (Ok ()) "WA1" 5000 inbound_world).1 in
  (status <$> getCallState "WA1" (run_timers 304999 w)) = Some terminated
  ∧ getCallState "WA1" (run_timers 305000 w) = None.
Proof.
  intros w.
  set (s0 := mkCallState "WA1" inbound "+15557654321" terminated None
               (Some "SDP-I") None None 3000).
  set (w0 := emit Broadcast "call-ended" [("callId", JStr "WA1")]
               (update 0%nat (with_status terminated)
                  (api (terminateCall "WA1") inbound_world))).
  destruct (cleanup_retention "WA1" 5000 304999 w0 0%nat s0) as [Hin _].
  { vm_compute. reflexivity. }
  { intros due Hdue. vm_compute in Hdue. by apply elem_of_nil in Hdue. }
  destruct (cleanup_retention "WA1" 5000 305000 w0 0%nat s0) as [_ Hout].
  { vm_compute. reflexivity. }
  { intros due Hdue. vm_compute in Hdue. by apply elem_of_nil in Hdue. }
  split.
  - unfold getCallState.
    rewrite (Hin ltac:(vm_compute; reflexivity)
             : calls_get "WA1" (run_timers 304999 w) = Some (0%nat, s0)).
    reflexivity.
  - apply (Hout ltac:(vm_compute; discriminate)).
Defined.

(** ** The guard of the initiate request, in registry order *)

Lemma expire_or_block_app now l1 l2 w :
  (expire_or_block now l1 w).2 = Returned () →
  expire_or_block now (l1 ++ l2) w
  = expire_or_block now l2 (expire_or_block now l1 w).1.
Proof.
  revert w. induction l1 as [|[k r] l1 IH]; intros w; simpl; [done|].
  destruct (objs w !! r) as [s|]; [|apply IH].
  destruct (active_outbound s); [|apply IH].
  destruct (stale now s); [apply IH|done].
Qed.

Lemma expire_or_block_untouched now l w r :
  r ∉ l.*2 →
  objs (expire_or_block now l w).1 !! r = objs w !! r.
Proof.
  revert w. induction l as [|[k0 r0] l IH]; intros w; [done|].
  rewrite fmap_cons. intros [Hne Hnin]%not_elem_of_cons. simpl in Hne. simpl.
  destruct (objs w !! r0) as [s0|]; [|by apply IH].
  destruct (active_outbound s0); [|by apply IH].
  destruct (stale now s0); [|done].
  rewrite IH by done. rewrite cleanup_objs. simpl.
  by rewrite list_lookup_alter_ne.
Qed.

(** X13: the conflict error of [startOutboundCall] names the first blocking
    session in registry order, and the request is not free of side
    effects: every reclaimable session registered before that one has been
    expired and cleaned up by the time the error is thrown, while no
    session is created and the sessions from the blocking one on are
    left as they were. *)
Theorem conflict_names_first_blocking (isAvailable : bool) (x : OutboundExt)
  (phone : string) (socket : option Socket) (now : Z) (w : World)
  (l1 l2 : list (string * nat)) (k : string) (r : nat) (s : CallState) :
  NoDup (calls w).*1 → NoDup (calls w).*2 →
  granted (getPermissionStatus phone now w).2 = true →
  calls w = l1 ++ (k, r) :: l2 →
  objs w !! r = Some s → blocking now s →
  (∀ k' r' s', (k', r') ∈ l1 → objs w !! r' = Some s' → ¬ blocking now s') →
  let res := startOutboundCall isAvailable x phone socket now w in
  res.2 = Thrown (Error (conflict_msg k (status s)))
  ∧ calls res.1 = calls w
  ∧ length (objs res.1) = length (objs w)
  ∧ (∀ k' r' s', (k', r') ∈ l1 → objs w !! r' = Some s' →
       reclaimable now s' →
       objs res.1 !! r' = Some (with_status expired s')
       ∧ (now + RETENTION, k') ∈ timers res.1)
  ∧ (∀ k' r', (k', r') ∈ (k, r) :: l2 → objs res.1 !! r' = objs w !! r').
Proof.
  intros Hkeys Hrefs Hgr Hcalls Hs Hb Hfree res. subst res.
  unfold startOutboundCall.
  pose proof (getPermissionStatus_frame phone now w) as Hperm.
  destruct (getPermissionStatus phone now w) as [wp st]. simpl in *.
  destruct Hperm as (_ & _ & _ & _ & Hpw). rewrite Hgr. simpl.
  rewrite (Hpw Hgr). clear Hpw wp.
  assert (∀ e, e ∈ l1 → map_get e.1 (calls w) = Some e.2) as Hmap.
  { intros [k' r'] He. apply map_get_elem; [done|].
    rewrite Hcalls. apply elem_of_app. by left. }
  pose proof (expire_or_block_passes now l1 w Hfree) as Hpass.
  pose proof (expire_or_block_frame now l1 w) as (Hfc & _ & Hfl).
  rewrite Hcalls, fmap_app, fmap_cons in Hrefs.
  apply NoDup_app in Hrefs as (Hnd1 & Hdisj & Hnd2).
  assert (∀ k' r', (k', r') ∈ (k, r) :: l2 →
            objs (expire_or_block now l1 w).1 !! r' = objs w !! r') as Hsame.
  { intros k' r' Hin. apply expire_or_block_untouched. intros Hin1.
    apply (Hdisj r' Hin1).
    apply (list_elem_of_fmap_2 snd ((k, r) :: l2) (k', r')), Hin. }
  assert (objs (expire_or_block now l1 w).1 !! r = Some s) as Hs1.
  { rewrite (Hsame k r). - exact Hs. - apply elem_of_cons. by left. }
  pose proof Hb as [Hact Hstale]%blocking_spec.
  assert (expire_or_block now (calls w) w
          = ((expire_or_block now l1 w).1,
             Thrown (Error (conflict_msg k (status s))))) as ->.
  { rewrite Hcalls at 1. rewrite (expire_or_block_app now l1 _ w Hpass).
    cbn [expire_or_block]. by rewrite Hs1, Hact, Hstale. }
  cbn [fst snd].
  split; [done|]. split; [done|]. split; [done|]. split; [|done].
  intros k' r' s' Hin Hs' Hrec.
  by destruct (expire_or_block_reclaims now l1 w k' r' s' Hnd1 Hmap Hfree
                 Hin Hs' Hrec) as (? & ? & _).
Qed.

Lemma conflict_names_first_blocking_witness :
  let res := startOutboundCall false relay_ext "+15551234567" None 80000
               stale_before_blocking in
  res.2 = Thrown (Error (conflict_msg "wacid.A" ringing))
  ∧ (status <$> getCallState "call_40000" stale_before_blocking)
    = Some awaiting_browser_sdp
  ∧ (status <$> objs res.1 !! 1%nat) = Some expired
  ∧ (80000 + RETENTION, "call_40000") ∈ timers res.1.
Proof.
  intros res.
  set (s0 := mkCallState "wacid.A" outbound "+15551234567" ringing
               (Some "sock1") None None None 2000).
  set (s1 := mkCallState "call_40000" outbound "+15551234567"
               awaiting_browser_sdp (Some "sock1") None None None 40000).
  destruct (conflict_names_first_blocking false relay_ext "+15551234567" None
              80000 stale_before_blocking [("call_40000", 1%nat)] []
              "wacid.A" 0%nat s0) as (Hres & _ & _ & Hexp & _).
  - apply (bool_decide_unpack _). vm_compute. exact I.
  - apply (bool_decide_unpack _). vm_compute. exact I.
  - vm_compute. reflexivity.
  - vm_compute. reflexivity.
  - vm_compute. reflexivity.
  - split; [reflexivity|]. left. reflexivity.
  - intros k' r' s' [[= -> ->]|Hin%elem_of_nil]%elem_of_cons; [|done].
    vm_compute. intros [= <-] [_ [H|[H|[H|[_ H]]]]]; try discriminate H.
    apply H. reflexivity.
  - destruct (Hexp "call_40000" 1%nat s1) as [Hobj Htimer].
    + left.
    + vm_compute. reflexivity.
    + split; [reflexivity|]. split; [reflexivity|]. vm_compute. reflexivity.
    + fold res in Hres, Hobj, Htimer. split; [exact Hres|].
      split; [vm_compute; reflexivity|]. split; [by rewrite Hobj|exact Htimer].
Defined.

(** ** What the handlers write in a session *)

Lemma same_identity_refl s : same_identity s s.
Proof. by repeat split. Qed.

Lemma same_identity_trans s1 s2 s3 :
  same_identity s1 s2 → same_identity s2 s3 → same_identity s1 s3.
Proof.
  unfold same_identity. intros (?&?&?&?&?&?) (?&?&?&?&?&?).
  repeat split; congruence.
Qed.

(** Every handler changes the object store by two operations only: it
    writes [status], [callId] or [whatsappPeer] of an object, and it appends
    a new object whose [browserPeer] is null.  A property of stores that
    both operations preserve is preserved by every step. *)
Section StoreInduction.
Variable P : list CallState → Prop.
Hypothesis P_alter : ∀ os f r,
  (∀ s, same_identity s (f s)) → P os → P (alter f r os).
Hypothesis P_snoc : ∀ os s, browserPeer s = None → P os → P (os ++ [s]).

Ltac store_step :=
  repeat first
    [ rewrite cleanup_objs
    | progress cbn [objs set_objs set_calls set_timers set_permissions update
                    emit console console2 api eff alloc fst snd]
    | assumption
    | apply P_snoc; [reflexivity|]
    | apply P_alter; [intros ?; by repeat split|] ].

Lemma expire_or_block_store now l w :
  P (objs w) → P (objs (expire_or_block now l w).1).
Proof.
  revert w. induction l as [|[k r] l IH]; intros w Hw; simpl; [done|].
  destruct (objs w !! r) as [s|]; [|by apply IH].
  destruct (active_outbound s); [|by apply IH].
  destruct (stale now s); [|done].
  apply IH. store_step.
Qed.

Lemma reset_loop_store now l n w :
  P (objs w) → P (objs (reset_loop now l n w).1).
Proof.
  revert n w. induction l as [|[k r] l IH]; intros n w Hw; simpl; [done|].
  destruct (objs w !! r) as [s|]; [|by apply IH].
  destruct (stuck s); [|by apply IH].
  apply IH. store_step.
Qed.

Lemma atomic_step_store w w' :
  atomic_step w w' → P (objs w) → P (objs w').
Proof.
  intros Hstep Hw. destruct Hstep.
  - unfold handlePermissionGranted. store_step.
  - by destruct (getPermissionStatus_frame phone now w) as (_ & -> & _).
  - unfold startOutboundCall.
    pose proof (getPermissionStatus_frame phone now w) as Hperm.
    destruct (getPermissionStatus phone now w) as [wp st]. simpl in Hperm.
    destruct Hperm as (Hc & Ho & _). rewrite <- Ho in Hw.
    destruct (granted st); simpl; [|done].
    pose proof (expire_or_block_store now (calls wp) wp Hw) as He.
    destruct (expire_or_block now (calls wp) wp) as [wl [[]|e]]; simpl in He;
      [|done].
    destruct isAvailable.
    + unfold startOutboundCallWithServerWebRTC.
      destruct (ob_offer x); [|store_step]. destruct (ob_reply x); store_step.
    + unfold startOutboundCallBrowserOnly. store_step.
  - unfold handleBrowserSdpOffer, handleBrowserSdpOffer_begin.
    destruct (calls_get id w) as [[r s]|]; [|store_step].
    destruct (_ || _); [store_step|].
    unfold handleBrowserSdpOffer_resume. cbn [objs api eff console].
    destruct (objs w !! r); [|store_step].
    destruct reply; [|store_step]. case_decide; store_step.
  - unfold handleOutboundSdpAnswer.
    destruct (calls_get id w) as [[r s]|].
    + unfold answer_applied. cbn [objs update set_objs console eff].
      destruct (alter _ r (objs w) !! r) as [s'|]; [|store_step].
      destruct (whatsappPeer s'); [destruct setRemote|]; store_step.
    + cbn [objs console eff calls].
      destruct (find_session answerable (objs w) (calls w)) as [[k r]|];
        [|store_step].
      unfold answer_applied. cbn [objs update set_objs set_calls console eff].
      match goal with |- context [alter ?f r ?l !! r] =>
        destruct (alter f r l !! r) as [s'|] end; [|store_step].
      destruct (whatsappPeer s'); [destruct setRemote|]; store_step.
  - unfold handleOutboundStatus.
    destruct (match calls_get id w with Some _ => _ | None => _ end);
      [|store_step].
    unfold status_applied. repeat case_decide; store_step.
  - unfold handleInboundCall. store_step.
  - unfold acceptInboundCall.
    destruct (calls_get id w) as [[r s]|]; [|store_step].
    destruct (negb _); [store_step|].
    destruct isAvailable; [|store_step].
    destruct (ac_answer x); [|store_step].
    destruct (ac_pre_accept x); [|store_step].
    destruct (ac_accept x); store_step.
  - unfold handleBrowserSdpAnswer.
    destruct (calls_get id w) as [[r s]|]; [|store_step].
    destruct (_ && _).
    + destruct (an_pre_accept x); [|store_step].
      destruct (an_accept x); store_step.
    + destruct (whatsappPeer s), (browserPeer s); try store_step.
      destruct (an_setRemote x); store_step.
  - unfold handleTerminate.
    destruct (calls_get id w) as [[r s]|]; store_step.
  - unfold rejectInboundCall.
    destruct (calls_get id w) as [[r s]|]; [|store_step].
    destruct (negb _); [store_step|]. destruct provider; store_step.
  - unfold endCall.
    destruct (calls_get id w) as [[r s]|]; [|store_step].
    destruct provider; store_step.
  - unfold resetCalls.
    pose proof (reset_loop_store now (calls w) 0 w Hw) as He.
    destruct (reset_loop now (calls w) 0 w) as [wl n]. simpl in He.
    destruct io; store_step.
  - by destruct (run_timers_frame now w) as (-> & _).
Qed.

Lemma rtc_atomic_step_store w w' :
  rtc atomic_step w w' → P (objs w) → P (objs w').
Proof.
  induction 1 as [|w1 w2 w3 Hstep _ IH]; [done|].
  intros Hw. by apply IH, (atomic_step_store w1).
Qed.
End StoreInduction.

(** X14: what a session is never changes.  Along every run of handlers
    (timers included), every object of the store stays at its reference and
    keeps its direction, its phone number, its creation time, the socket
    that requested it and the SDP offer it came with: the handlers write
    only [status], [callId] and [whatsappPeer]. *)
Theorem session_identity_is_fixed (w w' : World) :
  rtc atomic_step w w' → store_extends (objs w) (objs w').
Proof.
  intros Hrun. apply (rtc_atomic_step_store (store_extends (objs w)) )with (w := w);
    [| |done|].
  - intros os f r Hf H r0 s Hs. destruct (H r0 s Hs) as (s' & Hs' & Hi).
    destruct (decide (r = r0)) as [->|Hne].
    + exists (f s'). rewrite list_lookup_alter_eq, Hs'. split; [done|].
      by apply (same_identity_trans _ s').
    + exists s'. by rewrite list_lookup_alter_ne.
  - intros os s _ H r0 s0 Hs. destruct (H r0 s0 Hs) as (s' & Hs' & Hi).
    exists s'. split; [|done]. by apply lookup_app_l_Some.
  - intros r s Hs. exists s. split; [done|apply same_identity_refl].
Qed.

Lemma session_identity_is_fixed_witness :
  ∃ s', objs connected_world !! 0%nat = Some s'
        ∧ direction s' = outbound ∧ createdAt s' = 2000
        ∧ socketId s' = Some "sock1".
Proof.
  destruct (session_identity_is_fixed awaiting_world connected_world)
    with (r := 0%nat)
         (s := mkCallState "call_2000" outbound "+15551234567"
                 awaiting_browser_sdp (Some "sock1") None None None 2000)
    as (s' & Hs' & Hd & _ & Hc & Hsock & _).
  - eapply rtc_l; [apply (step_offer "call_2000" "SDP-O"
                            (Ok (mkInitiateResult (Some "wacid.A") None None))
                            2500)|].
    eapply rtc_l; [apply (step_answer "wacid.A" "SDP-A" (Ok ()))|].
    apply rtc_refl.
  - vm_compute. reflexivity.
  - exists s'. split; [exact Hs'|]. split; [exact Hd|].
    split; [exact Hc|exact Hsock].
Defined.

(** X15: no handler ever sets [browserPeer].  In every world reached from
    the empty one every session has a null [browserPeer]; so in bridge mode
    the answer of the browser ([browser-answer]) is dropped, whatever the
    call and whatever the bridge would reply, and cleanup closes at most
    the provider-side peer. *)
Theorem browser_peer_is_never_set (w : World) :
  rtc atomic_step init w →
  (∀ r s, objs w !! r = Some s → browserPeer s = None)
  ∧ (∀ x id sdpAnswer,
       handleBrowserSdpAnswer true x id sdpAnswer w = (w, Returned ()))
  ∧ (∀ id now p, PeerClose p ∈ effects (cleanup id now w) →
       PeerClose p ∈ effects w
       ∨ ∃ s, getCallState id w = Some s ∧ whatsappPeer s = Some p).
Proof.
  intros Hrun.
  assert (∀ r s, objs w !! r = Some s → browserPeer s = None) as Hnone.
  { apply (rtc_atomic_step_store
             (λ os, ∀ r s, os !! r = Some s → browserPeer s = None))
      with (w := init); [| |done|].
    - intros os f r Hf H r0 s.
      destruct (decide (r = r0)) as [->|Hne].
      + rewrite list_lookup_alter_eq.
        destruct (os !! r0) as [s0|] eqn:Hs0; [|done]. simpl. intros [= <-].
        destruct (Hf s0) as (_ & _ & _ & _ & _ & ->). by apply (H r0).
      + rewrite list_lookup_alter_ne by done. apply H.
    - intros os s Hs H r0 s0 [Hin|[_ Heq]]%lookup_app_Some; [by apply (H r0)|].
      apply list_lookup_singleton_Some in Heq as [_ <-]. done.
    - intros r s Hs. vm_compute in Hs; discriminate Hs. }
  split; [done|]. split.
  - intros x id sdpAnswer. unfold handleBrowserSdpAnswer.
    destruct (calls_get id w) as [[r s]|] eqn:Hget; [|done].
    apply calls_get_Some in Hget as [_ Hs].
    rewrite andb_false_r, (Hnone r s Hs). by destruct (whatsappPeer s).
  - intros id now p. unfold cleanup, getCallState.
    destruct (calls_get id w) as [[r s]|] eqn:Hget; [|by left].
    apply calls_get_Some in Hget as [_ Hs]. rewrite (Hnone r s Hs).
    destruct (whatsappPeer s) as [p'|] eqn:Hp; simpl; [|by left].
    intros [Hin|Hin%list_elem_of_singleton]%elem_of_app; [by left|].
    right. exists s. split; [done|]. by injection Hin as ->.
Qed.

Lemma browser_peer_is_never_set_witness :
  handleBrowserSdpAnswer true
    (mkAnswerExt (λ sdp, sdp) (Ok ()) (Ok ()) (Ok ())) "wacid.A" "SDP-B"
    connected_world
  = (connected_world, Returned ()).
Proof.
  apply (browser_peer_is_never_set connected_world).
  eapply rtc_l; [apply (step_grant "+15551234567" 1000)|].
  eapply rtc_l; [apply (step_start false relay_ext "+15551234567"
                          (Some (mkSocket "sock1")) 2000)|].
  eapply rtc_l; [apply (step_offer "call_2000" "SDP-O"
                          (Ok (mkInitiateResult (Some "wacid.A") None None))
                          2500)|].
  eapply rtc_l; [apply (step_answer "wacid.A" "SDP-A" (Ok ()))|].
  apply rtc_refl.
Defined.

(** ** Resets, fallbacks and the guard *)

(** When the loop throws, it throws the conflict error of a session that
    was blocking before the loop started. *)
Lemma expire_or_block_thrown now l w e :
  (expire_or_block now l w).2 = Thrown e →
  ∃ k r s, (k, r) ∈ l ∧ objs w !! r = Some s ∧ blocking now s
    ∧ e = Error (conflict_msg k (status s)).
Proof.
  revert w. induction l as [|[k0 r0] l IH]; intros w; simpl; [done|].
  assert ((expire_or_block now l w).2 = Thrown e →
          ∃ k r s, (k, r) ∈ (k0, r0) :: l ∧ objs w !! r = Some s
            ∧ blocking now s ∧ e = Error (conflict_msg k (status s))) as Hrest.
  { intros (k & r & s & Hin & H)%IH. exists k, r, s. split; [by right|done]. }
  destruct (objs w !! r0) as [s0|] eqn:Hs0; [|done].
  destruct (active_outbound s0) eqn:Hact; [|done].
  destruct (stale now s0) eqn:Hstale.
  - intros (k & r & s & Hin & Hs & Hb & ->)%IH.
    exists k, r, s. split; [by right|]. split; [|done].
    rewrite cleanup_objs in Hs. simpl in Hs.
    destruct (decide (r0 = r)) as [->|Hne].
    + rewrite list_lookup_alter_eq, Hs0 in Hs. simpl in Hs.
      injection Hs as <-. apply blocking_spec in Hb as [Hb _].
      by rewrite active_outbound_expired in Hb.
    + by rewrite list_lookup_alter_ne in Hs.
  - intros [= <-]. exists k0, r0, s0. split; [left|]. split; [done|].
    split; [by apply blocking_spec|done].
Qed.

(** X16: what a reset unblocks.  After [resetCalls], an initiate request for
    a phone with permission is refused by the guard only because of a
    connected outbound call: it returns a new session, or it fails in the
    bridge or at the provider (bridge mode only), or it throws the conflict
    error for a registered outbound session that was connected before the
    reset. *)
Theorem reset_then_initiate (io isAvailable : bool) (x : OutboundExt)
  (phone : string) (socket : option Socket) (t now : Z) (w : World) :
  let w1 := (resetCalls io t w).1 in
  granted (getPermissionStatus phone now w1).2 = true →
  let res := startOutboundCall isAvailable x phone socket now w1 in
  (∃ out, res.2 = Returned out)
  ∨ (isAvailable = true ∧ ∃ e, res.2 = Thrown (External e))
  ∨ (∃ k r s, (k, r) ∈ calls w ∧ objs w !! r = Some s
       ∧ direction s = outbound ∧ status s = connected
       ∧ res.2 = Thrown (Error (conflict_msg k connected))).
Proof.
  intros w1 Hgr res. subst res.
  assert (calls w1 = calls w
          ∧ ∀ r s1, objs w1 !! r = Some s1 →
              ∃ s, objs w !! r = Some s
                ∧ s1 = (if bool_decide (r ∈ (calls w).*2) && stuck s
                        then with_status reset s else s)) as [Hcalls Hobjs].
  { subst w1. unfold resetCalls.
    pose proof (reset_loop_frame t (calls w) 0 w) as (Hc & _ & Hlen).
    pose proof (reset_loop_objs t (calls w) 0 w) as Ho.
    destruct (reset_loop t (calls w) 0 w) as [wl n]. simpl in Hc, Hlen, Ho.
    assert (objs (if io then emit Broadcast "calls-reset"
                                [("count", JNum n)] wl else wl) = objs wl
            ∧ calls (if io then emit Broadcast "calls-reset"
                                [("count", JNum n)] wl else wl) = calls wl)
      as [Ho' Hc'] by (by destruct io).
    cbn [fst objs calls console eff]. rewrite Ho', Hc'. split; [done|].
    intros r s1 Hs1.
    destruct (objs w !! r) as [s|] eqn:Hs.
    - exists s. split; [done|]. rewrite (Ho r s Hs) in Hs1. congruence.
    - apply lookup_lt_Some in Hs1. apply lookup_ge_None in Hs. lia. }
  unfold startOutboundCall.
  pose proof (getPermissionStatus_frame phone now w1) as Hperm.
  destruct (getPermissionStatus phone now w1) as [wp st]. simpl in Hperm, Hgr.
  destruct Hperm as (_ & _ & _ & _ & Hpw). rewrite Hgr. simpl.
  rewrite (Hpw Hgr). clear Hpw wp.
  pose proof (expire_or_block_thrown now (calls w1) w1) as Hthrown.
  destruct (expire_or_block now (calls w1) w1) as [wl [[]|e]]; simpl in *.
  - clear Hthrown. destruct isAvailable.
    + unfold startOutboundCallWithServerWebRTC.
      destruct (ob_offer x) as [sdp|e]; [|right; left; eauto].
      destruct (ob_reply x) as [result|e]; [|right; left; eauto].
      left. eauto.
    + left. unfold startOutboundCallBrowserOnly. eauto.
  - right. right.
    destruct (Hthrown e eq_refl) as (k & r & s1 & Hin & Hs1 & Hb & ->).
    destruct (Hobjs r s1 Hs1) as (s & Hs & ->).
    rewrite Hcalls in Hin.
    assert (r ∈ (calls w).*2) as Hr
      by (by apply (list_elem_of_fmap_2 snd _ (k, r))).
    rewrite (bool_decide_eq_true_2 _ Hr) in Hb |- *. simpl in Hb |- *.
    destruct (stuck s) eqn:Hst.
    + destruct Hb as [_ [H|[H|[H|[H _]]]]]; discriminate H.
    + exists k, r, s. split; [done|]. split; [done|].
      destruct Hb as [Hd Hb]. split; [done|].
      assert (status s = connected) as Hconn.
      { unfold stuck in Hst. apply bool_decide_eq_false in Hst.
        destruct Hb as [H|[H|[H|[H _]]]]; [| |done|];
          exfalso; apply Hst; rewrite H; set_solver. }
      by rewrite Hconn.
Qed.

Lemma reset_then_initiate_witness :
  let w1 := (resetCalls true 9000 connected_world).1 in
  let res := startOutboundCall false relay_ext "+15551234567" None 9500 w1 in
  res.2 = Thrown (Error (conflict_msg "wacid.A" connected))
  ∧ ((∃ out, res.2 = Returned out)
     ∨ (false = true ∧ ∃ e, res.2 = Thrown (External e))
     ∨ (∃ k r s, (k, r) ∈ calls connected_world
          ∧ objs connected_world !! r = Some s
          ∧ direction s = outbound ∧ status s = connected
          ∧ res.2 = Thrown (Error (conflict_msg k connected)))).
Proof.
  intros w1 res. split; [vm_compute; reflexivity|].
  apply (reset_then_initiate true false relay_ext "+15551234567" None
           9000 9500 connected_world).
  vm_compute. reflexivity.
Defined.

(** X17: a status event never re-registers a session.  When a status event
    names an id that is not registered, the id is still not registered
    after the event, whether or not the fallback found a session for it; a
    terminate event for the same id is therefore dropped, and a session
    that the event was applied to keeps the status it was given. *)
Theorem fallback_status_then_terminate (id statusValue : string) (now t : Z)
  (w : World) :
  getCallState id w = None →
  let w1 := handleOutboundStatus id statusValue now w in
  let w2 := handleTerminate id t w1 in
  getCallState id w1 = None
  ∧ objs w2 = objs w1 ∧ calls w2 = calls w1 ∧ timers w2 = timers w1
  ∧ emits (effects w2) = emits (effects w1)
  ∧ (∀ k r s st, find_session status_target (objs w) (calls w) = Some (k, r) →
       objs w !! r = Some s →
       written_status statusValue = Some st →
       objs w2 !! r = Some (with_status st s)).
Proof.
  intros Hnone w1 w2. unfold getCallState in *.
  destruct (calls_get id w) as [[r0 s0]|] eqn:Hget; [done|]. clear Hnone.
  assert (calls w1 = calls w ∧ length (objs w1) = length (objs w)
          ∧ ∀ k r s st,
              find_session status_target (objs w) (calls w) = Some (k, r) →
              objs w !! r = Some s →
              written_status statusValue = Some st →
              objs w1 !! r = Some (with_status st s)) as (Hc & Hl & Hw).
  { subst w1. unfold handleOutboundStatus. rewrite Hget.
    destruct (find_session status_target (objs w) (calls w)) as [[k r]|];
      [|done].
    simpl. unfold status_applied, written_status.
    repeat case_decide; rewrite ?cleanup_calls, ?cleanup_objs;
      cbn [objs calls update set_objs emit console eff];
      rewrite ?length_alter; (split; [done|]); (split; [done|]);
      intros k' r' s st [= _ <-] Hs [= <-];
      by rewrite list_lookup_alter_eq, Hs. }
  assert (calls_get id w1 = None) as Hget1.
  { unfold calls_get in Hget |- *. rewrite Hc.
    destruct (map_get id (calls w)) as [r|]; [|done].
    destruct (objs w !! r) as [s|] eqn:Hs; [done|].
    apply lookup_ge_None in Hs. rewrite <- Hl in Hs.
    apply lookup_ge_None in Hs. by rewrite Hs. }
  subst w2. unfold handleTerminate. rewrite Hget1. simpl.
  split; [done|]. do 3 (split; [done|]).
  split; [|exact Hw].
  by rewrite emits_app, app_nil_r.
Qed.

Lemma fallback_status_then_terminate_witness :
  let w1 := handleOutboundStatus "wacid.Z" "accepted" 2500 awaiting_world in
  let w2 := handleTerminate "wacid.Z" 2600 w1 in
  getCallState "wacid.Z" w1 = None
  ∧ (status <$> objs w2 !! 0%nat) = Some accepted.
Proof.
  intros w1 w2.
  destruct (fallback_status_then_terminate "wacid.Z" "accepted" 2500 2600
              awaiting_world) as (Hnone & _ & _ & _ & _ & Hst).
  - vm_compute. reflexivity.
  - split; [exact Hnone|].
    fold w1 w2 in Hst.
    erewrite (Hst "call_2000" 0%nat _ accepted); [reflexivity| | |];
      vm_compute; reflexivity.
Defined.

(** ** An outbound call in relay mode, end to end *)

Lemma cleanup_signals id now w :
  emits (effects (cleanup id now w)) = emits (effects w)
  ∧ api_calls (effects (cleanup id now w)) = api_calls (effects w).
Proof.
  unfold cleanup. destruct (calls_get id w) as [[r s]|]; [|done].
  destruct (whatsappPeer s), (browserPeer s); simpl;
    rewrite ?emits_app, ?api_calls_app; simpl; by rewrite ?app_nil_r.
Qed.

(** The guard loop talks to nobody: it only logs and closes peers. *)
Lemma expire_or_block_signals now l w :
  emits (effects (expire_or_block now l w).1) = emits (effects w)
  ∧ api_calls (effects (expire_or_block now l w).1) = api_calls (effects w).
Proof.
  revert w. induction l as [|[k r] l IH]; intros w; simpl; [done|].
  destruct (objs w !! r) as [s|]; [|apply IH].
  destruct (active_outbound s); [|apply IH].
  destruct (stale now s); [|done].
  match goal with |- context [expire_or_block now l ?w1] =>
    destruct (IH w1) as [-> ->] end.
  rewrite (proj1 (cleanup_signals _ _ _)), (proj2 (cleanup_signals _ _ _)).
  simpl. by rewrite emits_app, api_calls_app, !app_nil_r.
Qed.

(** X18: an outbound call in relay mode, from the HTTP request to the
    connection.  For a phone with permission and a registry without a
    blocking session, [/api/initiate-call] answers 200 with a provisional
    id and asks only the first connected socket for an SDP offer; when that
    offer comes back and the provider accepts it, the session takes the id
    of the provider and rings; the SDP answer of the provider is then sent
    to the room of that same socket and the call is connected.  Over the
    three steps the provider is called once, and the session keeps the
    phone, the socket and the creation time of the request. *)
Theorem relay_call_round_trip (x : OutboundExt) (phone : string)
  (s0 : Socket) (rest : list Socket) (now t : Z) (sdpOffer sdpAnswer : string)
  (result : InitiateResult) (setRemote : Reply unit) (w : World) :
  phone ≠ "" → sock_id s0 ≠ "" →
  granted (getPermissionStatus phone now w).2 = true →
  (∀ k r s, (k, r) ∈ calls w → objs w !! r = Some s → ¬ blocking now s) →
  let id0 := provisional_id now in
  let id1 := js_or (res_calls0_id result)
               (js_or (res_call_id result) (js_or (res_id result) id0)) in
  let r1 := api_initiate_call false x (Some phone) (s0 :: rest) now w in
  let w2 := handleBrowserSdpOffer id0 sdpOffer (Ok result) t r1.1 in
  let r3 := handleOutboundSdpAnswer id1 sdpAnswer setRemote w2 in
  r1.2 = InitiateOk (mkStartResult id0 awaiting_browser_sdp
                       (Some "browser-only"))
  ∧ r3.2 = Returned ()
  ∧ getCallState id1 r3.1
    = Some (mkCallState id1 outbound phone connected (Some (sock_id s0))
              None None None now)
  ∧ emits (effects r3.1)
    = emits (effects w)
      ++ [(ToSocket (sock_id s0), "generate-sdp-offer",
           [("callId", JStr id0); ("phone", JStr phone)]);
          (Broadcast, "call-ringing",
           [("callId", JStr id1); ("phone", JStr phone)]);
          (ToRoom (sock_id s0), "sdp-answer-from-whatsapp",
           [("callId", JStr id1); ("sdp", JStr sdpAnswer)]);
          (Broadcast, "call-connected",
           [("callId", JStr id1); ("phone", JStr phone)])]
  ∧ api_calls (effects r3.1)
    = api_calls (effects w) ++ [initiateOutboundCall phone sdpOffer].
Proof.
  intros Hphone Hsock Hgr Hfree id0 id1 r1 w2 r3.
  set (wl := (expire_or_block now (calls w) w).1).
  set (st0 := mkCallState id0 outbound phone awaiting_browser_sdp
                (Some (sock_id s0)) None None None now).
  set (n := length (objs wl)).
  (* the HTTP request *)
  assert (r1 = ((startOutboundCallBrowserOnly phone (Some s0) now wl).1,
                 InitiateOk (mkStartResult id0 awaiting_browser_sdp
                               (Some "browser-only")))) as Hr1.
  { subst r1. unfold api_initiate_call, truthy. simpl.
    rewrite decide_False by done. unfold startOutboundCall.
    pose proof (getPermissionStatus_frame phone now w) as Hperm.
    destruct (getPermissionStatus phone now w) as [wp st].
    simpl in Hperm, Hgr. destruct Hperm as (_ & _ & _ & _ & Hpw).
    rewrite Hgr. simpl. rewrite (Hpw Hgr).
    pose proof (expire_or_block_passes now (calls w) w Hfree) as Hpass.
    subst wl. destruct (expire_or_block now (calls w) w) as [wl' c].
    simpl in Hpass. subst c. reflexivity. }
  destruct (expire_or_block_signals now (calls w) w) as [Hemits Hapis].
  fold wl in Hemits, Hapis.
  set (w1 := r1.1).
  assert (calls_get id0 w1 = Some (n, st0)) as Hget1.
  { subst w1. rewrite Hr1. apply calls_get_Some. simpl.
    unfold truthy. simpl. rewrite decide_False by done.
    split; [apply map_get_set_eq|]. apply list_lookup_middle. done. }
  assert (emits (effects w1)
          = emits (effects w)
            ++ [(ToSocket (sock_id s0), "generate-sdp-offer",
                 [("callId", JStr id0); ("phone", JStr phone)])]
          ∧ api_calls (effects w1) = api_calls (effects w)) as [He1 Ha1].
  { subst w1. rewrite Hr1. simpl. effects_norm.
    by rewrite Hemits, Hapis. }
  split; [by rewrite Hr1|].
  (* the local offer *)
  assert (calls_get id1 w2
          = Some (n, with_status ringing (with_callId id1 st0))
          ∧ emits (effects w2)
            = emits (effects w1)
              ++ [(Broadcast, "call-ringing",
                   [("callId", JStr id1); ("phone", JStr phone)])]
          ∧ api_calls (effects w2)
            = api_calls (effects w1) ++ [initiateOutboundCall phone sdpOffer])
    as (Hget2 & He2 & Ha2).
  { subst w2. fold w1.
    rewrite (offer_passes_guard id0 sdpOffer (Ok result) t w1 n st0 Hget1)
      by (intros [H|H]; discriminate H).
    pose proof Hget1 as [Hk Hs]%calls_get_Some.
    unfold handleBrowserSdpOffer_resume. simpl. rewrite Hs. fold id1.
    case_decide as Hd.
    - split.
      { apply calls_get_Some. simpl. rewrite Hd. split; [exact Hk|].
        by rewrite !list_lookup_alter_eq, Hs. }
      effects_norm. done.
    - split.
      { apply calls_get_Some. simpl. split; [apply map_get_set_eq|].
        by rewrite !list_lookup_alter_eq, Hs. }
      effects_norm. done. }
  (* the answer of the provider *)
  subst r3. unfold handleOutboundSdpAnswer. rewrite Hget2.
  pose proof Hget2 as [Hk2 Hs2]%calls_get_Some.
  unfold answer_applied. cbn [objs update set_objs console eff].
  rewrite list_lookup_alter_eq, Hs2. simpl.
  unfold truthy. rewrite decide_False by done. simpl.
  split; [done|]. split.
  { unfold getCallState, calls_get. simpl. rewrite Hk2.
    by rewrite list_lookup_alter_eq, Hs2. }
  effects_norm. rewrite He2, He1, Ha2, Ha1. rewrite <- ?app_assoc. done.
Qed.

Lemma relay_call_round_trip_witness :
  let w := handlePermissionGranted "+15551234567" 1000 init in
  let r1 := api_initiate_call false relay_ext (Some "+15551234567")
              [mkSocket "sock1"; mkSocket "sock2"] 2000 w in
  let w2 := handleBrowserSdpOffer "call_2000" "SDP-O"
              (Ok (mkInitiateResult (Some "wacid.A") None None)) 2500 r1.1 in
  let r3 := handleOutboundSdpAnswer "wacid.A" "SDP-A" (Ok ()) w2 in
  (status <$> getCallState "wacid.A" r3.1) = Some connected
  ∧ api_calls (effects r3.1) = [initiateOutboundCall "+15551234567" "SDP-O"].
Proof.
  intros w r1 w2 r3.
  destruct (relay_call_round_trip relay_ext "+15551234567" (mkSocket "sock1")
              [mkSocket "sock2"] 2000 2500 "SDP-O" "SDP-A"
              (mkInitiateResult (Some "wacid.A") None None) (Ok ()) w)
    as (_ & _ & Hget & _ & Hapi).
  - discriminate.
  - discriminate.
  - vm_compute. reflexivity.
  - intros k r s Hin. vm_compute in Hin. by apply elem_of_nil in Hin.
  - split.
    + rewrite (Hget : getCallState "wacid.A" r3.1 = Some _). reflexivity.
    + exact Hapi.
Defined.

(** ** The permission ledger along a run *)

Lemma reset_loop_permissions now l c w :
  permissions (reset_loop now l c w).1 = permissions w.
Proof. by destruct (reset_loop_frame now l c w) as (_ & -> & _). Qed.

Lemma run_timers_permissions now w :
  permissions (run_timers now w) = permissions w.
Proof. by destruct (run_timers_frame now w) as (_ & -> & _). Qed.

Ltac ledger_step :=
  repeat first
    [ rewrite cleanup_permissions
    | progress cbn [permissions set_objs set_calls set_timers update
                    emit console console2 api eff alloc fst snd]
    | reflexivity ].

(** The ledger changes in two places only: a grant writes the entry of one
    phone, with its expiry 72 hours after the grant, and a read after the
    expiry removes the entry of the phone that was read. *)
Lemma atomic_step_permissions w w' :
  atomic_step w w' →
  permissions w' = permissions w
  ∨ (∃ phone now,
       permissions w'
       = <[phone := mkPerm now (now + PERMISSION_TTL)]> (permissions w))
  ∨ (∃ phone, permissions w' = delete phone (permissions w)).
Proof.
  destruct 1.
  - right. left. by exists phone, now.
  - unfold getPermissionStatus.
    destruct (permissions w !! phone) as [p|]; [|by left].
    destruct (expiresAt p <? now); [right; right; by exists phone|by left].
  - unfold startOutboundCall, getPermissionStatus.
    destruct (permissions w !! phone) as [p|]; [|by left].
    destruct (expiresAt p <? now); [right; right; by exists phone|].
    left. simpl.
    pose proof (expire_or_block_frame now (calls w) w) as (_ & Hp & _).
    destruct (expire_or_block now (calls w) w) as [wl [[]|e]]; simpl in Hp;
      [|done].
    rewrite <- Hp. destruct isAvailable.
    + unfold startOutboundCallWithServerWebRTC.
      destruct (ob_offer x); [|ledger_step]. destruct (ob_reply x); ledger_step.
    + unfold startOutboundCallBrowserOnly. ledger_step.
  - left. unfold handleBrowserSdpOffer, handleBrowserSdpOffer_begin.
    destruct (calls_get id w) as [[r s]|]; [|ledger_step].
    destruct (_ || _); [ledger_step|].
    unfold handleBrowserSdpOffer_resume. cbn [objs api eff console].
    destruct (objs w !! r); [|ledger_step].
    destruct reply; [|ledger_step]. case_decide; ledger_step.
  - left. unfold handleOutboundSdpAnswer.
    destruct (calls_get id w) as [[r s]|].
    + unfold answer_applied. cbn [objs update set_objs console eff].
      destruct (alter _ r (objs w) !! r) as [s'|]; [|ledger_step].
      destruct (whatsappPeer s'); [destruct setRemote|]; ledger_step.
    + cbn [objs console eff calls].
      destruct (find_session answerable (objs w) (calls w)) as [[k r]|];
        [|ledger_step].
      unfold answer_applied. cbn [objs update set_objs set_calls console eff].
      match goal with |- context [alter ?f r ?l !! r] =>
        destruct (alter f r l !! r) as [s'|] end; [|ledger_step].
      destruct (whatsappPeer s'); [destruct setRemote|]; ledger_step.
  - left. unfold handleOutboundStatus.
    destruct (match calls_get id w with Some _ => _ | None => _ end);
      [|ledger_step].
    unfold status_applied. repeat case_decide; ledger_step.
  - left. unfold handleInboundCall. ledger_step.
  - left. unfold acceptInboundCall.
    destruct (calls_get id w) as [[r s]|]; [|ledger_step].
    destruct (negb _); [ledger_step|].
    destruct isAvailable; [|ledger_step].
    destruct (ac_answer x); [|ledger_step].
    destruct (ac_pre_accept x); [|ledger_step].
    destruct (ac_accept x); ledger_step.
  - left. unfold handleBrowserSdpAnswer.
    destruct (calls_get id w) as [[r s]|]; [|ledger_step].
    destruct (_ && _).
    + destruct (an_pre_accept x); [|ledger_step].
      destruct (an_accept x); ledger_step.
    + destruct (whatsappPeer s), (browserPeer s); try ledger_step.
      destruct (an_setRemote x); ledger_step.
  - left. unfold handleTerminate.
    destruct (calls_get id w) as [[r s]|]; ledger_step.
  - left. unfold rejectInboundCall.
    destruct (calls_get id w) as [[r s]|]; [|ledger_step].
    destruct (negb _); [ledger_step|]. destruct provider; ledger_step.
  - left. unfold endCall.
    destruct (calls_get id w) as [[r s]|]; [|ledger_step].
    destruct provider; ledger_step.
  - left. unfold resetCalls.
    pose proof (reset_loop_permissions now (calls w) 0 w) as He.
    destruct (reset_loop now (calls w) 0 w) as [wl n]. simpl in He.
    destruct io; ledger_step; exact He.
  - left. apply run_timers_permissions.
Qed.

(** X19: the answer of a permission read.  In every world reached from the
    empty one, a read that answers [granted] reports an expiry exactly 72
    hours after the grant and not yet passed, and a number of remaining
    hours that is never negative and, for a read not earlier than the
    grant, never more than 72. *)
Theorem remaining_hours_bounds (w : World) (phone : string) (now : Z)
  (g e h : Z) :
  rtc atomic_step init w →
  (getPermissionStatus phone now w).2 = PermGranted g e h →
  e = g + PERMISSION_TTL ∧ now ≤ e ∧ 0 ≤ h ∧ (g ≤ now → h ≤ 72).
Proof.
  intros Hrun.
  assert (∀ p perm, permissions w !! p = Some perm →
            expiresAt perm = grantedAt perm + PERMISSION_TTL) as Hledger.
  { clear phone now g e h.
    assert (∀ p perm, permissions init !! p = Some perm →
              expiresAt perm = grantedAt perm + PERMISSION_TTL) as Hinit.
    { intros p perm Hp. cbn in Hp. by rewrite lookup_empty in Hp. }
    revert Hrun Hinit. generalize init. intros w0 Hrun.
    induction Hrun as [w|w1 w2 w3 Hstep _ IH]; intros Hw; [done|].
    apply IH. intros p perm.
    destruct (atomic_step_permissions _ _ Hstep)
      as [->|[(phone & now & ->)|(phone & ->)]]; [apply Hw| |].
    - destruct (decide (phone = p)) as [->|Hne].
      + rewrite lookup_insert_eq. by intros [= <-].
      + rewrite lookup_insert_ne by done. apply Hw.
    - destruct (decide (phone = p)) as [->|Hne].
      + by rewrite lookup_delete_eq.
      + rewrite lookup_delete_ne by done. apply Hw. }
  unfold getPermissionStatus.
  destruct (permissions w !! phone) as [perm|] eqn:Hp; [|done].
  destruct (Z.ltb_spec (expiresAt perm) now) as [Hlt|Hge]; [done|].
  simpl. intros [= <- <- <-]. specialize (Hledger phone perm Hp).
  split; [done|]. split; [done|]. unfold round_div.
  split.
  - apply Z.div_pos; lia.
  - intros Hg. apply Z.lt_succ_r, Z.div_lt_upper_bound; [lia|].
    rewrite Hledger. unfold PERMISSION_TTL. lia.
Qed.

Lemma remaining_hours_bounds_witness :
  (getPermissionStatus "+15551234567" 1000 connected_world).2
  = PermGranted 1000 259201000 72.
Proof.
  assert (rtc atomic_step init connected_world) as Hrun.
  { eapply rtc_l; [apply (step_grant "+15551234567" 1000)|].
    eapply rtc_l; [apply (step_start false relay_ext "+15551234567"
                            (Some (mkSocket "sock1")) 2000)|].
    eapply rtc_l; [apply (step_offer "call_2000" "SDP-O"
                            (Ok (mkInitiateResult (Some "wacid.A") None None))
                            2500)|].
    eapply rtc_l; [apply (step_answer "wacid.A" "SDP-A" (Ok ()))|].
    apply rtc_refl. }
  destruct (getPermissionStatus "+15551234567" 1000 connected_world)
    as [w' [| |g e h]] eqn:E; [vm_compute in E; discriminate E..|].
  pose proof (remaining_hours_bounds connected_world "+15551234567" 1000
                g e h Hrun) as Hb.
  rewrite E in Hb. destruct (Hb eq_refl) as (He & _ & _ & _).
  revert E. vm_compute. intros [= _ <- <- <-]. reflexivity.
Defined.

(** ** Reading the registry, and the reject route *)





(** X20: the reject route as this repository runs it.  whatsappApi.js has
    no [rejectCall], so nothing [/api/reject-call] does reaches the
    provider.  The route answers 400 without a call id; 200 when an
    inbound session is registered under the id, which is then rejected and
    cleaned up locally, with one call-ended broadcast; and 500 with the
    error of the call manager otherwise, nothing having changed. *)
Theorem reject_route_stays_local (PHONE_NUMBER_ID : string)
  (callId : option string) (now : Z) (w : World) :
  let res := api_reject_call whatsappApi_rejectCall callId now w in
  (∀ c, c ∈ api_calls (effects res.1) →
        c ∈ api_calls (effects w) ∨ request_of PHONE_NUMBER_ID c = None)
  ∧ (truthy callId = None →
     res = (w, mkHttpResponse 400 [("error", JStr "callId is required")]))
  ∧ (∀ id r s, truthy callId = Some id →
       calls_get id w = Some (r, s) → direction s = inbound →
       res.2 = mkHttpResponse 200 [("success", JBool true)]
       ∧ calls_get id res.1 = Some (r, with_status rejected s)
       ∧ timers res.1 = timers w ++ [(now + RETENTION, id)]
       ∧ emits (effects res.1)
         = emits (effects w)
           ++ [(Broadcast, "call-ended",
                [("callId", JStr id); ("phone", JStr (recipientPhone s))])])
  ∧ (∀ id, truthy callId = Some id →
       (∀ r s, calls_get id w = Some (r, s) → direction s ≠ inbound) →
       res.2 = mkHttpResponse 500
                 [("success", JBool false);
                  ("error", JStr msg_no_inbound_reject)]
       ∧ same_state w res.1).
Proof.
  intros res. subst res. unfold api_reject_call.
  destruct (truthy callId) as [id|].
  2: { simpl. split; [intros c; by left|]. split; [done|].
       split; [intros id r s [=]|intros id [=]]. }
  destruct (calls_get id w) as [[r s]|] eqn:Hget.
  - destruct (decide (direction s = inbound)) as [Hdir|Hdir].
    + destruct (rejectInboundCall_known whatsappApi_rejectCall id now w r s
                  Hget Hdir) as (w' & -> & Ho & Hc & Hp & Ht & He).
      pose proof Hget as [Hk Hs]%calls_get_Some. simpl.
      split.
      { intros c. rewrite He. rewrite !api_calls_app.
        unfold peer_closes. rewrite !api_calls_app, !api_calls_closes.
        simpl. rewrite ?app_nil_r.
        intros [Hin| ->%list_elem_of_singleton]%elem_of_app;
          [by left|by right]. }
      split; [done|]. split.
      { intros id' r' s' [= <-] Hg _. rewrite Hget in Hg.
        injection Hg as <- <-. split; [done|].
        split.
        { apply calls_get_Some. rewrite Hc, Ho.
          by rewrite list_lookup_alter_eq, Hs. }
        split; [done|]. rewrite He. rewrite !emits_app.
        unfold peer_closes. rewrite !emits_app, !emits_closes. simpl.
        by rewrite ?app_nil_r. }
      intros id' [= <-] Hnot. by destruct (Hnot r s).
    + unfold rejectInboundCall. rewrite Hget.
      rewrite bool_decide_eq_false_2 by done. simpl.
      split.
      { intros c. rewrite api_calls_app. simpl. rewrite app_nil_r. by left. }
      split; [done|]. split.
      { intros id' r' s' [= <-] Hg Hd. rewrite Hget in Hg.
        injection Hg as <- <-. done. }
      intros id' [= <-] _. done.
  - unfold rejectInboundCall. rewrite Hget. simpl.
    split.
    { intros c. rewrite api_calls_app. simpl. rewrite app_nil_r. by left. }
    split; [done|].
    split; [intros id' r' s' [= <-] Hg; by rewrite Hget in Hg|].
    intros id' [= <-] _. done.
Qed.

Lemma reject_route_stays_local_witness :
  let res := api_reject_call whatsappApi_rejectCall (Some "WA1") 5000
               inbound_world in
  http_status res.2 = 200
  ∧ (status <$> getCallState "WA1" res.1) = Some rejected
  ∧ api_calls (effects res.1) = [rejectCall "WA1"]
  ∧ request_of "1234567890" (rejectCall "WA1") = None.
Proof.
  intros res.
  destruct (reject_route_stays_local "1234567890" (Some "WA1") 5000
              inbound_world) as (Hapi & _ & Hok & _).
  destruct (Hok "WA1" 0%nat
              (mkCallState "WA1" inbound "+15557654321" incoming None
                 (Some "SDP-I") None None 3000))
    as (Hres & Hget & _); [reflexivity|vm_compute; reflexivity|reflexivity|].
  fold res in Hres, Hget, Hapi.
  split; [by rewrite Hres|]. split.
  { unfold getCallState. by rewrite Hget. }
  split; [vm_compute; reflexivity|].
  destruct (Hapi (rejectCall "WA1")) as [Hin|Hnone]; [|exfalso|exact Hnone].
  - vm_compute. left.
  - vm_compute in Hin. by apply elem_of_nil in Hin.
Defined.

(** ** The requests of the call manager, on the wire *)

(** X22: every request that the call manager's calls put on the wire goes to
    the calls endpoint of the configured phone number and is marked as a
    WhatsApp request; an initiate request names the callee and carries the
    SDP as an offer with action connect; answer and terminate requests name
    the call and carry their action. *)
Theorem call_requests_shape (PHONE_NUMBER_ID : string) (c : ApiCall)
  (req : Request) :
  request_of PHONE_NUMBER_ID c = Some req →
  req_url req = "/" +:+ PHONE_NUMBER_ID +:+ "/calls"
  ∧ json_field "messaging_product" (req_body req) = Some (JsonStr "whatsapp")
  ∧ match c with
    | initiateOutboundCall phone sdpOffer =>
        json_field "to" (req_body req) = Some (JsonStr phone)
        ∧ json_field "action" (req_body req) = Some (JsonStr "connect")
        ∧ json_field "session" (req_body req)
          = Some (JsonObj [("sdp", JsonStr sdpOffer);
                           ("sdp_type", JsonStr "offer")])
        ∧ json_field "call_id" (req_body req) = None
    | answerCall id action _ =>
        json_field "call_id" (req_body req) = Some (JsonStr id)
        ∧ json_field "action" (req_body req) = Some (JsonStr action)
        ∧ json_field "to" (req_body req) = None
    | terminateCall id =>
        json_field "call_id" (req_body req) = Some (JsonStr id)
        ∧ json_field "action" (req_body req) = Some (JsonStr "terminate")
        ∧ json_field "session" (req_body req) = None
    | rejectCall _ => False
    end.
Proof.
  destruct c as [phone sdp|id action sdp|id|id]; simpl; intros [= <-];
    try done.
  unfold answerCall_request, truthy.
  destruct (decide (sdp = "")); [|destruct (decide (action = "accept"))];
    cbn; repeat split; reflexivity.
Qed.

Lemma call_requests_shape_witness :
  json_field "action"
    (req_body (terminateCall_request "1234567890" "wacid.A"))
  = Some (JsonStr "terminate").
Proof.
  destruct (call_requests_shape "1234567890" (terminateCall "wacid.A")
              (terminateCall_request "1234567890" "wacid.A") eq_refl)
    as (_ & _ & _ & H & _).
  exact H.
Defined.
